(** * NHS-TinNhan: the placeholder engine of the message-template manager

    A shallow embedding of the helper functions of the application
    ([extractVariables], [replaceVariables], [normalizeContent],
    [htmlToPlainText]) and of [suggestContent] of the Gemini service,
    together with the part of the JavaScript runtime they rely on:
    regular-expression matching, [String.prototype.replace] with a global
    regular expression, and the replacement-pattern language ([$$], [$&]...).
    Around the engine: the storage service, the state of the component
    with its handlers and effects, and the values map as an object. *)

From Stdlib Require Import Ascii String List Bool Arith ZArith Lia Permutation.
Import ListNotations.

Local Open Scope char_scope.
Local Open Scope list_scope.
Local Open Scope nat_scope.

(** ** JavaScript strings

    A JavaScript string is a finite sequence of code units.  Every character
    the functions below distinguish (braces, [&], [<], [>], [$], digits,
    letters, line feed) is an ASCII character, so a string is modelled as a
    list of [ascii] characters. *)

Definition jsstring := list ascii.

Definition js (s : string) : jsstring := list_ascii_of_string s.

Definition jsstring_eq_dec : forall a b : jsstring, {a = b} + {a <> b} :=
  list_eq_dec ascii_dec.

Definition jseqb (a b : jsstring) : bool :=
  if jsstring_eq_dec a b then true else false.

(** [s.slice(start, end)] with the relative-index rule for negative
    arguments. *)
Definition slice (start end_ : Z) (s : jsstring) : jsstring :=
  let len := Z.of_nat (length s) in
  let from := if (start <? 0)%Z then Z.max (len + start) 0 else Z.min start len in
  let to := if (end_ <? 0)%Z then Z.max (len + end_) 0 else Z.min end_ len in
  firstn (Z.to_nat (to - from)) (skipn (Z.to_nat from) s).

(** [s.includes(c)] for a one-character needle. *)
Definition includes_char (c : ascii) (s : jsstring) : bool :=
  existsb (Ascii.eqb c) s.

(** ** Regular expressions

    The abstract syntax of the patterns used by the program, and the
    backtracking matcher of the language specification written in
    continuation-passing style: a matcher takes the rest of the input and
    the captures so far, and a continuation that decides whether the
    remainder of the pattern matches. *)

Inductive regex : Type :=
| REmpty                              (* the empty alternative *)
| RChar (c : ascii)                   (* a pattern character, or [\c] *)
| RAny                                (* [.] *)
| RClass (p : ascii -> bool)          (* a character class, as a predicate *)
| RBol                                (* [^] *)
| REol                                (* [$] *)
| RSeq (r1 r2 : regex)
| RAlt (r1 r2 : regex)                (* [r1|r2] *)
| RStar (greedy : bool) (r : regex)   (* [r*] and [r*?] *)
| RPlus (greedy : bool) (r : regex)   (* [r+] and [r+?] *)
| ROpt (greedy : bool) (r : regex)    (* [r?] and [r??] *)
| RGroup (n : nat) (r : regex).       (* the capturing group number [n] *)

(** The captures of a match: the most recent text of each group that took
    part.  The result of a match: the rest of the input and the captures,
    or a failure. *)
Definition captures := list (nat * jsstring).
Definition mresult := option (jsstring * captures).
Definition mcont := jsstring -> captures -> mresult.

(** [.] matches any character but a line terminator. *)
Definition is_line_terminator (c : ascii) : bool :=
  Ascii.eqb c "010" || Ascii.eqb c "013".

(** Numbers of the capturing groups inside a pattern. *)
Fixpoint groups_of (r : regex) : list nat :=
  match r with
  | RSeq r1 r2 | RAlt r1 r2 => groups_of r1 ++ groups_of r2
  | RStar _ r' | RPlus _ r' | ROpt _ r' => groups_of r'
  | RGroup n r' => n :: groups_of r'
  | _ => []
  end.

(** Captures of the groups in [gs] are cleared at each iteration of a
    quantified atom. *)
Definition reset_captures (gs : list nat) (c : captures) : captures :=
  filter (fun e => negb (existsb (Nat.eqb (fst e)) gs)) c.

Definition or_else (a : mresult) (b : mresult) : mresult :=
  match a with
  | Some x => Some x
  | None => b
  end.

(** The iteration of a [*] quantifier: an iteration that consumes nothing is
    rejected, so the rest of the input gets strictly shorter and
    [S (length s)] rounds are enough. *)
Fixpoint repeat_loop (m : mcont -> jsstring -> captures -> mresult)
    (rst : captures -> captures) (greedy : bool) (k : mcont)
    (fuel : nat) (s : jsstring) (c : captures) {struct fuel} : mresult :=
  match fuel with
  | O => k s c
  | S fuel' =>
      let iter :=
        m (fun s' c' =>
             if length s' =? length s then None
             else repeat_loop m rst greedy k fuel' s' c') s (rst c) in
      if greedy then or_else iter (k s c) else or_else (k s c) iter
  end.

(** [rmatch total r k s c]: match [r] at the head of [s], then the rest of
    the pattern [k]; [total] is the length of the whole input, so that [^]
    can tell the start of the input.  Alternatives are tried from left to
    right, a greedy quantifier tries one more round before it tries the
    rest of the pattern, a lazy one the other way round. *)
Fixpoint rmatch (total : nat) (r : regex) (k : mcont) (s : jsstring)
    (c : captures) {struct r} : mresult :=
  match r with
  | REmpty => k s c
  | RChar a =>
      match s with
      | x :: s' => if Ascii.eqb x a then k s' c else None
      | [] => None
      end
  | RAny =>
      match s with
      | x :: s' => if is_line_terminator x then None else k s' c
      | [] => None
      end
  | RClass p =>
      match s with
      | x :: s' => if p x then k s' c else None
      | [] => None
      end
  | RBol => if length s =? total then k s c else None
  | REol =>
      match s with
      | [] => k s c
      | _ :: _ => None
      end
  | RSeq r1 r2 => rmatch total r1 (rmatch total r2 k) s c
  | RAlt r1 r2 => or_else (rmatch total r1 k s c) (rmatch total r2 k s c)
  | RStar g r' =>
      repeat_loop (rmatch total r') (reset_captures (groups_of r')) g k
        (S (length s)) s c
  | RPlus g r' =>
      rmatch total r'
        (fun s' c' =>
           repeat_loop (rmatch total r') (reset_captures (groups_of r')) g k
             (S (length s')) s' c')
        s (reset_captures (groups_of r') c)
  | ROpt g r' =>
      let iter :=
        rmatch total r'
          (fun s' c' => if length s' =? length s then None else k s' c')
          s (reset_captures (groups_of r') c) in
      if g then or_else iter (k s c) else or_else (k s c) iter
  | RGroup n r' =>
      rmatch total r'
        (fun s' c' => k s' ((n, firstn (length s - length s') s) :: c')) s c
  end.

(** One attempt to match [r] at the current position: the rest of the input
    after the match, and the captures. *)
Definition match_here (total : nat) (r : regex) (s : jsstring) : mresult :=
  rmatch total r (fun s' c' => Some (s', c')) s [].

(** ** A global scan of a string

    What the repeated [exec] of a regular expression with the [g] flag sees:
    the characters outside the matches and, for each match, the text before
    it, the matched text, its captures and the text after it.  After an
    empty match the scan resumes one character further. *)

Inductive piece : Type :=
| Keep (c : ascii)
| Hit (before matched : jsstring) (caps : captures) (after : jsstring).

Fixpoint scan (r : regex) (total : nat) (skip : nat) (rbefore : jsstring)
    (s : jsstring) {struct s} : list piece :=
  match skip with
  | S n =>
      match s with
      | [] => []
      | x :: t => scan r total n (x :: rbefore) t
      end
  | O =>
      match match_here total r s with
      | Some (s', c') =>
          let n := length s - length s' in
          Hit (rev rbefore) (firstn n s) c' s' ::
            match s with
            | [] => []
            | x :: t =>
                if n =? 0 then Keep x :: scan r total 0 (x :: rbefore) t
                else scan r total (n - 1) (x :: rbefore) t
            end
      | None =>
          match s with
          | [] => []
          | x :: t => Keep x :: scan r total 0 (x :: rbefore) t
          end
      end
  end.

Definition scan_all (r : regex) (s : jsstring) : list piece :=
  scan r (length s) 0 [] s.

Definition matched_texts (ps : list piece) : list jsstring :=
  flat_map (fun p => match p with Keep _ => [] | Hit _ m _ _ => [m] end) ps.

(** [s.match(r)] for a global [r]: the matched texts in order, or [null]
    ([None]) when there is no match. *)
Definition String_match_g (r : regex) (s : jsstring) : option (list jsstring) :=
  match matched_texts (scan_all r s) with
  | [] => None
  | ms => Some ms
  end.

(** [[...new Set(l)]]: elements are added in order, an element already in
    the set is not added again, and the set is listed in insertion order. *)
Definition Set_add (acc : list jsstring) (x : jsstring) : list jsstring :=
  if existsb (jseqb x) acc then acc else acc ++ [x].

Definition Set_spread (l : list jsstring) : list jsstring :=
  fold_left Set_add l [].

(** ** extractVariables *)

(** The regular expression [/\{([^}]+)\}/g]. *)
Definition not_close_brace (c : ascii) : bool := negb (Ascii.eqb c "}").

Definition variable_regex : regex :=
  RSeq (RChar "{")
    (RSeq (RGroup 1 (RPlus true (RClass not_close_brace))) (RChar "}")).

Definition extractVariables (text : jsstring) : list jsstring :=
  match String_match_g variable_regex text with
  | None => []
  | Some matches => map (slice 1 (-1)) (Set_spread matches)
  end.


(** ** Completions

    A call returns a value, throws, or is outside the part of the pattern
    language this development gives a meaning to ([Unsupported]: character
    classes, escapes of letters and digits, braced quantifiers, look-around
    and named groups in a pattern built at run time). *)

Inductive js_error : Type :=
| SyntaxError (msg : string)
| TypeError (msg : string)
| Error (msg : string).

Inductive result (A : Type) : Type :=
| Ok (a : A)
| Throw (e : js_error)
| Unsupported.

Arguments Ok {A} a.
Arguments Throw {A} e.
Arguments Unsupported {A}.

Definition bind {A B : Type} (x : result A) (f : A -> result B) : result B :=
  match x with
  | Ok a => f a
  | Throw e => Throw e
  | Unsupported => Unsupported
  end.

Notation "x <- e1 ;; e2" := (bind e1 (fun x => e2))
  (at level 61, e1 at next level, right associativity).

(** ** The RegExp constructor

    [new RegExp(source, 'g')] parses [source] with the pattern grammar
    (without the [u] flag, with the web-compatibility rules: a brace or a
    closing bracket that does not belong to a quantifier or a class stands
    for itself). *)

Record RegExp : Type := { re_pattern : regex; re_ngroups : nat }.

Inductive quant : Type := QStar | QPlus | QOpt.

(** A term of the alternative being read: an atom, which a quantifier may
    follow; a quantified atom, which a [?] may turn lazy; or a term that
    takes nothing after it (an assertion, a lazy quantified atom). *)
Inductive item : Type :=
| IAtom (r : regex)
| IQuant (q : quant) (r : regex)
| IFixed (r : regex).

Definition apply_quant (q : quant) (greedy : bool) (r : regex) : regex :=
  match q with
  | QStar => RStar greedy r
  | QPlus => RPlus greedy r
  | QOpt => ROpt greedy r
  end.

Definition regex_of_item (i : item) : regex :=
  match i with
  | IAtom r => r
  | IQuant q r => apply_quant q true r
  | IFixed r => r
  end.

Definition mkseq (l : list regex) : regex := fold_right RSeq REmpty l.

Fixpoint mkalt (l : list regex) : regex :=
  match l with
  | [] => REmpty
  | [a] => a
  | a :: l' => RAlt a (mkalt l')
  end.

(** The alternatives already closed and the terms of the current one, both
    most recent first. *)
Record frame : Type := { f_alts : list regex; f_cur : list item }.

Definition close_alt (f : frame) : regex :=
  mkseq (map regex_of_item (rev (f_cur f))).

Definition close_frame (f : frame) : regex :=
  mkalt (rev (close_alt f :: f_alts f)).

Definition push_item (i : item) (f : frame) : frame :=
  {| f_alts := f_alts f; f_cur := i :: f_cur f |}.

(** The parser reads the source one character at a time.  It is in the
    middle of an escape after a backslash, and of the opening of a group
    after [(] and after [(?].  The stack holds, for each group that is
    open, the frame around it and the number of the group, if it
    captures. *)
Inductive pmode : Type := MNormal | MEscape | MParen | MParenQ.

Record pstate : Type := {
  p_mode : pmode;
  p_cur : frame;
  p_stack : list (frame * option nat);
  p_groups : nat
}.

Definition is_digit (c : ascii) : bool :=
  (48 <=? nat_of_ascii c) && (nat_of_ascii c <=? 57).

Definition is_upper (c : ascii) : bool :=
  (65 <=? nat_of_ascii c) && (nat_of_ascii c <=? 90).

Definition is_lower (c : ascii) : bool :=
  (97 <=? nat_of_ascii c) && (nat_of_ascii c <=? 122).

Definition is_alnum (c : ascii) : bool := is_digit c || is_upper c || is_lower c.

Fixpoint skip_digits (s : jsstring) : jsstring :=
  match s with
  | c :: t => if is_digit c then skip_digits t else s
  | [] => []
  end.

(** Does the text after an opening brace complete a quantifier
    [{n}], [{n,}] or [{n,m}]? *)
Definition braced_quantifier (rest : jsstring) : bool :=
  match rest with
  | d :: _ =>
      is_digit d &&
      match skip_digits rest with
      | c :: t =>
          Ascii.eqb c "}" ||
          (Ascii.eqb c "," &&
           match skip_digits t with
           | c' :: _ => Ascii.eqb c' "}"
           | [] => false
           end)
      | [] => false
      end
  | [] => false
  end.

(** A quantifier needs an atom before it. *)
Definition nothing_to_repeat {A : Type} : result A :=
  Throw (SyntaxError "Nothing to repeat").

Definition quantify (q : quant) (f : frame) : result frame :=
  match f_cur f with
  | IAtom r :: l => Ok {| f_alts := f_alts f; f_cur := IQuant q r :: l |}
  | IQuant q0 r :: l =>
      match q with
      | QOpt => Ok {| f_alts := f_alts f; f_cur := IFixed (apply_quant q0 false r) :: l |}
      | _ => nothing_to_repeat
      end
  | _ => nothing_to_repeat
  end.

Definition with_cur (st : pstate) (f : frame) : pstate :=
  {| p_mode := MNormal; p_cur := f; p_stack := p_stack st; p_groups := p_groups st |}.

Definition with_mode (st : pstate) (m : pmode) : pstate :=
  {| p_mode := m; p_cur := p_cur st; p_stack := p_stack st; p_groups := p_groups st |}.

Definition empty_frame : frame := {| f_alts := []; f_cur := [] |}.

(** One character outside an escape.  An opening brace is a pattern
    character unless it starts a braced quantifier. *)
Definition normal_step (st : pstate) (c : ascii) (rest : jsstring) : result pstate :=
  if Ascii.eqb c "\" then Ok (with_mode st MEscape)
  else if Ascii.eqb c "(" then Ok (with_mode st MParen)
  else if Ascii.eqb c ")" then
    match p_stack st with
    | [] => Throw (SyntaxError "Unmatched ')'")
    | (parent, g) :: stk =>
        let body := close_frame (p_cur st) in
        let atom := match g with Some n => RGroup n body | None => body end in
        Ok {| p_mode := MNormal; p_cur := push_item (IAtom atom) parent;
              p_stack := stk; p_groups := p_groups st |}
    end
  else if Ascii.eqb c "|" then
    Ok (with_cur st {| f_alts := close_alt (p_cur st) :: f_alts (p_cur st); f_cur := [] |})
  else if Ascii.eqb c "*" then f <- quantify QStar (p_cur st) ;; Ok (with_cur st f)
  else if Ascii.eqb c "+" then f <- quantify QPlus (p_cur st) ;; Ok (with_cur st f)
  else if Ascii.eqb c "?" then f <- quantify QOpt (p_cur st) ;; Ok (with_cur st f)
  else if Ascii.eqb c "." then Ok (with_cur st (push_item (IAtom RAny) (p_cur st)))
  else if Ascii.eqb c "^" then Ok (with_cur st (push_item (IFixed RBol) (p_cur st)))
  else if Ascii.eqb c "$" then Ok (with_cur st (push_item (IFixed REol) (p_cur st)))
  else if Ascii.eqb c "[" then Unsupported
  else if Ascii.eqb c "{" && braced_quantifier rest then
    match f_cur (p_cur st) with
    | IAtom _ :: _ => Unsupported
    | _ => nothing_to_repeat
    end
  else Ok (with_cur st (push_item (IAtom (RChar c)) (p_cur st))).

Definition open_group (st : pstate) (capturing : bool) : pstate :=
  if capturing then
    {| p_mode := MNormal; p_cur := empty_frame;
       p_stack := (p_cur st, Some (S (p_groups st))) :: p_stack st;
       p_groups := S (p_groups st) |}
  else
    {| p_mode := MNormal; p_cur := empty_frame;
       p_stack := (p_cur st, None) :: p_stack st;
       p_groups := p_groups st |}.

(** After a backslash a character that is neither a letter nor a digit
    stands for itself. *)
Definition parse_step (st : pstate) (c : ascii) (rest : jsstring) : result pstate :=
  match p_mode st with
  | MNormal => normal_step st c rest
  | MEscape =>
      if is_alnum c then Unsupported
      else Ok (with_cur st (push_item (IAtom (RChar c)) (p_cur st)))
  | MParen =>
      if Ascii.eqb c "?" then Ok (with_mode st MParenQ)
      else normal_step (open_group st true) c rest
  | MParenQ =>
      if Ascii.eqb c ":" then Ok (open_group st false) else Unsupported
  end.

Definition parse_finish (st : pstate) : result RegExp :=
  match p_mode st with
  | MEscape => Throw (SyntaxError "\ at end of pattern")
  | MParen | MParenQ => Throw (SyntaxError "Unterminated group")
  | MNormal =>
      match p_stack st with
      | [] => Ok {| re_pattern := close_frame (p_cur st); re_ngroups := p_groups st |}
      | _ :: _ => Throw (SyntaxError "Unterminated group")
      end
  end.

Fixpoint parse_loop (st : pstate) (s : jsstring) : result RegExp :=
  match s with
  | [] => parse_finish st
  | c :: rest => st' <- parse_step st c rest ;; parse_loop st' rest
  end.

Definition RegExp_new (source : jsstring) : result RegExp :=
  parse_loop
    {| p_mode := MNormal; p_cur := empty_frame; p_stack := []; p_groups := 0 |}
    source.

(** A regular-expression literal of the source with no capturing group. *)
Definition literal_regexp (r : regex) : RegExp :=
  {| re_pattern := r; re_ngroups := 0 |}.

(** ** Replacement patterns and String.prototype.replace *)

Definition digit_value (c : ascii) : nat := nat_of_ascii c - 48.

Definition capture_text (caps : captures) (n : nat) : jsstring :=
  match find (fun e => fst e =? n) caps with
  | Some e => snd e
  | None => []
  end.

(** The expansion of a replacement string for one match: [$$], [$&], the
    text before ([$`]) and after ([$']) the match, and [$n], [$nn] when the
    pattern has a group of that number ([m] groups in all). *)
Fixpoint GetSubstitution (matched before after : jsstring) (m : nat)
    (caps : captures) (t : jsstring) {struct t} : jsstring :=
  match t with
  | [] => []
  | a :: t1 =>
      if negb (Ascii.eqb a "$") then
        a :: GetSubstitution matched before after m caps t1
      else
        match t1 with
        | [] => [a]
        | b :: t2 =>
            if Ascii.eqb b "$" then
              "$" :: GetSubstitution matched before after m caps t2
            else if Ascii.eqb b "&" then
              matched ++ GetSubstitution matched before after m caps t2
            else if Ascii.eqb b "`" then
              before ++ GetSubstitution matched before after m caps t2
            else if Ascii.eqb b "'" then
              after ++ GetSubstitution matched before after m caps t2
            else if is_digit b then
              let one :=
                if (1 <=? digit_value b) && (digit_value b <=? m) then
                  capture_text caps (digit_value b)
                    ++ GetSubstitution matched before after m caps t2
                else
                  a :: b :: GetSubstitution matched before after m caps t2 in
              match t2 with
              | d :: t3 =>
                  if is_digit d then
                    let index := 10 * digit_value b + digit_value d in
                    if m <? index then one
                    else if 1 <=? index then
                      capture_text caps index
                        ++ GetSubstitution matched before after m caps t3
                    else
                      a :: b :: d :: GetSubstitution matched before after m caps t3
                  else one
              | [] => one
              end
            else
              a :: GetSubstitution matched before after m caps t1
        end
  end.

(** [s.replace(R, replacement)] for a global [R] and a replacement string. *)
Definition substitute_piece (R : RegExp) (replacement : jsstring) (p : piece)
    : jsstring :=
  match p with
  | Keep c => [c]
  | Hit before matched caps after =>
      GetSubstitution matched before after (re_ngroups R) caps replacement
  end.

Definition String_replace_g (R : RegExp) (replacement : jsstring)
    (s : jsstring) : jsstring :=
  flat_map (substitute_piece R replacement) (scan_all (re_pattern R) s).

(** [R.test(s)] for a regular expression without the [g] flag: is there a
    position where the pattern matches? *)
Fixpoint search_from (r : regex) (total : nat) (s : jsstring) : bool :=
  match match_here total r s with
  | Some _ => true
  | None =>
      match s with
      | [] => false
      | _ :: t => search_from r total t
      end
  end.

Definition RegExp_test (r : regex) (s : jsstring) : bool :=
  search_from r (length s) s.

(** ** replaceVariables *)

(** [Object.entries(variables)]: the own properties of the object in
    enumeration order, each key once. *)
Definition VariableMap := list (jsstring * jsstring).

Definition truthy (s : jsstring) : bool :=
  match s with
  | [] => false
  | _ :: _ => true
  end.

(** [value.replace(/&/g, "&amp;").replace(/</g, "&lt;").replace(/>/g, "&gt;")] *)
Definition escape_value (value : jsstring) : jsstring :=
  String_replace_g (literal_regexp (RChar ">")) (js "&gt;")
    (String_replace_g (literal_regexp (RChar "<")) (js "&lt;")
       (String_replace_g (literal_regexp (RChar "&")) (js "&amp;") value)).

(** The template literal [`\\{${key}\\}`]. *)
Definition key_pattern_source (key : jsstring) : jsstring :=
  js "\{" ++ key ++ js "\}".

(** The template literal [`{${key}}`]. *)
Definition braced (key : jsstring) : jsstring := "{" :: key ++ ["}"].

Definition replace_entry (newText : jsstring) (entry : jsstring * jsstring)
    : result jsstring :=
  let (key, value) := entry in
  regex <- RegExp_new (key_pattern_source key) ;;
  let safeValue := if truthy value then escape_value value else braced key in
  Ok (String_replace_g regex safeValue newText).

Fixpoint forEach_entries (newText : jsstring) (entries : VariableMap)
    : result jsstring :=
  match entries with
  | [] => Ok newText
  | e :: rest => t <- replace_entry newText e ;; forEach_entries t rest
  end.

Definition replaceVariables (text : jsstring) (variables : VariableMap)
    : result jsstring :=
  forEach_entries text variables.

(** ** normalizeContent *)

(** [/<[a-z][\s\S]*>/i]: with the [i] flag the class [a-z] accepts the ASCII
    letters of both cases and no other character. *)
Definition is_ascii_letter (c : ascii) : bool := is_lower c || is_upper c.

Definition tag_regex : regex :=
  RSeq (RChar "<")
    (RSeq (RClass is_ascii_letter)
       (RSeq (RStar true (RClass (fun _ => true))) (RChar ">"))).

Definition newline : ascii := "010".

Definition normalizeContent (content : jsstring) : jsstring :=
  if negb (truthy content) then []
  else if negb (RegExp_test tag_regex content) && includes_char newline content
  then String_replace_g (literal_regexp (RChar newline)) (js "<br>") content
  else content.

(** ** htmlToPlainText

    The document tree: text, comments and elements.  [temp.innerHTML = html]
    hands the markup to the browser's parser, which is a parameter of the
    model: [parseFragment html] is the list of children of [temp] after the
    assignment. *)

#[warnings="-register-all"]
Inductive node : Type :=
| Text (data : jsstring)
| Comment (data : jsstring)
| Element (tag : jsstring) (children : list node).

(** [temp.getElementsByTagName(tag)] is a live collection: the elements
    named [tag] below [temp], in tree order, as the tree is at the time the
    collection is read.  Its length is [count_forest tag temp]. *)
Fixpoint count_tag (tag : jsstring) (n : node) : nat :=
  match n with
  | Element t cs =>
      (if jseqb t tag then 1 else 0) + list_sum (map (count_tag tag) cs)
  | _ => 0
  end.

Definition count_forest (tag : jsstring) (cs : list node) : nat :=
  list_sum (map (count_tag tag) cs).

(** The body of the [for] loop on [elements[i]]: the element number [i] of
    the collection is replaced by a line feed when [tag] is [br]
    ([el.replaceWith]) and is followed by a line feed otherwise
    ([el.after]).  [act_node tag i n] is what takes the place of [n] when
    the element is [n] or lies inside it. *)
Fixpoint act_node (tag : jsstring) (i : nat) (n : node) : list node :=
  match n with
  | Element t cs =>
      let inside :=
        fix go (i : nat) (cs : list node) : list node :=
          match cs with
          | [] => []
          | c :: rest =>
              if i <? count_tag tag c then act_node tag i c ++ rest
              else c :: go (i - count_tag tag c) rest
          end in
      if jseqb t tag then
        match i with
        | O => if jseqb tag (js "br") then [Text [newline]] else [n; Text [newline]]
        | S i' => [Element t (inside i' cs)]
        end
      else [Element t (inside i cs)]
  | _ => [n]
  end.

Fixpoint act_forest (tag : jsstring) (i : nat) (cs : list node) : list node :=
  match cs with
  | [] => []
  | c :: rest =>
      if i <? count_tag tag c then act_node tag i c ++ rest
      else c :: act_forest tag (i - count_tag tag c) rest
  end.

(** [for (let i = elements.length - 1; i >= 0; i--)]: [tag_loop tag n temp]
    runs the iterations [i = n - 1], ..., [0].  Reading [elements[i]]
    beyond the end of the collection gives [undefined], and calling a
    method on it throws. *)
Fixpoint tag_loop (tag : jsstring) (n : nat) (temp : list node)
    : result (list node) :=
  match n with
  | O => Ok temp
  | S i =>
      if i <? count_forest tag temp then tag_loop tag i (act_forest tag i temp)
      else Throw (TypeError "el is undefined")
  end.

Definition tag_round (tag : jsstring) (temp : list node) : result (list node) :=
  tag_loop tag (count_forest tag temp) temp.

Fixpoint forEach_tags (tags : list jsstring) (temp : list node)
    : result (list node) :=
  match tags with
  | [] => Ok temp
  | tag :: rest => temp' <- tag_round tag temp ;; forEach_tags rest temp'
  end.

Fixpoint textContent (n : node) : jsstring :=
  match n with
  | Text d => d
  | Comment _ => []
  | Element _ cs => flat_map textContent cs
  end.

Definition blockElements : list jsstring :=
  [js "p"; js "div"; js "br"; js "li"; js "tr"].

(** [a || b] on strings. *)
Definition or_string (a b : jsstring) : jsstring :=
  if truthy a then a else b.

Section Browser.

Variable parseFragment : jsstring -> list node.

(** [temp] is never attached to the document, so its [innerText] is its
    [textContent]. *)
Definition htmlToPlainText (html : jsstring) : result jsstring :=
  temp <- forEach_tags blockElements (parseFragment html) ;;
  Ok (or_string (flat_map textContent temp)
        (or_string (flat_map textContent temp) [])).

End Browser.

(** ** suggestContent

    The asynchronous function is a computation over the world it can
    touch: the requests sent to the provider and the console.  It yields
    the value the promise is fulfilled with, or the error it is rejected
    with. *)

Record request : Type := { req_model : jsstring; req_contents : jsstring }.

Record world : Type := {
  net_requests : list request;
  console_errors : list (jsstring * js_error)
}.

Definition io (A : Type) : Type := world -> (A + js_error) * world.

Definition ret {A : Type} (a : A) : io A := fun w => (inl a, w).

Definition throw {A : Type} (e : js_error) : io A := fun w => (inr e, w).

Definition io_bind {A B : Type} (m : io A) (f : A -> io B) : io B :=
  fun w =>
    match m w with
    | (inl a, w') => f a w'
    | (inr e, w') => (inr e, w')
    end.

Definition try_catch {A : Type} (m : io A) (handler : js_error -> io A) : io A :=
  fun w =>
    match m w with
    | (inl a, w') => (inl a, w')
    | (inr e, w') => handler e w'
    end.

Definition console_error (label : jsstring) (e : js_error) : io unit :=
  fun w =>
    (inl tt, {| net_requests := net_requests w;
                console_errors := console_errors w ++ [(label, e)] |}).

Definition dquote : ascii := "034".

(** The prompt template literal. *)
Definition prompt_of (currentContent instruction : jsstring) : jsstring :=
  js "
      Bạn là một trợ lý viết tin nhắn chuyên nghiệp cho tư vấn viên bảo hiểm nhân thọ tại Việt Nam.
      
      Nhiệm vụ: Viết lại hoặc cải thiện nội dung tin nhắn dưới đây theo yêu cầu: "
  ++ [dquote] ++ instruction ++ [dquote] ++ js ".
      
      Nội dung gốc (HTML):
      "
  ++ [dquote] ++ currentContent ++ [dquote] ++ js "
      
      Yêu cầu bắt buộc:
      1. Giữ nguyên các biến trong ngoặc nhọn, ví dụ {ten_khach}, {danh_xung} nếu có.
      2. Văn phong tự nhiên, chân thành, chuyên nghiệp, phù hợp với văn hóa Việt Nam.
      3. Trả về kết quả dưới dạng HTML đơn giản (sử dụng <b> để in đậm, <i> để in nghiêng, <br> để xuống dòng). KHÔNG dùng Markdown.
      4. Chỉ trả về nội dung tin nhắn mới, không bao gồm lời dẫn hay giải thích.
    ".

Section GeminiService.

(** [process.env.API_KEY], and what the provider answers to a request:
    a response whose [text] may be undefined, or a failure.  The client
    object [ai] is created when the module is loaded; creating it sends
    nothing. *)
Variable env_API_KEY : option jsstring.
Variable provider : request -> (option jsstring) + js_error.

(** [process.env.API_KEY || ''] *)
Definition apiKey : jsstring :=
  match env_API_KEY with
  | Some k => or_string k []
  | None => []
  end.

(** [ai.models.generateContent(...)]: the one place where the network is
    used. *)
Definition generateContent (rq : request) : io (option jsstring) :=
  fun w =>
    let w' := {| net_requests := net_requests w ++ [rq];
                 console_errors := console_errors w |} in
    match provider rq with
    | inl response => (inl response, w')
    | inr e => (inr e, w')
    end.

Definition suggestContent (currentContent instruction : jsstring) : io jsstring :=
  if negb (truthy apiKey) then
    throw (Error "API Key chưa được cấu hình.")
  else
    try_catch
      (let prompt := prompt_of currentContent instruction in
       io_bind
         (generateContent {| req_model := js "gemini-2.5-flash"; req_contents := prompt |})
         (fun response =>
            match response with
            | Some text => ret (or_string text currentContent)
            | None => ret currentContent
            end))
      (fun error =>
         io_bind (console_error (js "Gemini API Error:") error) (fun _ => throw error)).

End GeminiService.

(** ** Reference definitions

    The notions the properties below are stated with. *)

(** [hay] contains the text [needle]. *)
Definition contains (needle hay : jsstring) : Prop :=
  exists pre post, hay = pre ++ needle ++ post.

(** Removal of duplicates that keeps the first occurrence of each element. *)
Fixpoint dedup_seen (seen l : list jsstring) : list jsstring :=
  match l with
  | [] => []
  | x :: t =>
      if existsb (jseqb x) seen then dedup_seen seen t
      else x :: dedup_seen (x :: seen) t
  end.

Definition dedup_first (l : list jsstring) : list jsstring := dedup_seen [] l.


(** The names of all the [{...}] matches of a text, in the order of the
    text, duplicates included. *)
Definition occurrence_names (text : jsstring) : list jsstring :=
  map (slice 1 (-1)) (matched_texts (scan_all variable_regex text)).

(** The text of a value after escaping, character by character. *)
Definition escape_char (c : ascii) : jsstring :=
  if Ascii.eqb c "&" then js "&amp;"
  else if Ascii.eqb c "<" then js "&lt;"
  else if Ascii.eqb c ">" then js "&gt;"
  else [c].

Definition br_of_newline (c : ascii) : jsstring :=
  if Ascii.eqb c newline then js "<br>" else [c].

(** The test of [normalizeContent] in direct form: a [<] directly
    followed by a letter, with a [>] somewhere after it.  It recognises a
    start tag; an end tag or a comment alone does not pass it. *)
Fixpoint has_tag (s : jsstring) : bool :=
  match s with
  | [] => false
  | x :: t =>
      (Ascii.eqb x "<" &&
       match t with
       | c :: rest => is_ascii_letter c && existsb (Ascii.eqb ">") rest
       | [] => false
       end)
      || has_tag t
  end.

(** A markup tag in the words of the specification, whatever its kind: a
    start tag [<b ...>], an end tag [</b>], or a comment or declaration
    [<!...>]. *)
Definition opens_markup (t : jsstring) : bool :=
  match t with
  | c :: rest =>
      is_ascii_letter c
      || (Ascii.eqb c "/" &&
          match rest with
          | d :: _ => is_ascii_letter d
          | [] => false
          end)
      || Ascii.eqb c "!"
  | [] => false
  end.

Fixpoint markup_tag (s : jsstring) : bool :=
  match s with
  | [] => false
  | x :: t =>
      (Ascii.eqb x "<" && opens_markup t && existsb (Ascii.eqb ">") t)
      || markup_tag t
  end.

(** Characters with a meaning of their own in a pattern. *)
Definition is_syntax_char (c : ascii) : bool :=
  existsb (Ascii.eqb c) (js "\^$.*+?()[]{}|").

Definition plain_key (key : jsstring) : bool :=
  forallb (fun c => negb (is_syntax_char c)) key.

(** A value with no opening brace and no dollar sign. *)
Definition plain_value (value : jsstring) : bool :=
  forallb (fun c => negb (Ascii.eqb c "{" || Ascii.eqb c "$")) value.

Definition plain_entries (variables : VariableMap) : bool :=
  forallb (fun e => plain_key (fst e) && plain_value (snd e)) variables.

(** Every opening brace starts a [{name}] span whose name has no brace: no
    opening brace is nested or left open.  A closing brace outside a span
    is ordinary text. *)
Fixpoint well_braced_from (inside : bool) (s : jsstring) : bool :=
  match s with
  | [] => negb inside
  | c :: t =>
      if inside then
        if Ascii.eqb c "{" then false
        else if Ascii.eqb c "}" then well_braced_from false t
        else well_braced_from true t
      else
        if Ascii.eqb c "{" then well_braced_from true t
        else well_braced_from false t
  end.

Definition well_braced (s : jsstring) : bool := well_braced_from false s.

(** A well-braced text read as a sequence of ordinary characters and
    placeholders. *)
Inductive segment : Type :=
| Lit (c : ascii)
| Ph (name : jsstring).

Definition render_segment (sg : segment) : jsstring :=
  match sg with
  | Lit c => [c]
  | Ph n => braced n
  end.

Definition render (segs : list segment) : jsstring := flat_map render_segment segs.

Definition segment_ok (sg : segment) : Prop :=
  match sg with
  | Lit c => c <> "{"
  | Ph n => ~ In "{" n /\ ~ In "}" n
  end.

(** Filling the placeholder [key] with the text [w]. *)
Definition fill_segment (key w : jsstring) (sg : segment) : list segment :=
  match sg with
  | Lit c => [Lit c]
  | Ph n => if jseqb n key then map Lit w else [Ph n]
  end.

Definition fill (key w : jsstring) (segs : list segment) : list segment :=
  flat_map (fill_segment key w) segs.

(** What one round of the loop amounts to: every element named [tag] is
    replaced by a line feed when [tag] is [br], and is followed by a line
    feed otherwise. *)
Fixpoint block_pass (tag : jsstring) (n : node) : list node :=
  match n with
  | Element t cs =>
      if jseqb t tag then
        if jseqb tag (js "br") then [Text [newline]]
        else [Element t (flat_map (block_pass tag) cs); Text [newline]]
      else [Element t (flat_map (block_pass tag) cs)]
  | _ => [n]
  end.

Definition block_passes (cs : list node) : list node :=
  fold_left (fun cs tag => flat_map (block_pass tag) cs) blockElements cs.

(** The state of the tree in the middle of a round: the elements of the
    collection from number [j] on have been dealt with. *)
Fixpoint pass_node (tag : jsstring) (j : nat) (n : node) : list node :=
  match n with
  | Element t cs =>
      let inside :=
        fix go (j : nat) (cs : list node) : list node :=
          match cs with
          | [] => []
          | c :: rest => pass_node tag j c ++ go (j - count_tag tag c) rest
          end in
      if jseqb t tag then
        match j with
        | O =>
            if jseqb tag (js "br") then [Text [newline]]
            else [Element t (inside 0 cs); Text [newline]]
        | S j' => [Element t (inside j' cs)]
        end
      else [Element t (inside j cs)]
  | _ => [n]
  end.

Fixpoint pass_forest (tag : jsstring) (j : nat) (cs : list node) : list node :=
  match cs with
  | [] => []
  | c :: rest => pass_node tag j c ++ pass_forest tag (j - count_tag tag c) rest
  end.

(** The plain-text projection in the words of the specification: text in
    document order, a line break is one line feed, and a paragraph,
    division, list item or row is followed by one line feed. *)
Definition is_block (t : jsstring) : bool :=
  existsb (jseqb t) [js "p"; js "div"; js "li"; js "tr"].

Fixpoint plain_projection (n : node) : jsstring :=
  match n with
  | Text d => d
  | Comment _ => []
  | Element t cs =>
      if jseqb t (js "br") then [newline]
      else flat_map plain_projection cs ++ (if is_block t then [newline] else [])
  end.

(** [strip_prefix p s] is the rest of [s] after its prefix [p], if [p] is
    a prefix of [s]. *)
Fixpoint strip_prefix (p s : jsstring) : option jsstring :=
  match p with
  | [] => Some s
  | a :: p' =>
      match s with
      | x :: s' => if Ascii.eqb x a then strip_prefix p' s' else None
      | [] => None
      end
  end.

(** The longest run of characters other than a closing brace at the head
    of a text, and what follows it. *)
Fixpoint take_name (s : jsstring) : jsstring :=
  match s with
  | x :: t => if not_close_brace x then x :: take_name t else []
  | [] => []
  end.

Fixpoint drop_name (s : jsstring) : jsstring :=
  match s with
  | x :: t => if not_close_brace x then drop_name t else s
  | [] => []
  end.

(** A replacement string without a dollar sign. *)
Definition dollar_free (t : jsstring) : bool :=
  forallb (fun c => negb (Ascii.eqb c "$")) t.

(** The state of the parser after a run of pattern characters at top
    level. *)
Definition plain_state (items : list item) : pstate :=
  {| p_mode := MNormal; p_cur := {| f_alts := []; f_cur := items |};
     p_stack := []; p_groups := 0 |}.

(** What one entry of the map does to a well-braced text: a key with a
    non-empty value is filled with the escaped value, a key with an empty
    value is put back as it was. *)
Definition fill_entry (segs : list segment) (e : jsstring * jsstring) : list segment :=
  if truthy (snd e) then fill (fst e) (escape_value (snd e)) segs else segs.

Definition fill_all (segs : list segment) (variables : VariableMap) : list segment :=
  fold_left fill_entry variables segs.

Definition is_match (r : mresult) : bool :=
  match r with
  | Some _ => true
  | None => false
  end.

(** The pattern that matches the text [p] and nothing else, and the
    replacement of the matches of [R] in [s], the rest of a text of length
    [total] whose part before [s] is [rb] reversed. *)
Definition literal_pattern (p : jsstring) : regex := mkseq (map RChar p).

Definition replace_from (R : RegExp) (w : jsstring) (total : nat)
    (rb s : jsstring) : jsstring :=
  flat_map (substitute_piece R w) (scan (re_pattern R) total 0 rb s).

(** The value that fills a placeholder: the first entry of the map with
    that key and a non-empty value. *)
Fixpoint first_filled (values : VariableMap) (name : jsstring) : option jsstring :=
  match values with
  | [] => None
  | e :: rest =>
      if jseqb (fst e) name && truthy (snd e) then Some (snd e)
      else first_filled rest name
  end.

(** Substitution of all the placeholders at once. *)
Definition substitute_segment (values : VariableMap) (sg : segment) : list segment :=
  match sg with
  | Lit c => [Lit c]
  | Ph n =>
      match first_filled values n with
      | Some v => map Lit (escape_value v)
      | None => [Ph n]
      end
  end.


(** [s.replace(new RegExp(source, 'g'), replacement)] *)
Definition replace_with_source (source replacement s : jsstring) : result jsstring :=
  R <- RegExp_new source ;; Ok (String_replace_g R replacement s).

(** The names of the placeholders of a well-braced text that the pattern
    of [extractVariables] matches: the non-empty ones. *)
Definition placeholder_names (segs : list segment) : list jsstring :=
  flat_map (fun sg => match sg with
                      | Ph (c :: n) => [c :: n]
                      | _ => []
                      end) segs.

(** No entry of the map gives [name] a non-empty value. *)
Definition unfilled (values : VariableMap) (name : jsstring) : bool :=
  match first_filled values name with
  | Some _ => false
  | None => true
  end.

(** What the conversion of line feeds does to a segment whose name has no
    line feed. *)
Definition br_segment (sg : segment) : list segment :=
  match sg with
  | Lit c => map Lit (br_of_newline c)
  | Ph n => [Ph n]
  end.

(** * The application around the engine *)

(** ** Objects used as maps

    [variableValues] is an ordinary object.  [Object.entries] lists its own
    properties with the array indices first, in ascending numeric order,
    and the other keys after them in the order of their creation; the list
    of entries is kept in that order. *)

Definition decimal_value (k : jsstring) : N :=
  fold_left (fun acc c => (10 * acc + N.of_nat (digit_value c))%N) k 0%N.

(** An array index is the canonical decimal text of an integer from 0 to
    2^32 - 2: digits only, no leading zero. *)
Definition array_index (k : jsstring) : option N :=
  match k with
  | [] => None
  | c :: rest =>
      if forallb is_digit k && (negb (Ascii.eqb c "0") || negb (truthy rest))
         && (decimal_value k <? 4294967295)%N
      then Some (decimal_value k)
      else None
  end.

Definition has_key (o : VariableMap) (k : jsstring) : bool :=
  existsb (fun e => jseqb (fst e) k) o.

Fixpoint insert_index (i : N) (k v : jsstring) (o : VariableMap) : VariableMap :=
  match o with
  | [] => [(k, v)]
  | e :: rest =>
      match array_index (fst e) with
      | Some j => if (i <? j)%N then (k, v) :: o else e :: insert_index i k v rest
      | None => (k, v) :: o
      end
  end.

(** [CreateDataProperty]: the value of an existing key is replaced where it
    is, a new key is created. *)
Definition define_property (o : VariableMap) (k v : jsstring) : VariableMap :=
  if has_key o k then map (fun e => if jseqb (fst e) k then (k, v) else e) o
  else
    match array_index k with
    | Some i => insert_index i k v o
    | None => o ++ [(k, v)]
    end.

(** [o[k] = v] with a string [v] on an object whose prototype is
    [Object.prototype]: the key [__proto__] reaches the setter of the
    prototype, which ignores a string; any other key becomes an own
    property. *)
Definition assign_property (o : VariableMap) (k v : jsstring) : VariableMap :=
  if jseqb k (js "__proto__") then o else define_property o k v.

(** [vars.forEach(v => initialMap[v] = '')] on [initialMap = {}]. *)
Definition initial_map (vars : list jsstring) : VariableMap :=
  fold_left (fun initialMap v => assign_property initialMap v []) vars [].

(** [{ ...prev, [v]: value }]: the copy of [prev] lists the entries in the
    same order, and the computed key is defined on the copy. *)
Definition set_variable (prev : VariableMap) (v value : jsstring) : VariableMap :=
  define_property prev v value.

(** ** Templates (types.ts, constants.ts) *)

Inductive Category : Type :=
| ALL | PAYMENT | BIRTHDAY | CONSULTING | CARE | CONTRACT.

Definition Category_eqb (a b : Category) : bool :=
  match a, b with
  | ALL, ALL | PAYMENT, PAYMENT | BIRTHDAY, BIRTHDAY
  | CONSULTING, CONSULTING | CARE, CARE | CONTRACT, CONTRACT => true
  | _, _ => false
  end.

Record Template : Type := {
  t_id : jsstring;
  t_title : jsstring;
  t_content : jsstring;
  t_category : Category;
  t_lastUsed : Z
}.

(** [Partial<Template>]: every property may be missing. *)
Record PartialTemplate : Type := {
  e_id : option jsstring;
  e_title : option jsstring;
  e_content : option jsstring;
  e_category : option Category;
  e_lastUsed : option Z
}.

(** [INITIAL_TEMPLATES]; the three readings of [Date.now()] are taken when
    the module is loaded. *)
Definition INITIAL_TEMPLATES (now1 now2 now3 : Z) : list Template :=
  [ {| t_id := js "1";
       t_title := js "Nhắc đóng phí định kỳ";
       t_content := js "Chào <b>{danh_xung} {ten_khach}</b>, chúc {danh_xung} một ngày tốt lành! ☀️<br><br>Em xin phép nhắc nhẹ {danh_xung} về kỳ phí bảo hiểm sắp đến hạn vào ngày <b>{ngay_dong_phi}</b> cho hợp đồng số <b>{ma_hop_dong}</b>.<br><br>Để đảm bảo quyền lợi bảo vệ liên tục, {danh_xung} nhớ đóng phí đúng hạn nhé. Cần hỗ trợ gì cứ nhắn em ạ!";
       t_category := PAYMENT;
       t_lastUsed := now1 |};
    {| t_id := js "2";
       t_title := js "Chúc mừng sinh nhật";
       t_content := js "🎉 Chúc mừng sinh nhật <b>{danh_xung} {ten_khach}</b>!<br><br>Chúc {danh_xung} tuổi mới thật nhiều sức khỏe, hạnh phúc và thành công. Cảm ơn {danh_xung} đã tin tưởng đồng hành cùng em trong suốt thời gian qua. 🎂🎁";
       t_category := BIRTHDAY;
       t_lastUsed := (now2 - 10000)%Z |};
    {| t_id := js "3";
       t_title := js "Hẹn gặp tư vấn lại";
       t_content := js "Chào <b>{danh_xung} {ten_khach}</b>,<br><br>Dạo này công việc của {danh_xung} thế nào ạ? Em thấy gần đây công ty có ra mắt quyền lợi bổ sung mới rất hay về chăm sóc sức khỏe.<br><br>Nếu {danh_xung} rảnh vào <i>{thoi_gian_hen}</i>, em ghé qua cập nhật thông tin nhanh cho mình nhé?";
       t_category := CONSULTING;
       t_lastUsed := (now3 - 20000)%Z |} ].

(** ** The browser

    What the services and the handlers can touch besides the state of the
    component: the network and the console ([world]), [localStorage], the
    clipboard and the alert boxes shown. *)

Record browser : Type := {
  b_world : world;
  b_storage : jsstring -> option jsstring;
  b_clipboard : list (jsstring * jsstring);
  b_alerts : list jsstring
}.

Definition act (A : Type) : Type := browser -> (A + js_error) * browser.

Definition act_ret {A : Type} (a : A) : act A := fun b => (inl a, b).

Definition act_throw {A : Type} (e : js_error) : act A := fun b => (inr e, b).

Definition act_bind {A B : Type} (m : act A) (f : A -> act B) : act B :=
  fun b =>
    match m b with
    | (inl a, b') => f a b'
    | (inr e, b') => (inr e, b')
    end.

Definition act_try {A : Type} (m : act A) (handler : js_error -> act A) : act A :=
  fun b =>
    match m b with
    | (inl a, b') => (inl a, b')
    | (inr e, b') => handler e b'
    end.

Definition with_world (w : world) (b : browser) : browser :=
  {| b_world := w; b_storage := b_storage b;
     b_clipboard := b_clipboard b; b_alerts := b_alerts b |}.

(** A computation on the network and the console, run in the browser. *)
Definition lift_io {A : Type} (m : io A) : act A :=
  fun b => let (r, w) := m (b_world b) in (r, with_world w b).

Definition alert (message : jsstring) : act unit :=
  fun b =>
    (inl tt, {| b_world := b_world b; b_storage := b_storage b;
                b_clipboard := b_clipboard b;
                b_alerts := b_alerts b ++ [message] |}).

(** ** storageService.ts *)

Definition STORAGE_KEY : jsstring := js "insurechat_templates_v1".

(** What [JSON.parse] returns: a list of templates, or some other value. *)
Inductive parsed : Type :=
| ParsedTemplates (ts : list Template)
| ParsedOther.

Section StorageService.

(** The parameters of the model: whether the browser lets the page use
    [localStorage] at all ([storage_denied] is the exception it throws
    otherwise), whether it refuses to store a value under a key, the two
    JSON functions, and the three readings of the clock in
    [INITIAL_TEMPLATES]. *)
Variable storage_denied : option js_error.
Variable setItem_refused : jsstring -> jsstring -> option js_error.
Variable JSON_parse : jsstring -> parsed + js_error.
Variable JSON_stringify : list Template -> jsstring.
Variable now1 now2 now3 : Z.

Definition localStorage_getItem (key : jsstring) : act (option jsstring) :=
  fun b =>
    match storage_denied with
    | Some e => (inr e, b)
    | None => (inl (b_storage b key), b)
    end.

Definition localStorage_setItem (key value : jsstring) : act unit :=
  fun b =>
    match storage_denied with
    | Some e => (inr e, b)
    | None =>
        match setItem_refused key value with
        | Some e => (inr e, b)
        | None =>
            (inl tt,
             {| b_world := b_world b;
                b_storage := fun k => if jseqb k key then Some value else b_storage b k;
                b_clipboard := b_clipboard b; b_alerts := b_alerts b |})
        end
    end.

Definition getTemplates : act parsed :=
  act_try
    (act_bind (localStorage_getItem STORAGE_KEY) (fun data =>
       match data with
       | Some (c :: d) =>
           match JSON_parse (c :: d) with
           | inl v => act_ret v
           | inr e => act_throw e
           end
       | _ => act_ret (ParsedTemplates (INITIAL_TEMPLATES now1 now2 now3))
       end))
    (fun error =>
       act_bind (lift_io (console_error (js "Failed to load templates") error))
         (fun _ => act_ret (ParsedTemplates (INITIAL_TEMPLATES now1 now2 now3)))).

Definition saveTemplates (templates : list Template) : act unit :=
  act_try
    (localStorage_setItem STORAGE_KEY (JSON_stringify templates))
    (fun error => lift_io (console_error (js "Failed to save templates") error)).

End StorageService.
(** ** The state of the component (App.tsx) *)

Record AppState : Type := {
  templates : list Template;
  selectedTemplateId : option jsstring;
  searchQuery : jsstring;
  selectedCategory : Category;
  isEditing : bool;
  editForm : PartialTemplate;
  variableValues : VariableMap;
  sidebarOpen : bool;
  isCopied : bool;
  isGeneratingAI : bool;
  aiPrompt : jsstring;
  showAiModal : bool
}.

(** The setters of [useState]; [setTemplates] and [setEditForm] take the
    function applied to the previous value. *)
Definition setTemplates (f : list Template -> list Template) (st : AppState) : AppState :=
  {| templates := f (templates st); selectedTemplateId := selectedTemplateId st;
     searchQuery := searchQuery st; selectedCategory := selectedCategory st;
     isEditing := isEditing st; editForm := editForm st;
     variableValues := variableValues st; sidebarOpen := sidebarOpen st;
     isCopied := isCopied st; isGeneratingAI := isGeneratingAI st;
     aiPrompt := aiPrompt st; showAiModal := showAiModal st |}.

Definition setSelectedTemplateId (v : option jsstring) (st : AppState) : AppState :=
  {| templates := templates st; selectedTemplateId := v;
     searchQuery := searchQuery st; selectedCategory := selectedCategory st;
     isEditing := isEditing st; editForm := editForm st;
     variableValues := variableValues st; sidebarOpen := sidebarOpen st;
     isCopied := isCopied st; isGeneratingAI := isGeneratingAI st;
     aiPrompt := aiPrompt st; showAiModal := showAiModal st |}.

Definition setIsEditing (v : bool) (st : AppState) : AppState :=
  {| templates := templates st; selectedTemplateId := selectedTemplateId st;
     searchQuery := searchQuery st; selectedCategory := selectedCategory st;
     isEditing := v; editForm := editForm st;
     variableValues := variableValues st; sidebarOpen := sidebarOpen st;
     isCopied := isCopied st; isGeneratingAI := isGeneratingAI st;
     aiPrompt := aiPrompt st; showAiModal := showAiModal st |}.

Definition setEditForm (f : PartialTemplate -> PartialTemplate) (st : AppState) : AppState :=
  {| templates := templates st; selectedTemplateId := selectedTemplateId st;
     searchQuery := searchQuery st; selectedCategory := selectedCategory st;
     isEditing := isEditing st; editForm := f (editForm st);
     variableValues := variableValues st; sidebarOpen := sidebarOpen st;
     isCopied := isCopied st; isGeneratingAI := isGeneratingAI st;
     aiPrompt := aiPrompt st; showAiModal := showAiModal st |}.

Definition setVariableValues (f : VariableMap -> VariableMap) (st : AppState) : AppState :=
  {| templates := templates st; selectedTemplateId := selectedTemplateId st;
     searchQuery := searchQuery st; selectedCategory := selectedCategory st;
     isEditing := isEditing st; editForm := editForm st;
     variableValues := f (variableValues st); sidebarOpen := sidebarOpen st;
     isCopied := isCopied st; isGeneratingAI := isGeneratingAI st;
     aiPrompt := aiPrompt st; showAiModal := showAiModal st |}.

Definition setSidebarOpen (v : bool) (st : AppState) : AppState :=
  {| templates := templates st; selectedTemplateId := selectedTemplateId st;
     searchQuery := searchQuery st; selectedCategory := selectedCategory st;
     isEditing := isEditing st; editForm := editForm st;
     variableValues := variableValues st; sidebarOpen := v;
     isCopied := isCopied st; isGeneratingAI := isGeneratingAI st;
     aiPrompt := aiPrompt st; showAiModal := showAiModal st |}.

Definition setIsCopied (v : bool) (st : AppState) : AppState :=
  {| templates := templates st; selectedTemplateId := selectedTemplateId st;
     searchQuery := searchQuery st; selectedCategory := selectedCategory st;
     isEditing := isEditing st; editForm := editForm st;
     variableValues := variableValues st; sidebarOpen := sidebarOpen st;
     isCopied := v; isGeneratingAI := isGeneratingAI st;
     aiPrompt := aiPrompt st; showAiModal := showAiModal st |}.

Definition setIsGeneratingAI (v : bool) (st : AppState) : AppState :=
  {| templates := templates st; selectedTemplateId := selectedTemplateId st;
     searchQuery := searchQuery st; selectedCategory := selectedCategory st;
     isEditing := isEditing st; editForm := editForm st;
     variableValues := variableValues st; sidebarOpen := sidebarOpen st;
     isCopied := isCopied st; isGeneratingAI := v;
     aiPrompt := aiPrompt st; showAiModal := showAiModal st |}.

Definition setAiPrompt (v : jsstring) (st : AppState) : AppState :=
  {| templates := templates st; selectedTemplateId := selectedTemplateId st;
     searchQuery := searchQuery st; selectedCategory := selectedCategory st;
     isEditing := isEditing st; editForm := editForm st;
     variableValues := variableValues st; sidebarOpen := sidebarOpen st;
     isCopied := isCopied st; isGeneratingAI := isGeneratingAI st;
     aiPrompt := v; showAiModal := showAiModal st |}.

Definition setShowAiModal (v : bool) (st : AppState) : AppState :=
  {| templates := templates st; selectedTemplateId := selectedTemplateId st;
     searchQuery := searchQuery st; selectedCategory := selectedCategory st;
     isEditing := isEditing st; editForm := editForm st;
     variableValues := variableValues st; sidebarOpen := sidebarOpen st;
     isCopied := isCopied st; isGeneratingAI := isGeneratingAI st;
     aiPrompt := aiPrompt st; showAiModal := v |}.

(** [templates.find(t => t.id === selectedTemplateId)]: no identifier is
    strictly equal to [null]. *)
Definition activeTemplate (st : AppState) : option Template :=
  match selectedTemplateId st with
  | Some sid => find (fun t => jseqb (t_id t) sid) (templates st)
  | None => None
  end.

(** [{ ...t }] as a partial template. *)
Definition spread (t : Template) : PartialTemplate :=
  {| e_id := Some (t_id t); e_title := Some (t_title t);
     e_content := Some (t_content t); e_category := Some (t_category t);
     e_lastUsed := Some (t_lastUsed t) |}.

Definition field {A : Type} (o : option A) (d : A) : A :=
  match o with
  | Some a => a
  | None => d
  end.

(** [{ ...t, ...editForm } as Template]: the properties of the form take
    the place of those of [t]. *)
Definition merge (t : Template) (form : PartialTemplate) : Template :=
  {| t_id := field (e_id form) (t_id t);
     t_title := field (e_title form) (t_title t);
     t_content := field (e_content form) (t_content t);
     t_category := field (e_category form) (t_category t);
     t_lastUsed := field (e_lastUsed form) (t_lastUsed t) |}.

(** [x as Template] gives a template when no property is missing. *)
Definition as_Template (form : PartialTemplate) : option Template :=
  match e_id form, e_title form, e_content form, e_category form, e_lastUsed form with
  | Some i, Some t, Some c, Some g, Some u =>
      Some {| t_id := i; t_title := t; t_content := c; t_category := g; t_lastUsed := u |}
  | _, _, _, _, _ => None
  end.

(** A string property that is present and not empty. *)
Definition truthy_field (o : option jsstring) : bool :=
  match o with
  | Some s => truthy s
  | None => false
  end.

(** [x === form.id] for a string [x]. *)
Definition is_form_id (form : PartialTemplate) (x : jsstring) : bool :=
  match e_id form with
  | Some i => jseqb x i
  | None => false
  end.

(** [generateId()] and [Date.now()] give what the environment gives: they
    are arguments of the handlers that call them. *)
Definition handleCreateNew (generateId : jsstring) (Date_now : Z) (st : AppState)
    : AppState :=
  let newTemplate :=
    {| t_id := generateId;
       t_title := js "Mẫu tin nhắn mới";
       t_content := js "Chào <b>{danh_xung} {ten}</b>,<br>...";
       t_category := CONSULTING;
       t_lastUsed := Date_now |} in
  setSidebarOpen false
    (setIsEditing true
       (setSelectedTemplateId None
          (setEditForm (fun _ => spread newTemplate) st))).

Definition handleEditStart (st : AppState) : AppState :=
  match activeTemplate st with
  | Some a => setIsEditing true (setEditForm (fun _ => spread a) st)
  | None => st
  end.

(** [handleSave].  In the branch that creates a template the object
    [{ ...editForm, id, lastUsed }] is taken for a template without a
    check; a form without a category is outside the model
    ([Unsupported]). *)
Definition handleSave (generateId : jsstring) (Date_now : Z) (st : AppState)
    : result AppState :=
  let form := editForm st in
  if negb (truthy_field (e_title form)) || negb (truthy_field (e_content form))
  then Ok st
  else
    if match activeTemplate st with
       | Some a => is_form_id form (t_id a)
       | None => false
       end
    then
      Ok (setIsEditing false
            (setTemplates
               (map (fun t => if is_form_id form (t_id t) then merge t form else t))
               st))
    else
      match as_Template {| e_id := Some generateId; e_title := e_title form;
                           e_content := e_content form;
                           e_category := e_category form;
                           e_lastUsed := Some Date_now |} with
      | Some newT =>
          Ok (setIsEditing false
                (setSelectedTemplateId (Some (t_id newT))
                   (setTemplates (cons newT) st)))
      | None => Unsupported
      end.

(** [t.id !== activeTemplate?.id] *)
Definition is_active_id (st : AppState) (t : Template) : bool :=
  match activeTemplate st with
  | Some a => jseqb (t_id t) (t_id a)
  | None => false
  end.

(** [handleDelete]; [confirmed] is the answer to the [confirm] box. *)
Definition handleDelete (confirmed : bool) (st : AppState) : AppState :=
  if confirmed then
    setSidebarOpen true
      (setSelectedTemplateId None
         (setTemplates (filter (fun t => negb (is_active_id st t))) st))
  else st.

Definition handleBackToList (st : AppState) : AppState :=
  setIsEditing false (setSelectedTemplateId None (setSidebarOpen true st)).

(** The effect that follows a change of the active template. *)
Definition reset_variables (innerWidth : Z) (st : AppState) : AppState :=
  match activeTemplate st with
  | Some a =>
      let vars := extractVariables (t_content a) in
      let st' := setIsCopied false (setVariableValues (fun _ => initial_map vars) st) in
      if (innerWidth <? 768)%Z then setSidebarOpen false st' else st'
  | None => st
  end.

(** [s.includes(needle)] *)
Fixpoint includes (needle s : jsstring) : bool :=
  match strip_prefix needle s with
  | Some _ => true
  | None =>
      match s with
      | [] => false
      | _ :: t => includes needle t
      end
  end.

(** [s.trim()]: white space and line terminators are removed at both
    ends.  A character outside ASCII stands in a text as the bytes of its
    UTF-8 encoding, as in the literals of this file.  The white space of
    the language is the tab, the vertical tab, the form feed, the space,
    the no-break space U+00A0, U+1680, U+2000 to U+200A, U+202F, U+205F,
    U+3000 and the byte order mark U+FEFF; the line terminators are the
    line feed, the carriage return, U+2028 and U+2029. *)
Definition white_space : list jsstring :=
  map (map ascii_of_nat)
    [ [9]; [10]; [11]; [12]; [13]; [32];
      [194; 160];
      [225; 154; 128];
      [226; 128; 128]; [226; 128; 129]; [226; 128; 130]; [226; 128; 131];
      [226; 128; 132]; [226; 128; 133]; [226; 128; 134]; [226; 128; 135];
      [226; 128; 136]; [226; 128; 137]; [226; 128; 138];
      [226; 128; 168]; [226; 128; 169]; [226; 128; 175];
      [226; 129; 159];
      [227; 128; 128];
      [239; 187; 191] ].

Definition is_white_space (w : jsstring) : bool :=
  existsb (jseqb w) white_space.

(** The text after the white space at its head: an encoding takes one,
    two or three bytes. *)
Fixpoint trim_start (s : jsstring) : jsstring :=
  match s with
  | c1 :: t1 =>
      if is_white_space [c1] then trim_start t1
      else
        match t1 with
        | c2 :: t2 =>
            if is_white_space [c1; c2] then trim_start t2
            else
              match t2 with
              | c3 :: t3 =>
                  if is_white_space [c1; c2; c3] then trim_start t3 else s
              | [] => s
              end
        | [] => s
        end
  | [] => []
  end.

(** The text before the white space at its end: it stops where all that
    follows is white space. *)
Fixpoint trim_end (s : jsstring) : jsstring :=
  match s with
  | c :: t =>
      match trim_start s with
      | [] => []
      | _ :: _ => c :: trim_end t
      end
  | [] => []
  end.

Definition String_trim (s : jsstring) : jsstring :=
  trim_end (trim_start s).

(** [(error as Error).message] *)
Definition message (e : js_error) : jsstring :=
  match e with
  | SyntaxError m | TypeError m | Error m => js m
  end.

(** [prev.map(t => t.id === id ? { ...t, lastUsed: Date.now() } : t)];
    [clock n] is the reading of [Date.now()] number [n]. *)
Fixpoint touch (clock : nat -> Z) (n : nat) (id : jsstring) (l : list Template)
    : list Template :=
  match l with
  | [] => []
  | t :: rest =>
      if jseqb (t_id t) id then
        {| t_id := t_id t; t_title := t_title t; t_content := t_content t;
           t_category := t_category t; t_lastUsed := clock n |}
        :: touch clock (S n) id rest
      else t :: touch clock n id rest
  end.

Definition with_clipboard (items : list (jsstring * jsstring)) (b : browser) : browser :=
  {| b_world := b_world b; b_storage := b_storage b;
     b_clipboard := items; b_alerts := b_alerts b |}.

Section App.

Variable parseFragment : jsstring -> list node.
Variable toLowerCase : jsstring -> jsstring.
Variable env_API_KEY : option jsstring.
Variable provider : request -> (option jsstring) + js_error.

(** Whether the browser refuses the two ways of writing to the clipboard
    (building the [ClipboardItem] included), and with what exception. *)
Variable clipboard_write_fails : jsstring -> jsstring -> option js_error.
Variable clipboard_writeText_fails : jsstring -> option js_error.

(** The callback of [templates.filter]. *)
Definition matches (st : AppState) (t : Template) : result bool :=
  plain <- htmlToPlainText parseFragment (t_content t) ;;
  let plainContent := toLowerCase plain in
  let matchesSearch :=
    includes (toLowerCase (searchQuery st)) (toLowerCase (t_title t))
    || includes (toLowerCase (searchQuery st)) plainContent in
  let matchesCategory :=
    Category_eqb (selectedCategory st) ALL
    || Category_eqb (t_category t) (selectedCategory st) in
  Ok (matchesSearch && matchesCategory).

Fixpoint Array_filter (f : Template -> result bool) (l : list Template)
    : result (list Template) :=
  match l with
  | [] => Ok []
  | t :: rest =>
      keep <- f t ;;
      rest' <- Array_filter f rest ;;
      Ok (if keep then t :: rest' else rest')
  end.

Definition filteredTemplates (st : AppState) : result (list Template) :=
  Array_filter (matches st) (templates st).

(** [handleCopy].  The two texts are computed before the [try]; an
    exception there rejects the promise and nothing has been done.  The
    timer that clears [isCopied] two seconds later is a later event. *)
Definition handleCopy (clock : nat -> Z) (st : AppState) (b : browser)
    : result (AppState * browser) :=
  match activeTemplate st with
  | None => Ok (st, b)
  | Some a =>
      finalHtml <- replaceVariables (t_content a) (variableValues st) ;;
      finalPlainText <- htmlToPlainText parseFragment finalHtml ;;
      match clipboard_write_fails finalHtml finalPlainText with
      | None =>
          Ok (setTemplates (touch clock 0 (t_id a)) (setIsCopied true st),
              with_clipboard [(js "text/html", finalHtml);
                              (js "text/plain", finalPlainText)] b)
      | Some err =>
          let b1 := with_world (snd (console_error (js "Failed to copy") err (b_world b))) b in
          match clipboard_writeText_fails finalPlainText with
          | None =>
              Ok (setIsCopied true st,
                  with_clipboard [(js "text/plain", finalPlainText)] b1)
          | Some _ =>
              Ok (st, snd (alert (js "Không thể copy. Vui lòng thử lại.") b1))
          end
      end
  end.

(** [handleAiSuggestion], run without another event in between. *)
Definition handleAiSuggestion (st : AppState) (b : browser) : AppState * browser :=
  if negb (truthy (String_trim (aiPrompt st)))
     || negb (truthy_field (e_content (editForm st)))
  then (st, b)
  else
    let st1 := setIsGeneratingAI true st in
    match suggestContent env_API_KEY provider
            (field (e_content (editForm st)) []) (aiPrompt st) (b_world b) with
    | (inl newContent, w) =>
        (setIsGeneratingAI false
           (setAiPrompt []
              (setShowAiModal false
                 (setEditForm
                    (fun prev =>
                       {| e_id := e_id prev; e_title := e_title prev;
                          e_content := Some newContent;
                          e_category := e_category prev;
                          e_lastUsed := e_lastUsed prev |}) st1))),
         with_world w b)
    | (inr error, w) =>
        (setIsGeneratingAI false st1,
         snd (alert (js "Lỗi khi gọi AI: " ++ message error) (with_world w b)))
    end.

End App.

Section Effects.

Variable storage_denied : option js_error.
Variable setItem_refused : jsstring -> jsstring -> option js_error.
Variable JSON_parse : jsstring -> parsed + js_error.
Variable JSON_stringify : list Template -> jsstring.
Variable now1 now2 now3 : Z.

(** The effect run once when the component is mounted.  A stored value
    that is not a list of templates is outside the model. *)
Definition load_effect (st : AppState) (b : browser) : result (AppState * browser) :=
  match getTemplates storage_denied JSON_parse now1 now2 now3 b with
  | (inl (ParsedTemplates loaded), b') =>
      let normalized :=
        map (fun t => {| t_id := t_id t; t_title := t_title t;
                         t_content := normalizeContent (t_content t);
                         t_category := t_category t;
                         t_lastUsed := t_lastUsed t |}) loaded in
      Ok (setTemplates (fun _ => normalized) st, b')
  | (inl ParsedOther, _) => Unsupported
  | (inr e, _) => Throw e
  end.

(** The effect run after a change of [templates]. *)
Definition save_effect (st : AppState) (b : browser) : (unit + js_error) * browser :=
  if 0 <? length (templates st) then
    saveTemplates storage_denied setItem_refused JSON_stringify (templates st) b
  else (inl tt, b).

End Effects.

(** ** A state and a browser to run the handlers on *)

Definition sample_template : Template :=
  {| t_id := js "1"; t_title := js "Greeting"; t_content := js "Dear {ten}, <b>hello</b>";
     t_category := CARE; t_lastUsed := 5 |}.

Definition sample_state : AppState :=
  {| templates := [sample_template];
     selectedTemplateId := Some (js "1");
     searchQuery := [];
     selectedCategory := ALL;
     isEditing := true;
     editForm := spread sample_template;
     variableValues := [(js "ten", [])];
     sidebarOpen := false;
     isCopied := false;
     isGeneratingAI := false;
     aiPrompt := js "shorter";
     showAiModal := true |}.

Definition sample_browser : browser :=
  {| b_world := {| net_requests := []; console_errors := [] |};
     b_storage := fun _ => None;
     b_clipboard := [];
     b_alerts := [] |}.

(** A template without the time of its last use. *)
Definition without_lastUsed (t : Template) : jsstring * jsstring * jsstring * Category :=
  (t_id t, t_title t, t_content t, t_category t).

(** Simplification of the projections of the browser. *)
Ltac browser_simpl :=
  cbn [b_storage b_clipboard b_alerts b_world fst snd with_world with_clipboard
       lift_io alert console_error net_requests console_errors act_bind act_ret
       act_throw act_try].

(** * Properties *)

(** ** The matcher on the examples of the language specification

    Backtracking into a group, captures cleared at each round of a
    quantifier, empty matches of a global pattern, lazy quantifiers, and
    the replacement patterns. *)

Example regexp_examples :
  replace_with_source (js "(a|ab)(c|bcd)(d*)") (js "[$1,$2,$3]") (js "abcd")
  = Ok (js "[a,bcd,]")
  /\ replace_with_source (js "(z)((a+)?(b+)?(c))*") (js "[$1,$2,$3,$4,$5]")
       (js "zaacbbbcac")
     = Ok (js "[z,ac,a,,c]")
  /\ replace_with_source (js "a*") (js "x") (js "baaa") = Ok (js "xbxx")
  /\ replace_with_source (js "a*?") (js "x") (js "aaa") = Ok (js "xaxaxax")
  /\ replace_with_source (js "(a)") (js "$11|$01|$10|$$|$&") (js "a")
     = Ok (js "a1|a|a0|$|a")
  /\ replace_with_source (js "a**") (js "x") (js "a")
     = Throw (SyntaxError "Nothing to repeat").
Proof. repeat split; vm_compute; reflexivity. Qed.

(** ** The scan of a global regular expression *)

Lemma scan_skip (r : regex) (total : nat) (q : jsstring) :
  forall rb t, scan r total (length q) rb (q ++ t) = scan r total 0 (rev q ++ rb) t.
Proof.
  induction q as [|x q IH]; intros rb t; simpl.
  - destruct t; reflexivity.
  - rewrite IH. rewrite <- app_assoc. reflexivity.
Qed.

Lemma scan_miss (r : regex) (total : nat) (rb : jsstring) (x : ascii) (t : jsstring) :
  match_here total r (x :: t) = None ->
  scan r total 0 rb (x :: t) = Keep x :: scan r total 0 (x :: rb) t.
Proof. intros H. simpl. rewrite H. reflexivity. Qed.

Lemma scan_hit (r : regex) (total : nat) (rb q t : jsstring) (caps : captures) :
  q <> [] ->
  match_here total r (q ++ t) = Some (t, caps) ->
  scan r total 0 rb (q ++ t) = Hit (rev rb) q caps t :: scan r total 0 (rev q ++ rb) t.
Proof.
  intros Hq H. destruct q as [|x q]; [congruence|].
  change ((x :: q) ++ t) with (x :: (q ++ t)) in *.
  cbn [scan]. rewrite H.
  assert (Hn : length (x :: q ++ t) - length t = S (length q)).
  { cbn [length]. rewrite length_app. lia. }
  rewrite Hn. cbn [Nat.eqb Nat.sub firstn].
  rewrite firstn_app, Nat.sub_diag, firstn_all. simpl firstn. rewrite app_nil_r.
  rewrite Nat.sub_0_r, scan_skip. simpl rev. rewrite <- app_assoc. reflexivity.
Qed.



Lemma scan_end_miss (r : regex) (total : nat) (rb : jsstring) :
  match_here total r [] = None -> scan r total 0 rb [] = [].
Proof. intros H. simpl. rewrite H. reflexivity. Qed.

Lemma GetSubstitution_dollar_free (matched before after : jsstring) (m : nat)
    (caps : captures) (t : jsstring) :
  dollar_free t = true -> GetSubstitution matched before after m caps t = t.
Proof.
  induction t as [|a t IH]; intros H; [reflexivity|].
  simpl in H. apply andb_true_iff in H as [Ha Ht].
  cbn [GetSubstitution]. rewrite Ha. f_equal. auto.
Qed.

(** ** Patterns of one character *)

Lemma replace_from_char (a : ascii) (w : jsstring) (total : nat) (s : jsstring) :
  dollar_free w = true ->
  forall rb,
    replace_from (literal_regexp (RChar a)) w total rb s
    = flat_map (fun c => if Ascii.eqb c a then w else [c]) s.
Proof.
  intros Hw. unfold replace_from. cbn [re_pattern literal_regexp].
  induction s as [|x t IH]; intros rb.
  - reflexivity.
  - destruct (Ascii.eqb x a) eqn:E.
    + change (x :: t) with ([x] ++ t) at 1.
      rewrite scan_hit with (caps := []).
      * cbn [flat_map substitute_piece].
        rewrite GetSubstitution_dollar_free by assumption.
        rewrite IH. cbn [flat_map app]. rewrite E. reflexivity.
      * discriminate.
      * unfold match_here. simpl. rewrite E. reflexivity.
    + rewrite scan_miss.
      * cbn [flat_map substitute_piece]. rewrite IH, E. reflexivity.
      * unfold match_here. simpl. rewrite E. reflexivity.
Qed.

Lemma String_replace_char (a : ascii) (w s : jsstring) :
  dollar_free w = true ->
  String_replace_g (literal_regexp (RChar a)) w s
  = flat_map (fun c => if Ascii.eqb c a then w else [c]) s.
Proof. intros Hw. apply (replace_from_char a w (length s) s Hw []). Qed.

Lemma escape_value_chars (value : jsstring) :
  escape_value value = flat_map escape_char value.
Proof.
  unfold escape_value.
  rewrite !String_replace_char by reflexivity.
  induction value as [|c v IH]; [reflexivity|].
  cbn [flat_map]. rewrite !flat_map_app, IH. f_equal.
  unfold escape_char.
  destruct (Ascii.eqb c "&") eqn:E1.
  - reflexivity.
  - cbn [flat_map app]. destruct (Ascii.eqb c "<") eqn:E2.
    + reflexivity.
    + cbn [flat_map app]. destruct (Ascii.eqb c ">"); reflexivity.
Qed.

Lemma newline_replace_chars (content : jsstring) :
  String_replace_g (literal_regexp (RChar newline)) (js "<br>") content
  = flat_map br_of_newline content.
Proof. apply String_replace_char. reflexivity. Qed.

(** ** Literal patterns *)

Lemma strip_prefix_app (p t : jsstring) : strip_prefix p (p ++ t) = Some t.
Proof.
  induction p as [|a p IH]; [reflexivity|].
  simpl. rewrite Ascii.eqb_refl. exact IH.
Qed.

Lemma strip_prefix_Some (p s t : jsstring) :
  strip_prefix p s = Some t -> s = p ++ t.
Proof.
  revert s. induction p as [|a p IH]; intros s H.
  - simpl in H. injection H as ->. reflexivity.
  - destruct s as [|x s]; [discriminate|]. simpl in H.
    destruct (Ascii.eqb x a) eqn:E; [|discriminate].
    apply Ascii.eqb_eq in E. subst x. simpl. f_equal. auto.
Qed.

Lemma rmatch_literal (total : nat) (p : jsstring) (k : mcont) :
  forall s c,
    rmatch total (literal_pattern p) k s c
    = match strip_prefix p s with
      | Some s' => k s' c
      | None => None
      end.
Proof.
  unfold literal_pattern. induction p as [|a p IH]; intros s c.
  - reflexivity.
  - cbn [map mkseq fold_right rmatch strip_prefix].
    destruct s as [|x s]; [reflexivity|].
    destruct (Ascii.eqb x a); [|reflexivity].
    apply IH.
Qed.

Lemma match_here_literal (total : nat) (p s : jsstring) :
  match_here total (literal_pattern p) s
  = match strip_prefix p s with
    | Some s' => Some (s', [])
    | None => None
    end.
Proof. unfold match_here. apply rmatch_literal. Qed.

Section LiteralReplace.

Variable p w : jsstring.
Hypothesis p_nonempty : p <> [].
Hypothesis w_dollar_free : dollar_free w = true.

Lemma literal_scan_miss (total : nat) (rb : jsstring) (x : ascii) (t : jsstring) :
  strip_prefix p (x :: t) = None ->
  replace_from (literal_regexp (literal_pattern p)) w total rb (x :: t)
  = x :: replace_from (literal_regexp (literal_pattern p)) w total (x :: rb) t.
Proof.
  intros H. unfold replace_from. cbn [re_pattern literal_regexp].
  rewrite scan_miss; [reflexivity|].
  rewrite match_here_literal, H. reflexivity.
Qed.

Lemma literal_scan_hit (total : nat) (rb t : jsstring) :
  replace_from (literal_regexp (literal_pattern p)) w total rb (p ++ t)
  = w ++ replace_from (literal_regexp (literal_pattern p)) w total (rev p ++ rb) t.
Proof.
  unfold replace_from. cbn [re_pattern literal_regexp].
  rewrite scan_hit with (caps := []).
  - cbn [flat_map substitute_piece].
    rewrite GetSubstitution_dollar_free by assumption. reflexivity.
  - assumption.
  - rewrite match_here_literal, strip_prefix_app. reflexivity.
Qed.

Lemma literal_scan_end (total : nat) (rb : jsstring) :
  replace_from (literal_regexp (literal_pattern p)) w total rb [] = [].
Proof.
  unfold replace_from. cbn [re_pattern literal_regexp].
  rewrite scan_end_miss; [reflexivity|].
  rewrite match_here_literal. destruct p; [congruence|reflexivity].
Qed.

(** A run of characters none of which starts the pattern is kept. *)
Lemma literal_scan_run (total : nat) (l : jsstring) :
  (forall x t, In x l -> strip_prefix p (x :: t) = None) ->
  forall rb t,
    replace_from (literal_regexp (literal_pattern p)) w total rb (l ++ t)
    = l ++ replace_from (literal_regexp (literal_pattern p)) w total (rev l ++ rb) t.
Proof.
  induction l as [|x l IH]; intros Hl rb t.
  - reflexivity.
  - cbn [app]. rewrite literal_scan_miss by (apply Hl; left; reflexivity).
    rewrite IH by (intros y t' Hy; apply Hl; right; assumption).
    cbn [rev]. rewrite <- app_assoc. reflexivity.
Qed.

End LiteralReplace.

(** ** The pattern built from a key without syntax characters *)

Lemma is_syntax_char_false (c : ascii) :
  is_syntax_char c = false ->
  Ascii.eqb c "\" = false /\ Ascii.eqb c "^" = false /\ Ascii.eqb c "$" = false /\
  Ascii.eqb c "." = false /\ Ascii.eqb c "*" = false /\ Ascii.eqb c "+" = false /\
  Ascii.eqb c "?" = false /\ Ascii.eqb c "(" = false /\ Ascii.eqb c ")" = false /\
  Ascii.eqb c "[" = false /\ Ascii.eqb c "]" = false /\ Ascii.eqb c "{" = false /\
  Ascii.eqb c "}" = false /\ Ascii.eqb c "|" = false.
Proof.
  unfold is_syntax_char. cbn [js list_ascii_of_string existsb].
  intros H. repeat (apply orb_false_iff in H as [? H]). repeat split; assumption.
Qed.

Lemma normal_step_plain (st : pstate) (c : ascii) (rest : jsstring) :
  is_syntax_char c = false ->
  normal_step st c rest = Ok (with_cur st (push_item (IAtom (RChar c)) (p_cur st))).
Proof.
  intros H. apply is_syntax_char_false in H.
  destruct H as (H1 & H2 & H3 & H4 & H5 & H6 & H7 & H8 & H9 & H10 & H11 & H12 & H13 & H14).
  unfold normal_step.
  rewrite H1, H8, H9, H14, H5, H6, H7, H4, H2, H3, H10, H12. reflexivity.
Qed.

Lemma parse_loop_plain (key : jsstring) :
  plain_key key = true ->
  forall items rest,
    parse_loop (plain_state items) (key ++ rest)
    = parse_loop (plain_state (rev (map (fun c => IAtom (RChar c)) key) ++ items)) rest.
Proof.
  induction key as [|c key IH]; intros Hk items rest.
  - reflexivity.
  - simpl in Hk. apply andb_true_iff in Hk as [Hc Hk].
    apply negb_true_iff in Hc.
    cbn [app parse_loop]. unfold parse_step. cbn [plain_state p_mode].
    rewrite normal_step_plain by assumption. cbn [bind].
    change (with_cur _ _) with (plain_state (IAtom (RChar c) :: items)).
    rewrite IH by assumption. cbn [map rev]. rewrite <- app_assoc. reflexivity.
Qed.

Lemma parse_loop_open (rest : jsstring) :
  RegExp_new ("\" :: "{" :: rest)
  = parse_loop (plain_state [IAtom (RChar "{")]) rest.
Proof. reflexivity. Qed.

Lemma parse_loop_close (items : list item) :
  parse_loop (plain_state items) (js "\}")
  = Ok (literal_regexp (mkseq (map regex_of_item (rev (IAtom (RChar "}") :: items))))).
Proof. reflexivity. Qed.

Lemma RegExp_new_plain (key : jsstring) :
  plain_key key = true ->
  RegExp_new (key_pattern_source key)
  = Ok (literal_regexp (literal_pattern (braced key))).
Proof.
  intros Hk. unfold key_pattern_source, literal_pattern.
  change (js "\{" ++ key ++ js "\}") with ("\" :: "{" :: key ++ js "\}").
  rewrite parse_loop_open, parse_loop_plain, parse_loop_close by assumption.
  unfold braced. do 3 f_equal.
  cbn [rev]. rewrite rev_app_distr, rev_involutive. cbn [rev app].
  cbn [map regex_of_item]. rewrite !map_app, map_map. reflexivity.
Qed.

(** ** Well-braced texts as segments *)

Lemma jseqb_eq (a b : jsstring) : jseqb a b = true <-> a = b.
Proof. unfold jseqb. destruct (jsstring_eq_dec a b); split; congruence. Qed.

Lemma jseqb_refl (a : jsstring) : jseqb a a = true.
Proof. apply jseqb_eq. reflexivity. Qed.

Lemma jseqb_neq (a b : jsstring) : jseqb a b = false <-> a <> b.
Proof. unfold jseqb. destruct (jsstring_eq_dec a b); split; congruence. Qed.

Lemma render_app (a b : list segment) : render (a ++ b) = render a ++ render b.
Proof. apply flat_map_app. Qed.

Lemma render_map_Lit (w : jsstring) : render (map Lit w) = w.
Proof. induction w as [|c w IH]; [reflexivity|]. cbn. f_equal. exact IH. Qed.

Lemma strip_braced_head (k : jsstring) (x : ascii) (t : jsstring) :
  x <> "{" -> strip_prefix (braced k) (x :: t) = None.
Proof.
  intros Hx. unfold braced. cbn [strip_prefix].
  destruct (Ascii.eqb x "{") eqn:E; [|reflexivity].
  apply Ascii.eqb_eq in E. contradiction.
Qed.

Lemma strip_name_close (k : jsstring) :
  forall n rest,
    ~ In "}" k -> ~ In "}" n -> k <> n ->
    strip_prefix (k ++ ["}"]) (n ++ "}" :: rest) = None.
Proof.
  induction k as [|a k IH]; intros n rest Hk Hn Hne.
  - destruct n as [|y n]; [congruence|]. cbn [app strip_prefix].
    destruct (Ascii.eqb y "}") eqn:E; [|reflexivity].
    apply Ascii.eqb_eq in E. subst y. exfalso. apply Hn. left. reflexivity.
  - destruct n as [|y n]; cbn [app strip_prefix].
    + destruct (Ascii.eqb "}" a) eqn:E; [|reflexivity].
      apply Ascii.eqb_eq in E. subst a. exfalso. apply Hk. left. reflexivity.
    + destruct (Ascii.eqb y a) eqn:E; [|reflexivity].
      apply Ascii.eqb_eq in E. subst y. apply IH.
      * intros H. apply Hk. right. exact H.
      * intros H. apply Hn. right. exact H.
      * congruence.
Qed.

Lemma strip_braced_other (k n rest : jsstring) :
  ~ In "}" k -> ~ In "}" n -> k <> n ->
  strip_prefix (braced k) (braced n ++ rest) = None.
Proof.
  intros Hk Hn Hne. unfold braced. cbn [app strip_prefix]. rewrite Ascii.eqb_refl.
  rewrite <- app_assoc. apply strip_name_close; assumption.
Qed.

Lemma replace_braced_from (k w : jsstring) (segs : list segment) :
  ~ In "}" k -> dollar_free w = true -> Forall segment_ok segs ->
  forall total rb,
    replace_from (literal_regexp (literal_pattern (braced k))) w total rb (render segs)
    = render (fill k w segs).
Proof.
  intros Hk Hw Hok.
  assert (Hp : braced k <> []) by discriminate.
  induction Hok as [|sg segs Hsg Hok IH]; intros total rb.
  - apply (literal_scan_end (braced k) w Hp).
  - destruct sg as [c|n]; cbn [segment_ok] in Hsg.
    + change (render (Lit c :: segs)) with (c :: render segs).
      rewrite (literal_scan_miss (braced k) w) by (apply strip_braced_head; assumption).
      rewrite IH. reflexivity.
    + destruct Hsg as [Hn1 Hn2].
      change (render (Ph n :: segs)) with (braced n ++ render segs).
      change (fill k w (Ph n :: segs)) with (fill_segment k w (Ph n) ++ fill k w segs).
      cbn [fill_segment]. destruct (jsstring_eq_dec n k) as [->|Hne].
      * rewrite jseqb_refl.
        rewrite (literal_scan_hit (braced k) w Hp Hw), IH.
        rewrite render_app, render_map_Lit. reflexivity.
      * assert (E : jseqb n k = false) by (apply jseqb_neq; assumption).
        rewrite E.
        unfold braced at 2. cbn [app].
        rewrite (literal_scan_miss (braced k) w).
        2:{ apply (strip_braced_other k n (render segs)); auto. }
        rewrite (literal_scan_run (braced k) w total (n ++ ["}"])).
        2:{ intros x t Hx. apply strip_braced_head. apply in_app_or in Hx.
            destruct Hx as [Hx|[<-|[]]]; [congruence|discriminate]. }
        rewrite IH. reflexivity.
Qed.

Lemma String_replace_braced (k w : jsstring) (segs : list segment) :
  ~ In "}" k -> dollar_free w = true -> Forall segment_ok segs ->
  String_replace_g (literal_regexp (literal_pattern (braced k))) w (render segs)
  = render (fill k w segs).
Proof. intros. apply replace_braced_from; assumption. Qed.

(** ** Keys and values without special characters *)

Lemma plain_key_chars (k : jsstring) (c : ascii) :
  plain_key k = true -> In c k -> is_syntax_char c = false.
Proof.
  unfold plain_key. rewrite forallb_forall. intros H Hc.
  apply negb_true_iff. apply H. exact Hc.
Qed.

Lemma plain_key_no_close (k : jsstring) : plain_key k = true -> ~ In "}" k.
Proof. intros H Hc. apply (plain_key_chars k _ H) in Hc. discriminate. Qed.

Lemma plain_key_no_open (k : jsstring) : plain_key k = true -> ~ In "{" k.
Proof. intros H Hc. apply (plain_key_chars k _ H) in Hc. discriminate. Qed.

Lemma plain_key_braced_dollar_free (k : jsstring) :
  plain_key k = true -> dollar_free (braced k) = true.
Proof.
  intros H. unfold dollar_free, braced. apply forallb_forall. intros c Hc.
  destruct Hc as [<-|Hc]; [reflexivity|].
  apply in_app_or in Hc. destruct Hc as [Hc|[<-|[]]]; [|reflexivity].
  apply (plain_key_chars k _ H) in Hc. apply is_syntax_char_false in Hc.
  destruct Hc as (_ & _ & Hd & _). rewrite Hd. reflexivity.
Qed.

Lemma escape_char_keeps (P : ascii -> Prop) (c : ascii) :
  P "&" -> P "a" -> P "m" -> P "p" -> P ";" -> P "l" -> P "t" -> P "g" ->
  P c -> forall x, In x (escape_char c) -> P x.
Proof.
  intros Hamp Ha Hm Hp Hs Hl Ht Hg Hc x. unfold escape_char.
  destruct (Ascii.eqb c "&"); [|destruct (Ascii.eqb c "<"); [|destruct (Ascii.eqb c ">")]];
    cbn [js list_ascii_of_string In]; intros Hx;
    repeat (destruct Hx as [<-|Hx]; [assumption|]); destruct Hx.
Qed.

Lemma escape_value_keeps (P : ascii -> Prop) (v : jsstring) :
  P "&" -> P "a" -> P "m" -> P "p" -> P ";" -> P "l" -> P "t" -> P "g" ->
  (forall c, In c v -> P c) -> forall x, In x (escape_value v) -> P x.
Proof.
  intros ? ? ? ? ? ? ? ? Hv x. rewrite escape_value_chars, in_flat_map.
  intros (c & Hc & Hx). apply (escape_char_keeps P c); auto.
Qed.

Lemma plain_value_chars (v : jsstring) (c : ascii) :
  plain_value v = true -> In c v -> c <> "{" /\ c <> "$".
Proof.
  unfold plain_value. rewrite forallb_forall. intros H Hc.
  specialize (H c Hc). apply negb_true_iff, orb_false_iff in H as [H1 H2].
  split; intros ->; discriminate.
Qed.

Lemma escape_value_no_open (v : jsstring) :
  plain_value v = true -> forall x, In x (escape_value v) -> x <> "{".
Proof.
  intros Hv. apply escape_value_keeps; try discriminate.
  intros c Hc. apply (plain_value_chars v c Hv Hc).
Qed.

Lemma escape_value_dollar_free (v : jsstring) :
  plain_value v = true -> dollar_free (escape_value v) = true.
Proof.
  intros Hv. unfold dollar_free. apply forallb_forall. intros x Hx.
  apply negb_true_iff. apply Ascii.eqb_neq. revert x Hx.
  apply escape_value_keeps; try discriminate.
  intros c Hc. apply (plain_value_chars v c Hv Hc).
Qed.

(** ** Filling placeholders, segment by segment *)

Lemma fill_ok (k w : jsstring) (segs : list segment) :
  (forall c, In c w -> c <> "{") ->
  Forall segment_ok segs -> Forall segment_ok (fill k w segs).
Proof.
  intros Hw Hok. unfold fill. apply Forall_flat_map.
  apply Forall_impl with (P := segment_ok); [|exact Hok].
  intros [c|n] Hsg; cbn [fill_segment].
  - constructor; [exact Hsg|constructor].
  - destruct (jseqb n k).
    + apply Forall_map. apply Forall_forall. intros c Hc. cbn. auto.
    + constructor; [exact Hsg|constructor].
Qed.

Lemma fill_removes (k w : jsstring) (segs : list segment) :
  ~ In (Ph k) (fill k w segs).
Proof.
  unfold fill. rewrite in_flat_map. intros ([c|n] & Hin & H); cbn [fill_segment] in H.
  - destruct H as [H|[]]. discriminate.
  - destruct (jseqb n k) eqn:E.
    + apply in_map_iff in H as (c & Hc & _). discriminate.
    + destruct H as [H|[]]. injection H as ->. rewrite jseqb_refl in E. discriminate.
Qed.

Lemma fill_no_new (j w k : jsstring) (segs : list segment) :
  In (Ph k) (fill j w segs) -> In (Ph k) segs.
Proof.
  unfold fill. rewrite in_flat_map. intros ([c|n] & Hin & H); cbn [fill_segment] in H.
  - destruct H as [H|[]]. discriminate.
  - destruct (jseqb n j).
    + apply in_map_iff in H as (c & Hc & _). discriminate.
    + destruct H as [H|[]]. rewrite <- H. exact Hin.
Qed.

Lemma fill_keeps_other (j w n : jsstring) (segs : list segment) :
  n <> j -> In (Ph n) segs -> In (Ph n) (fill j w segs).
Proof.
  intros Hne Hin. unfold fill. apply in_flat_map. exists (Ph n). split; [exact Hin|].
  cbn [fill_segment]. apply jseqb_neq in Hne. rewrite Hne. left. reflexivity.
Qed.

Lemma fill_absent (k w : jsstring) (segs : list segment) :
  ~ In (Ph k) segs -> fill k w segs = segs.
Proof.
  induction segs as [|sg segs IH]; intros H; [reflexivity|].
  change (fill k w (sg :: segs)) with (fill_segment k w sg ++ fill k w segs).
  rewrite IH by (intros Hin; apply H; right; exact Hin).
  destruct sg as [c|n]; cbn [fill_segment]; [reflexivity|].
  destruct (jseqb n k) eqn:E; [|reflexivity].
  apply jseqb_eq in E. subst n. exfalso. apply H. left. reflexivity.
Qed.

Lemma render_fill_self (k : jsstring) (segs : list segment) :
  render (fill k (braced k) segs) = render segs.
Proof.
  induction segs as [|sg segs IH]; [reflexivity|].
  change (fill k (braced k) (sg :: segs))
    with (fill_segment k (braced k) sg ++ fill k (braced k) segs).
  rewrite render_app, IH.
  change (render (sg :: segs)) with (render_segment sg ++ render segs). f_equal.
  destruct sg as [c|n]; cbn [fill_segment]; [reflexivity|].
  destruct (jseqb n k) eqn:E.
  - apply jseqb_eq in E. subst n. apply render_map_Lit.
  - cbn. rewrite app_nil_r. reflexivity.
Qed.

Lemma replace_entry_segments (k v : jsstring) (segs : list segment) :
  plain_key k = true -> plain_value v = true -> Forall segment_ok segs ->
  replace_entry (render segs) (k, v) = Ok (render (fill_entry segs (k, v))).
Proof.
  intros Hk Hv Hok. unfold replace_entry, fill_entry. cbn [fst snd].
  rewrite RegExp_new_plain by assumption. cbn [bind]. f_equal.
  destruct (truthy v).
  - apply String_replace_braced; auto using plain_key_no_close, escape_value_dollar_free.
  - rewrite String_replace_braced;
      auto using plain_key_no_close, plain_key_braced_dollar_free, render_fill_self.
Qed.

Lemma fill_entry_ok (k v : jsstring) (segs : list segment) :
  plain_value v = true -> Forall segment_ok segs ->
  Forall segment_ok (fill_entry segs (k, v)).
Proof.
  intros Hv Hok. unfold fill_entry. cbn [fst snd]. destruct (truthy v); [|exact Hok].
  apply fill_ok; [|exact Hok]. apply escape_value_no_open. exact Hv.
Qed.

Lemma fill_all_ok (variables : VariableMap) :
  plain_entries variables = true ->
  forall segs, Forall segment_ok segs -> Forall segment_ok (fill_all segs variables).
Proof.
  induction variables as [|[k v] rest IH]; intros H segs Hok; [exact Hok|].
  cbn in H. apply andb_true_iff in H as [Hkv H]. apply andb_true_iff in Hkv as [Hk Hv].
  cbn [fill_all fold_left]. apply IH; [exact H|]. apply fill_entry_ok; assumption.
Qed.

Lemma replaceVariables_segments (variables : VariableMap) :
  plain_entries variables = true ->
  forall segs, Forall segment_ok segs ->
    replaceVariables (render segs) variables = Ok (render (fill_all segs variables)).
Proof.
  unfold replaceVariables.
  induction variables as [|[k v] rest IH]; intros H segs Hok; [reflexivity|].
  cbn in H. apply andb_true_iff in H as [Hkv H]. apply andb_true_iff in Hkv as [Hk Hv].
  cbn [forEach_entries]. rewrite replace_entry_segments by assumption. cbn [bind].
  rewrite IH by auto using fill_entry_ok. reflexivity.
Qed.

Lemma well_braced_from_segments (s : jsstring) :
  (well_braced_from false s = true ->
   exists segs, s = render segs /\ Forall segment_ok segs) /\
  (well_braced_from true s = true ->
   exists n segs, s = n ++ "}" :: render segs /\ ~ In "{" n /\ ~ In "}" n
                  /\ Forall segment_ok segs).
Proof.
  induction s as [|c t [IHout IHin]]; split; intros H.
  - exists []. split; [reflexivity|constructor].
  - discriminate.
  - cbn [well_braced_from] in H. destruct (Ascii.eqb c "{") eqn:E.
    + apply Ascii.eqb_eq in E. subst c.
      destruct (IHin H) as (n & segs & -> & Hn1 & Hn2 & Hok).
      exists (Ph n :: segs). split.
      * cbn. rewrite <- app_assoc. reflexivity.
      * constructor; [split; assumption|exact Hok].
    + apply Ascii.eqb_neq in E.
      destruct (IHout H) as (segs & -> & Hok).
      exists (Lit c :: segs). split; [reflexivity|].
      constructor; [exact E|exact Hok].
  - cbn [well_braced_from] in H. destruct (Ascii.eqb c "{") eqn:E1; [discriminate|].
    apply Ascii.eqb_neq in E1.
    destruct (Ascii.eqb c "}") eqn:E2.
    + apply Ascii.eqb_eq in E2. subst c.
      destruct (IHout H) as (segs & -> & Hok).
      exists [], segs. repeat split; auto.
    + apply Ascii.eqb_neq in E2.
      destruct (IHin H) as (n & segs & -> & Hn1 & Hn2 & Hok).
      exists (c :: n), segs. repeat split; auto.
      * intros [Hc|Hc]; [congruence|contradiction].
      * intros [Hc|Hc]; [congruence|contradiction].
Qed.

Lemma well_braced_segments (s : jsstring) :
  well_braced s = true -> exists segs, s = render segs /\ Forall segment_ok segs.
Proof. apply well_braced_from_segments. Qed.

(** ** Occurrences of a placeholder in a well-braced text *)

Lemma run_split (l : jsstring) :
  (forall x, In x l -> x <> "{") ->
  forall pre rest tail,
    l ++ rest = pre ++ "{" :: tail ->
    exists pre', pre = l ++ pre' /\ rest = pre' ++ "{" :: tail.
Proof.
  induction l as [|a l IH]; intros Hl pre rest tail H.
  - exists pre. split; [reflexivity|exact H].
  - destruct pre as [|b pre]; cbn [app] in H.
    + injection H as Ha _. exfalso. apply (Hl a); [left; reflexivity|exact Ha].
    + injection H as -> H.
      destruct (IH (fun x Hx => Hl x (or_intror Hx)) pre rest tail H) as (pre' & -> & ->).
      exists pre'. split; reflexivity.
Qed.

Lemma contains_braced_render (k : jsstring) (segs : list segment) :
  ~ In "}" k -> Forall segment_ok segs ->
  contains (braced k) (render segs) -> In (Ph k) segs.
Proof.
  intros Hk Hok. induction Hok as [|sg segs Hsg Hok IH]; intros (pre & post & H).
  - cbn in H. destruct pre; discriminate.
  - destruct sg as [c|n]; cbn [segment_ok] in Hsg.
    + change (render (Lit c :: segs)) with (c :: render segs) in H.
      destruct pre as [|b pre]; cbn [app braced] in H.
      * injection H as Hc _. contradiction.
      * injection H as _ H. right. apply IH. exists pre, post. exact H.
    + destruct Hsg as [Hn1 Hn2].
      change (render (Ph n :: segs)) with (braced n ++ render segs) in H.
      destruct pre as [|b pre].
      * left. f_equal. destruct (jsstring_eq_dec k n) as [->|Hne]; [reflexivity|].
        pose proof (strip_braced_other k n (render segs) Hk Hn2 Hne) as Hnone.
        cbn [app] in H. rewrite H, strip_prefix_app in Hnone. discriminate.
      * right. apply IH.
        unfold braced at 1 in H. cbn [app] in H. injection H as _ H.
        apply (run_split (n ++ ["}"])) in H.
        -- destruct H as (pre' & _ & H). exists pre', post. exact H.
        -- intros x Hx. apply in_app_or in Hx.
           destruct Hx as [Hx|[<-|[]]]; [congruence|discriminate].
Qed.

Lemma render_contains_Ph (k : jsstring) (segs : list segment) :
  In (Ph k) segs -> contains (braced k) (render segs).
Proof.
  intros H. apply in_split in H as (l1 & l2 & ->).
  exists (render l1), (render l2). rewrite render_app. reflexivity.
Qed.

(** ** All the entries of a map *)

Lemma fill_entry_no_new (e : jsstring * jsstring) (k : jsstring) (segs : list segment) :
  In (Ph k) (fill_entry segs e) -> In (Ph k) segs.
Proof.
  unfold fill_entry. destruct (truthy (snd e)); [apply fill_no_new|trivial].
Qed.

Lemma fill_all_no_new (variables : VariableMap) (k : jsstring) :
  forall segs, In (Ph k) (fill_all segs variables) -> In (Ph k) segs.
Proof.
  induction variables as [|e rest IH]; intros segs H; [exact H|].
  cbn [fill_all fold_left] in H. apply IH in H. apply fill_entry_no_new in H. exact H.
Qed.

Lemma truthy_nonempty (v : jsstring) : truthy v = true <-> v <> [].
Proof. destruct v; cbn; split; congruence. Qed.

Lemma fill_all_filled_absent (variables : VariableMap) (k v : jsstring) :
  In (k, v) variables -> v <> [] ->
  forall segs, ~ In (Ph k) (fill_all segs variables).
Proof.
  intros Hin Hv. induction variables as [|e rest IH]; intros segs; [destruct Hin|].
  cbn [fill_all fold_left]. destruct Hin as [->|Hin].
  - intros H. apply fill_all_no_new in H. unfold fill_entry in H. cbn [fst snd] in H.
    apply truthy_nonempty in Hv. rewrite Hv in H. apply fill_removes in H. exact H.
  - apply IH. exact Hin.
Qed.

Lemma fill_all_unfilled_kept (variables : VariableMap) (n : jsstring) :
  (forall v, In (n, v) variables -> v = []) ->
  forall segs, In (Ph n) segs -> In (Ph n) (fill_all segs variables).
Proof.
  induction variables as [|[k v] rest IH]; intros Hn segs H; [exact H|].
  cbn [fill_all fold_left]. apply IH.
  - intros v' Hv'. apply Hn. right. exact Hv'.
  - unfold fill_entry. cbn [fst snd]. destruct (truthy v) eqn:E; [|exact H].
    apply fill_keeps_other; [|exact H].
    intros ->. apply truthy_nonempty in E. apply E. apply Hn. left. reflexivity.
Qed.

Lemma fill_all_fixed (variables : VariableMap) (segs : list segment) :
  (forall e, In e variables -> fill_entry segs e = segs) ->
  fill_all segs variables = segs.
Proof.
  induction variables as [|e rest IH]; intros H; [reflexivity|].
  cbn [fill_all fold_left]. rewrite (H e) by (left; reflexivity).
  apply IH. intros e' He'. apply H. right. exact He'.
Qed.

Lemma fill_all_idempotent (variables : VariableMap) (segs : list segment) :
  fill_all (fill_all segs variables) variables = fill_all segs variables.
Proof.
  apply fill_all_fixed. intros [k v] He. unfold fill_entry. cbn [fst snd].
  destruct (truthy v) eqn:E; [|reflexivity].
  apply fill_absent. apply fill_all_filled_absent with (v := v); [exact He|].
  apply truthy_nonempty. exact E.
Qed.

(** ** The matches of the placeholder pattern *)

Lemma reset_captures_nil (c : captures) : reset_captures [] c = c.
Proof.
  unfold reset_captures. induction c as [|e c IH]; [reflexivity|].
  cbn. f_equal. exact IH.
Qed.

Lemma take_drop_name (s : jsstring) : take_name s ++ drop_name s = s.
Proof.
  induction s as [|x t IH]; [reflexivity|].
  cbn. destruct (not_close_brace x); [|reflexivity]. cbn. f_equal. exact IH.
Qed.

Lemma take_name_no_close (s : jsstring) : ~ In "}" (take_name s).
Proof.
  induction s as [|x t IH]; [intros []|].
  cbn. destruct (not_close_brace x) eqn:E; [|intros []].
  intros [H|H]; [|contradiction]. subst x. discriminate.
Qed.

Lemma drop_name_head (s : jsstring) (z : ascii) (rest : jsstring) :
  drop_name s = z :: rest -> z = "}".
Proof.
  induction s as [|x t IH]; [discriminate|].
  cbn. destruct (not_close_brace x) eqn:E; [exact IH|].
  intros H. injection H as -> _.
  unfold not_close_brace in E. apply negb_false_iff, Ascii.eqb_eq in E. exact E.
Qed.

Lemma drop_name_length (s : jsstring) : length (drop_name s) <= length s.
Proof.
  induction s as [|x t IH]; [reflexivity|].
  cbn. destruct (not_close_brace x); cbn; lia.
Qed.

Lemma firstn_take_name (s : jsstring) :
  firstn (length s - length (drop_name s)) s = take_name s.
Proof.
  rewrite <- (take_drop_name s) at 1 3. rewrite length_app.
  replace (length (take_name s) + length (drop_name s) - length (drop_name s))
    with (length (take_name s)) by lia.
  rewrite firstn_app, Nat.sub_diag, firstn_all. cbn. apply app_nil_r.
Qed.

Lemma repeat_name_greedy (total : nat) (k : mcont) :
  (forall x t c, not_close_brace x = true -> k (x :: t) c = None) ->
  forall s fuel c,
    length s < fuel ->
    repeat_loop (rmatch total (RClass not_close_brace)) (reset_captures []) true k fuel s c
    = k (drop_name s) c.
Proof.
  intros Hk. induction s as [|x t IH]; intros fuel c Hf;
    (destruct fuel as [|fuel]; [inversion Hf|]); cbn [repeat_loop rmatch].
  - reflexivity.
  - rewrite reset_captures_nil. cbn [drop_name].
    destruct (not_close_brace x) eqn:E.
    + replace (length t =? length (x :: t)) with false
        by (symmetry; apply Nat.eqb_neq; cbn; lia).
      rewrite IH by (cbn in Hf; lia).
      rewrite (Hk x t c E). destruct (k (drop_name t) c); reflexivity.
    + reflexivity.
Qed.

Lemma match_here_variable (total : nat) (s : jsstring) :
  match_here total variable_regex s
  = match s with
    | x :: t =>
        if Ascii.eqb x "{" then
          match take_name t, drop_name t with
          | _ :: _, _ :: rest => Some (rest, [(1, take_name t)])
          | _, _ => None
          end
        else None
    | [] => None
    end.
Proof.
  unfold match_here, variable_regex. cbn [rmatch].
  destruct s as [|x t]; [reflexivity|].
  destruct (Ascii.eqb x "{"); [|reflexivity].
  cbn [groups_of]. rewrite reset_captures_nil.
  destruct t as [|y t']; [reflexivity|].
  cbn [take_name drop_name]. destruct (not_close_brace y) eqn:E; [|reflexivity].
  etransitivity.
  { apply (repeat_name_greedy total).
    - intros x0 t0 c0 Hx0. unfold not_close_brace in Hx0.
      apply negb_true_iff in Hx0. rewrite Hx0. reflexivity.
    - lia. }
  pose proof (drop_name_length t') as Hlen.
  pose proof (firstn_take_name t') as F.
  destruct (drop_name t') as [|z rest] eqn:D; [reflexivity|].
  rewrite (drop_name_head _ _ _ D). cbn [Ascii.eqb Bool.eqb].
  do 4 f_equal.
  replace (length (y :: t') - length ("}" :: rest))
    with (S (length t' - length (z :: rest))) by (cbn [length] in *; lia).
  cbn [firstn]. f_equal. exact F.
Qed.

Lemma variable_hit_shape (total : nat) (s rest : jsstring) (caps : captures) :
  match_here total variable_regex s = Some (rest, caps) ->
  exists n, n <> [] /\ ~ In "}" n /\ s = braced n ++ rest.
Proof.
  rewrite match_here_variable. destruct s as [|x t]; [discriminate|].
  destruct (Ascii.eqb x "{") eqn:E; [|discriminate].
  apply Ascii.eqb_eq in E. subst x.
  pose proof (take_drop_name t) as TD. pose proof (take_name_no_close t) as NC.
  destruct (take_name t) as [|a n] eqn:T; [discriminate|].
  destruct (drop_name t) as [|z r] eqn:D; [discriminate|].
  intros H. injection H as <- _.
  rewrite (drop_name_head _ _ _ D) in TD.
  exists (a :: n). split; [discriminate|]. split; [exact NC|].
  unfold braced. rewrite <- TD. cbn [app]. rewrite <- !app_assoc. reflexivity.
Qed.

Lemma contains_cons (m s : jsstring) (x : ascii) :
  contains m s -> contains m (x :: s).
Proof. intros (pre & post & ->). exists (x :: pre), post. reflexivity. Qed.

Lemma matched_texts_variable (total : nat) (s : jsstring) :
  forall skip rb m,
    In m (matched_texts (scan variable_regex total skip rb s)) ->
    exists n, m = braced n /\ n <> [] /\ ~ In "}" n /\ contains m s.
Proof.
  induction s as [|x t IH]; intros skip rb m H.
  - destruct skip; cbn [scan] in H; [|destruct H].
    rewrite match_here_variable in H. destruct H.
  - destruct skip as [|skip]; cbn [scan] in H.
    + destruct (match_here total variable_regex (x :: t)) as [[s' c']|] eqn:M.
      * cbn [matched_texts flat_map app] in H. destruct H as [H|H].
        -- destruct (variable_hit_shape _ _ _ _ M) as (n & Hn1 & Hn2 & Hs).
           exists n. rewrite Hs in H. rewrite length_app in H.
           replace (length (braced n) + length s' - length s') with (length (braced n)) in H by lia.
           rewrite firstn_app, Nat.sub_diag, firstn_all in H. cbn [firstn] in H.
           rewrite app_nil_r in H. subst m. repeat split; auto.
           exists [], s'. exact Hs.
        -- destruct (length (x :: t) - length s' =? 0).
           ++ cbn [flat_map app] in H.
              destruct (IH _ _ _ H) as (n & ? & ? & ? & ?).
              exists n. auto using contains_cons.
           ++ destruct (IH _ _ _ H) as (n & ? & ? & ? & ?).
              exists n. auto using contains_cons.
      * cbn [matched_texts flat_map app] in H.
        destruct (IH _ _ _ H) as (n & ? & ? & ? & ?).
        exists n. auto using contains_cons.
    + destruct (IH _ _ _ H) as (n & ? & ? & ? & ?).
      exists n. auto using contains_cons.
Qed.

Lemma slice_braced (n : jsstring) : slice 1 (-1) (braced n) = n.
Proof.
  unfold slice, braced. cbn [length]. rewrite length_app. cbn [length].
  replace (1 <? 0)%Z with false by reflexivity.
  replace (-1 <? 0)%Z with true by reflexivity.
  replace (Z.to_nat (Z.min 1 (Z.of_nat (S (length n + 1))))) with 1 by lia.
  replace (Z.to_nat (Z.max (Z.of_nat (S (length n + 1)) + -1) 0
                     - Z.min 1 (Z.of_nat (S (length n + 1)))))
    with (length n) by lia.
  cbn [skipn]. rewrite firstn_app, Nat.sub_diag, firstn_all. cbn. apply app_nil_r.
Qed.

(** ** Removing duplicates *)

Lemma existsb_jseqb (x : jsstring) (l : list jsstring) :
  existsb (jseqb x) l = true <-> In x l.
Proof.
  rewrite existsb_exists. split.
  - intros (y & Hy & E). apply jseqb_eq in E. subst y. exact Hy.
  - intros H. exists x. split; [exact H|apply jseqb_refl].
Qed.

Lemma existsb_jseqb_false (x : jsstring) (l : list jsstring) :
  existsb (jseqb x) l = false <-> ~ In x l.
Proof.
  rewrite <- existsb_jseqb. destruct (existsb (jseqb x) l); split; congruence.
Qed.

Lemma fold_left_Set_add (l : list jsstring) :
  forall acc seen,
    (forall x, existsb (jseqb x) acc = existsb (jseqb x) seen) ->
    fold_left Set_add l acc = acc ++ dedup_seen seen l.
Proof.
  induction l as [|x t IH]; intros acc seen H.
  - cbn. rewrite app_nil_r. reflexivity.
  - cbn [fold_left dedup_seen]. unfold Set_add at 2. rewrite (H x).
    destruct (existsb (jseqb x) seen) eqn:E.
    + apply IH. exact H.
    + rewrite (IH (acc ++ [x]) (x :: seen)).
      * rewrite <- app_assoc. reflexivity.
      * intros y. rewrite existsb_app. cbn [existsb]. rewrite (H y).
        destruct (existsb (jseqb y) seen), (jseqb y x); reflexivity.
Qed.

Lemma Set_spread_dedup (l : list jsstring) : Set_spread l = dedup_first l.
Proof. unfold Set_spread, dedup_first. rewrite (fold_left_Set_add l [] []); auto. Qed.

Lemma dedup_seen_In (l : list jsstring) :
  forall seen x, In x (dedup_seen seen l) <-> In x l /\ ~ In x seen.
Proof.
  induction l as [|a t IH]; intros seen x; cbn [dedup_seen].
  - cbn. tauto.
  - destruct (existsb (jseqb a) seen) eqn:E.
    + apply existsb_jseqb in E. rewrite IH. cbn [In]. split.
      * tauto.
      * intros [[->|H] Hn]; [contradiction|tauto].
    + apply existsb_jseqb_false in E. cbn [In]. rewrite IH. cbn [In]. split.
      * intros [->|[H Hn]]; [tauto|]. split; [tauto|]. tauto.
      * intros [[->|H] Hn]; [tauto|].
        destruct (jsstring_eq_dec a x) as [->|Hne]; [tauto|]. right. tauto.
Qed.




Lemma map_dedup_seen (f : jsstring -> jsstring) (l : list jsstring) :
  forall seen,
    (forall a b, In a (seen ++ l) -> In b (seen ++ l) -> f a = f b -> a = b) ->
    map f (dedup_seen seen l) = dedup_seen (map f seen) (map f l).
Proof.
  induction l as [|x t IH]; intros seen Hinj; [reflexivity|].
  cbn [map dedup_seen].
  assert (E : existsb (jseqb (f x)) (map f seen) = existsb (jseqb x) seen).
  { destruct (existsb (jseqb x) seen) eqn:Ex.
    - apply existsb_jseqb in Ex. apply existsb_jseqb. apply in_map. exact Ex.
    - apply existsb_jseqb_false in Ex. apply existsb_jseqb_false.
      intros H. apply in_map_iff in H as (y & Hy & Hin). apply Ex.
      rewrite <- (Hinj y x); auto.
      + apply in_or_app. left. exact Hin.
      + apply in_or_app. right. left. reflexivity. }
  rewrite E. destruct (existsb (jseqb x) seen).
  - apply IH. intros a b Ha Hb. apply Hinj.
    + apply in_app_or in Ha as [Ha|Ha]; apply in_or_app; [left|right; right]; assumption.
    + apply in_app_or in Hb as [Hb|Hb]; apply in_or_app; [left|right; right]; assumption.
  - cbn [map]. f_equal. apply (IH (x :: seen)). intros a b Ha Hb. apply Hinj.
    + destruct Ha as [->|Ha]; [apply in_or_app; right; left; reflexivity|].
      apply in_app_or in Ha as [Ha|Ha]; apply in_or_app; [left|right; right]; assumption.
    + destruct Hb as [->|Hb]; [apply in_or_app; right; left; reflexivity|].
      apply in_app_or in Hb as [Hb|Hb]; apply in_or_app; [left|right; right]; assumption.
Qed.

(** ** extractVariables *)

Lemma extractVariables_dedup (text : jsstring) :
  extractVariables text = dedup_first (occurrence_names text).
Proof.
  unfold extractVariables, occurrence_names, String_match_g, scan_all.
  set (ms := matched_texts (scan variable_regex (length text) 0 [] text)).
  assert (Hms : forall m, In m ms -> m = braced (slice 1 (-1) m)).
  { intros m Hm. apply matched_texts_variable in Hm as (n & -> & _).
    rewrite slice_braced. reflexivity. }
  assert (E : map (slice 1 (-1)) (Set_spread ms) = dedup_first (map (slice 1 (-1)) ms)).
  { rewrite Set_spread_dedup. unfold dedup_first.
    apply (map_dedup_seen (slice 1 (-1)) ms []).
    cbn [app]. intros a b Ha Hb Hab.
    rewrite (Hms a Ha), (Hms b Hb), Hab. reflexivity. }
  destruct ms as [|m ms']; [reflexivity|exact E].
Qed.

Lemma extractVariables_shape (text name : jsstring) :
  In name (extractVariables text) ->
  name <> [] /\ ~ In "}" name /\ contains (braced name) text.
Proof.
  rewrite extractVariables_dedup. unfold dedup_first. rewrite dedup_seen_In.
  intros [H _]. unfold occurrence_names in H.
  apply in_map_iff in H as (m & <- & Hm).
  unfold scan_all in Hm. apply matched_texts_variable in Hm as (n & -> & Hn1 & Hn2 & Hc).
  rewrite slice_braced. auto.
Qed.

(** ** normalizeContent *)

Lemma star_any_close (total : nat) :
  forall s fuel c,
    length s < fuel ->
    is_match
      (repeat_loop (rmatch total (RClass (fun _ => true))) (reset_captures []) true
         (rmatch total (RChar ">") (fun s' c' => Some (s', c'))) fuel s c)
    = existsb (Ascii.eqb ">") s.
Proof.
  induction s as [|x t IH]; intros fuel c Hf;
    (destruct fuel as [|fuel]; [inversion Hf|]); cbn [repeat_loop rmatch].
  - reflexivity.
  - rewrite reset_captures_nil.
    replace (length t =? length (x :: t)) with false
      by (symmetry; apply Nat.eqb_neq; cbn; lia).
    specialize (IH fuel c ltac:(cbn in Hf; lia)). cbn [rmatch] in IH.
    cbn [existsb]. rewrite <- IH, (Ascii.eqb_sym ">" x).
    destruct (repeat_loop _ _ _ _ fuel t c); cbn [or_else is_match].
    + rewrite orb_true_r. reflexivity.
    + destruct (Ascii.eqb x ">"); reflexivity.
Qed.

Lemma match_here_tag (total : nat) (s : jsstring) :
  is_match (match_here total tag_regex s)
  = match s with
    | x :: t =>
        Ascii.eqb x "<" &&
        match t with
        | c :: rest => is_ascii_letter c && existsb (Ascii.eqb ">") rest
        | [] => false
        end
    | [] => false
    end.
Proof.
  unfold match_here, tag_regex. cbn [rmatch].
  destruct s as [|x t]; [reflexivity|].
  destruct (Ascii.eqb x "<"); [|reflexivity].
  destruct t as [|c rest]; [reflexivity|].
  destruct (is_ascii_letter c); [|reflexivity].
  cbn [andb groups_of]. apply (star_any_close total). lia.
Qed.

Lemma search_from_tag (total : nat) (s : jsstring) :
  search_from tag_regex total s = has_tag s.
Proof.
  induction s as [|x t IH]; cbn [search_from has_tag].
  - pose proof (match_here_tag total []) as H.
    destruct (match_here total tag_regex []); [discriminate|reflexivity].
  - pose proof (match_here_tag total (x :: t)) as H. rewrite <- H, <- IH.
    destruct (match_here total tag_regex (x :: t)); reflexivity.
Qed.

Lemma RegExp_test_tag (s : jsstring) : RegExp_test tag_regex s = has_tag s.
Proof. apply search_from_tag. Qed.

Lemma includes_char_In (c : ascii) (s : jsstring) :
  includes_char c s = true <-> In c s.
Proof.
  unfold includes_char. rewrite existsb_exists. split.
  - intros (x & Hx & E). apply Ascii.eqb_eq in E. subst x. exact Hx.
  - intros H. exists c. split; [exact H|apply Ascii.eqb_refl].
Qed.

Lemma normalizeContent_cases (content : jsstring) :
  normalizeContent content
  = if has_tag content then content
    else if includes_char newline content then flat_map br_of_newline content
    else content.
Proof.
  unfold normalizeContent. rewrite RegExp_test_tag, newline_replace_chars.
  destruct content as [|x t]; [reflexivity|].
  cbn [truthy negb]. destruct (has_tag (x :: t)); reflexivity.
Qed.

Lemma has_tag_after_conversion (content : jsstring) :
  In newline content -> has_tag (flat_map br_of_newline content) = true.
Proof.
  induction content as [|x t IH]; intros H; [destruct H|].
  cbn [flat_map]. unfold br_of_newline at 1.
  destruct (Ascii.eqb x newline) eqn:E.
  - reflexivity.
  - destruct H as [H|H]; [subst x; rewrite Ascii.eqb_refl in E; discriminate|].
    cbn [app has_tag]. rewrite (IH H). apply orb_true_r.
Qed.

(** ** htmlToPlainText *)

Lemma node_induction (P : node -> Prop) :
  (forall d, P (Text d)) ->
  (forall d, P (Comment d)) ->
  (forall t cs, Forall P cs -> P (Element t cs)) ->
  forall n, P n.
Proof.
  intros HT HC HE. fix IH 1. intros [d|d|t cs].
  - apply HT.
  - apply HC.
  - apply HE. induction cs as [|c cs IHcs]; constructor; [apply IH|exact IHcs].
Qed.

Section TagRound.

Variable tag : jsstring.

Lemma count_forest_cons (c : node) (cs : list node) :
  count_forest tag (c :: cs) = count_tag tag c + count_forest tag cs.
Proof. reflexivity. Qed.

Lemma count_forest_app (a b : list node) :
  count_forest tag (a ++ b) = count_forest tag a + count_forest tag b.
Proof.
  induction a as [|c a IH]; [reflexivity|].
  cbn [app]. rewrite !count_forest_cons, IH. lia.
Qed.

Lemma count_tag_element (t : jsstring) (cs : list node) :
  count_tag tag (Element t cs)
  = (if jseqb t tag then 1 else 0) + count_forest tag cs.
Proof. reflexivity. Qed.

Lemma act_node_element (i : nat) (t : jsstring) (cs : list node) :
  act_node tag i (Element t cs)
  = if jseqb t tag then
      match i with
      | O =>
          if jseqb tag (js "br") then [Text [newline]]
          else [Element t cs; Text [newline]]
      | S i' => [Element t (act_forest tag i' cs)]
      end
    else [Element t (act_forest tag i cs)].
Proof.
  cbn [act_node].
  assert (E : forall cs0 i0,
             (fix go (i : nat) (cs : list node) {struct cs} : list node :=
                match cs with
                | [] => []
                | c :: rest =>
                    if i <? count_tag tag c then act_node tag i c ++ rest
                    else c :: go (i - count_tag tag c) rest
                end) i0 cs0 = act_forest tag i0 cs0).
  { induction cs0 as [|c cs0 IH]; intros i0; [reflexivity|].
    cbn [act_forest]. rewrite <- IH. reflexivity. }
  destruct (jseqb t tag); [destruct i|]; rewrite ?E; reflexivity.
Qed.

Lemma pass_node_element (j : nat) (t : jsstring) (cs : list node) :
  pass_node tag j (Element t cs)
  = if jseqb t tag then
      match j with
      | O =>
          if jseqb tag (js "br") then [Text [newline]]
          else [Element t (pass_forest tag 0 cs); Text [newline]]
      | S j' => [Element t (pass_forest tag j' cs)]
      end
    else [Element t (pass_forest tag j cs)].
Proof.
  cbn [pass_node].
  assert (E : forall cs0 j0,
             (fix go (j : nat) (cs : list node) {struct cs} : list node :=
                match cs with
                | [] => []
                | c :: rest => pass_node tag j c ++ go (j - count_tag tag c) rest
                end) j0 cs0 = pass_forest tag j0 cs0).
  { induction cs0 as [|c cs0 IH]; intros j0; [reflexivity|].
    cbn [pass_forest]. rewrite <- IH. reflexivity. }
  destruct (jseqb t tag); [destruct j|]; rewrite ?E; reflexivity.
Qed.

(** With nothing left to deal with the tree is untouched, and with
    everything dealt with the round is over. *)
Lemma pass_node_identity (n : node) :
  forall j, count_tag tag n <= j -> pass_node tag j n = [n].
Proof.
  induction n as [d|d|t cs IH] using node_induction; intros j Hj;
    [reflexivity|reflexivity|].
  assert (F : forall j, count_forest tag cs <= j -> pass_forest tag j cs = cs).
  { clear Hj j. induction IH as [|c cs Hc _ IHcs]; intros j Hj; [reflexivity|].
    rewrite count_forest_cons in Hj. cbn [pass_forest].
    rewrite Hc, IHcs by lia. reflexivity. }
  rewrite pass_node_element. rewrite count_tag_element in Hj.
  destruct (jseqb t tag).
  - destruct j as [|j]; [lia|]. rewrite F by lia. reflexivity.
  - rewrite F by lia. reflexivity.
Qed.

Lemma pass_forest_identity (cs : list node) :
  forall j, count_forest tag cs <= j -> pass_forest tag j cs = cs.
Proof.
  induction cs as [|c cs IH]; intros j Hj; [reflexivity|].
  rewrite count_forest_cons in Hj. cbn [pass_forest].
  rewrite pass_node_identity, IH by lia. reflexivity.
Qed.

Lemma pass_node_zero (n : node) : pass_node tag 0 n = block_pass tag n.
Proof.
  induction n as [d|d|t cs IH] using node_induction; [reflexivity|reflexivity|].
  assert (F : pass_forest tag 0 cs = flat_map (block_pass tag) cs).
  { induction IH as [|c cs Hc _ IHcs]; [reflexivity|].
    cbn [pass_forest flat_map]. rewrite Hc, Nat.sub_0_l, IHcs. reflexivity. }
  rewrite pass_node_element. cbn [block_pass]. rewrite F. reflexivity.
Qed.

Lemma pass_forest_zero (cs : list node) :
  pass_forest tag 0 cs = flat_map (block_pass tag) cs.
Proof.
  induction cs as [|c cs IH]; [reflexivity|].
  cbn [pass_forest flat_map]. rewrite pass_node_zero, Nat.sub_0_l, IH. reflexivity.
Qed.

(** The elements before number [j] are still in the collection. *)
Lemma count_pass_node (n : node) :
  forall j, Nat.min j (count_tag tag n) <= count_forest tag (pass_node tag j n).
Proof.
  induction n as [d|d|t cs IH] using node_induction; intros j;
    [cbn; lia|cbn; lia|].
  assert (F : forall j,
             Nat.min j (count_forest tag cs) <= count_forest tag (pass_forest tag j cs)).
  { clear j. induction IH as [|c cs Hc _ IHcs]; intros j; [cbn; lia|].
    cbn [pass_forest]. rewrite count_forest_app, count_forest_cons.
    specialize (Hc j). specialize (IHcs (j - count_tag tag c)). lia. }
  rewrite pass_node_element, count_tag_element.
  destruct (jseqb t tag) eqn:E.
  - destruct j as [|j]; [lia|].
    rewrite count_forest_cons, count_tag_element, E. specialize (F j).
    cbn [count_forest map list_sum]. lia.
  - rewrite count_forest_cons, count_tag_element, E. specialize (F j).
    cbn [count_forest map list_sum]. lia.
Qed.

Lemma count_pass_forest (cs : list node) :
  forall j, Nat.min j (count_forest tag cs) <= count_forest tag (pass_forest tag j cs).
Proof.
  induction cs as [|c cs IH]; intros j; [cbn; lia|].
  cbn [pass_forest]. rewrite count_forest_app, count_forest_cons.
  pose proof (count_pass_node c j). specialize (IH (j - count_tag tag c)). lia.
Qed.

Lemma act_forest_app_l (a rest : list node) :
  forall i, i < count_forest tag a ->
    act_forest tag i (a ++ rest) = act_forest tag i a ++ rest.
Proof.
  induction a as [|c a IH]; intros i Hi; [cbn in Hi; lia|].
  rewrite count_forest_cons in Hi. cbn [app act_forest].
  destruct (i <? count_tag tag c) eqn:E.
  - rewrite <- app_assoc. reflexivity.
  - apply Nat.ltb_ge in E. rewrite IH by lia. reflexivity.
Qed.

(** One iteration: when the elements from number [S i] on have been dealt
    with, acting on element number [i] leaves the tree with the elements
    from number [i] on dealt with. *)
Lemma act_pass_forest_from (cs : list node) :
  Forall (fun n => forall i, i < count_tag tag n ->
                     act_forest tag i (pass_node tag (S i) n) = pass_node tag i n) cs ->
  forall i, i < count_forest tag cs ->
    act_forest tag i (pass_forest tag (S i) cs) = pass_forest tag i cs.
Proof.
  induction 1 as [|c cs Hc _ IHcs]; intros i Hi; [cbn in Hi; lia|].
  rewrite count_forest_cons in Hi. cbn [pass_forest].
  destruct (Nat.lt_ge_cases i (count_tag tag c)) as [Hlt|Hge].
  - rewrite act_forest_app_l.
    + rewrite Hc by assumption.
      replace (S i - count_tag tag c) with 0 by lia.
      replace (i - count_tag tag c) with 0 by lia. reflexivity.
    + pose proof (count_pass_node c (S i)). lia.
  - rewrite !pass_node_identity by lia. cbn [app act_forest].
    replace (i <? count_tag tag c) with false by (symmetry; apply Nat.ltb_ge; lia).
    replace (S i - count_tag tag c) with (S (i - count_tag tag c)) by lia.
    rewrite IHcs by lia. reflexivity.
Qed.

Lemma act_pass_node (n : node) :
  forall i, i < count_tag tag n ->
    act_forest tag i (pass_node tag (S i) n) = pass_node tag i n.
Proof.
  induction n as [d|d|t cs IH] using node_induction; intros i Hi;
    [cbn in Hi; lia|cbn in Hi; lia|].
  pose proof (act_pass_forest_from cs IH) as F.
  rewrite count_tag_element in Hi. rewrite !pass_node_element.
  destruct (jseqb t tag) eqn:E.
  - destruct i as [|i].
    + cbn [act_forest]. rewrite count_tag_element, E. cbn [Nat.ltb Nat.leb Nat.add].
      rewrite act_node_element, E, app_nil_r. reflexivity.
    + cbn [act_forest]. rewrite count_tag_element, E.
      pose proof (count_pass_forest cs (S i)) as Hc.
      replace (S i <? 1 + count_forest tag (pass_forest tag (S i) cs)) with true
        by (symmetry; apply Nat.ltb_lt; lia).
      rewrite act_node_element, E, app_nil_r, F by lia. reflexivity.
  - cbn [act_forest]. rewrite count_tag_element, E.
    pose proof (count_pass_forest cs (S i)) as Hc.
    replace (i <? 0 + count_forest tag (pass_forest tag (S i) cs)) with true
      by (symmetry; apply Nat.ltb_lt; lia).
    rewrite act_node_element, E, app_nil_r, F by lia. reflexivity.
Qed.

Lemma act_pass_forest (cs : list node) :
  forall i, i < count_forest tag cs ->
    act_forest tag i (pass_forest tag (S i) cs) = pass_forest tag i cs.
Proof.
  apply act_pass_forest_from. apply Forall_forall. intros n _. apply act_pass_node.
Qed.

Lemma tag_loop_pass (temp : list node) :
  forall n, n <= count_forest tag temp ->
    tag_loop tag n (pass_forest tag n temp) = Ok (pass_forest tag 0 temp).
Proof.
  induction n as [|i IH]; intros Hn; [reflexivity|].
  cbn [tag_loop]. pose proof (count_pass_forest temp (S i)) as Hc.
  replace (i <? count_forest tag (pass_forest tag (S i) temp)) with true
    by (symmetry; apply Nat.ltb_lt; lia).
  rewrite act_pass_forest by lia. apply IH. lia.
Qed.

(** A round of the loop does not throw and deals with every element. *)
Lemma tag_round_block_pass (temp : list node) :
  tag_round tag temp = Ok (flat_map (block_pass tag) temp).
Proof.
  unfold tag_round.
  rewrite <- (pass_forest_identity temp (count_forest tag temp)) at 2 by lia.
  rewrite tag_loop_pass by lia. rewrite pass_forest_zero. reflexivity.
Qed.

End TagRound.

Lemma forEach_tags_fold (tags : list jsstring) :
  forall temp,
    forEach_tags tags temp
    = Ok (fold_left (fun cs tag => flat_map (block_pass tag) cs) tags temp).
Proof.
  induction tags as [|tag tags IH]; intros temp; [reflexivity|].
  cbn [forEach_tags fold_left]. rewrite tag_round_block_pass. cbn [bind]. apply IH.
Qed.

Lemma block_passes_app (a b : list node) :
  block_passes (a ++ b) = block_passes a ++ block_passes b.
Proof.
  unfold block_passes, blockElements. cbn [fold_left].
  rewrite !flat_map_app. reflexivity.
Qed.

Lemma block_passes_text (d : jsstring) : block_passes [Text d] = [Text d].
Proof. reflexivity. Qed.

Lemma block_passes_comment (d : jsstring) : block_passes [Comment d] = [Comment d].
Proof. reflexivity. Qed.

Lemma block_passes_element (t : jsstring) (cs : list node) :
  block_passes [Element t cs]
  = if jseqb t (js "br") then [Text [newline]]
    else Element t (block_passes cs)
           :: (if is_block t then [Text [newline]] else []).
Proof.
  unfold block_passes, blockElements, is_block. cbn [fold_left existsb].
  destruct (jsstring_eq_dec t (js "p")) as [->|Hp]; [reflexivity|].
  destruct (jsstring_eq_dec t (js "div")) as [->|Hd]; [reflexivity|].
  destruct (jsstring_eq_dec t (js "br")) as [->|Hb]; [reflexivity|].
  destruct (jsstring_eq_dec t (js "li")) as [->|Hl]; [reflexivity|].
  destruct (jsstring_eq_dec t (js "tr")) as [->|Ht].
  - cbn [flat_map block_pass app]. reflexivity.
  - apply jseqb_neq in Hp, Hd, Hb, Hl, Ht.
    cbn [flat_map block_pass app]. rewrite Hp, Hd, Hb, Hl, Ht.
    cbn [flat_map block_pass app]. rewrite ?Hp, ?Hd, ?Hb, ?Hl, ?Ht.
    cbn [flat_map block_pass app]. rewrite ?Hp, ?Hd, ?Hb, ?Hl, ?Ht.
    cbn [flat_map block_pass app]. rewrite ?Hp, ?Hd, ?Hb, ?Hl, ?Ht.
    cbn [flat_map block_pass app]. rewrite ?Hp, ?Hd, ?Hb, ?Hl, ?Ht.
    rewrite !app_nil_r. reflexivity.
Qed.

Lemma textContent_block_passes (n : node) :
  flat_map textContent (block_passes [n]) = plain_projection n.
Proof.
  induction n as [d|d|t cs IH] using node_induction.
  - rewrite block_passes_text. cbn. apply app_nil_r.
  - rewrite block_passes_comment. reflexivity.
  - rewrite block_passes_element. cbn [plain_projection].
    destruct (jseqb t (js "br")); [reflexivity|].
    cbn [flat_map textContent]. f_equal.
    + induction IH as [|c cs Hc _ IHcs]; [reflexivity|].
      change (c :: cs) with ([c] ++ cs).
      rewrite block_passes_app, !flat_map_app, Hc, IHcs. cbn. rewrite app_nil_r.
      reflexivity.
    + destruct (is_block t); reflexivity.
Qed.

Lemma textContent_block_passes_list (cs : list node) :
  flat_map textContent (block_passes cs) = flat_map plain_projection cs.
Proof.
  induction cs as [|c cs IH]; [reflexivity|].
  change (c :: cs) with ([c] ++ cs).
  rewrite block_passes_app, !flat_map_app, IH, textContent_block_passes.
  cbn. rewrite app_nil_r. reflexivity.
Qed.

Lemma or_string_self (a : jsstring) : or_string a (or_string a []) = a.
Proof. destruct a; reflexivity. Qed.

Lemma htmlToPlainText_projection (parseFragment : jsstring -> list node)
    (html : jsstring) :
  htmlToPlainText parseFragment html
  = Ok (flat_map plain_projection (parseFragment html)).
Proof.
  unfold htmlToPlainText. rewrite forEach_tags_fold. cbn [bind].
  fold (block_passes (parseFragment html)).
  rewrite or_string_self, textContent_block_passes_list. reflexivity.
Qed.

Lemma plain_projection_chars (n : node) (x : ascii) :
  In x (plain_projection n) -> x = newline \/ In x (textContent n).
Proof.
  induction n as [d|d|t cs IH] using node_induction; cbn [plain_projection textContent].
  - auto.
  - intros [].
  - destruct (jseqb t (js "br")).
    + intros [<-|[]]. left. reflexivity.
    + intros H. apply in_app_or in H as [H|H].
      * apply in_flat_map in H as (c & Hc & Hx).
        rewrite Forall_forall in IH. destruct (IH c Hc Hx) as [->|Hy]; [left; reflexivity|].
        right. apply in_flat_map. exists c. split; assumption.
      * destruct (is_block t); [|destruct H]. destruct H as [<-|[]]. left. reflexivity.
Qed.

(** ** suggestContent *)

Lemma suggestContent_sends_request (env : option jsstring)
    (provider : request -> option jsstring + js_error)
    (currentContent instruction : jsstring) (w : world) :
  apiKey env <> [] ->
  net_requests (snd (suggestContent env provider currentContent instruction w))
  = net_requests w
      ++ [{| req_model := js "gemini-2.5-flash";
             req_contents := prompt_of currentContent instruction |}].
Proof.
  intros H. unfold suggestContent. apply truthy_nonempty in H. rewrite H. cbn [negb].
  unfold try_catch, io_bind, generateContent.
  destruct (provider _) as [[text|]|e]; reflexivity.
Qed.

(** ** Escaped values, and the scenarios of the specification *)

Lemma plain_entries_In (values : VariableMap) (k v : jsstring) :
  plain_entries values = true -> In (k, v) values ->
  plain_key k = true /\ plain_value v = true.
Proof.
  unfold plain_entries. rewrite forallb_forall. intros H Hin.
  apply H in Hin. apply andb_true_iff in Hin. exact Hin.
Qed.

Lemma escape_value_no_angle (v : jsstring) (x : ascii) :
  In x (escape_value v) -> x <> "<" /\ x <> ">".
Proof.
  rewrite escape_value_chars, in_flat_map. intros (c & _ & Hx).
  unfold escape_char in Hx.
  destruct (Ascii.eqb c "&") eqn:E1;
    [|destruct (Ascii.eqb c "<") eqn:E2; [|destruct (Ascii.eqb c ">") eqn:E3]];
    cbn [js list_ascii_of_string In] in Hx.
  4:{ destruct Hx as [<-|[]]. apply Ascii.eqb_neq in E2, E3. split; assumption. }
  all: repeat (destruct Hx as [<-|Hx]; [split; discriminate|]); destruct Hx.
Qed.

Example extractVariables_scenario :
  extractVariables (js "Hello {name}, your due date is {due_date}.")
  = [js "name"; js "due_date"].
Proof. vm_compute. reflexivity. Qed.

Example replaceVariables_scenario :
  replaceVariables (js "Hello {name}, your due date is {due_date}.")
    [(js "name", js "Anna")]
  = Ok (js "Hello Anna, your due date is {due_date}.").
Proof. vm_compute. reflexivity. Qed.

Example replaceVariables_escaping_scenario :
  replaceVariables (js "<b>{x}</b> & friends") [(js "x", js "<script>")]
  = Ok (js "<b>&lt;script&gt;</b> & friends").
Proof. vm_compute. reflexivity. Qed.

(** ** Key after key is all keys at once

    On a well-braced text, with keys and values without special characters,
    the replacements of [replaceVariables] one key after the other amount
    to one simultaneous substitution: every placeholder with a filled key
    becomes the escaped value, everything else stays. *)

Lemma jseqb_sym (a b : jsstring) : jseqb a b = jseqb b a.
Proof.
  destruct (jseqb b a) eqn:E.
  - apply jseqb_eq in E. subst. apply jseqb_refl.
  - apply jseqb_neq in E. apply jseqb_neq. congruence.
Qed.

Lemma substitute_segment_Lit (values : VariableMap) (w : jsstring) :
  flat_map (substitute_segment values) (map Lit w) = map Lit w.
Proof. induction w as [|c w IH]; [reflexivity|]. cbn. f_equal. exact IH. Qed.

Lemma fill_all_simultaneous (values : VariableMap) :
  forall segs, fill_all segs values = flat_map (substitute_segment values) segs.
Proof.
  induction values as [|[k v] rest IH]; intros segs.
  - cbn [fill_all fold_left]. induction segs as [|[c|n] segs IHs]; [reflexivity| |];
      cbn; f_equal; exact IHs.
  - cbn [fill_all fold_left]. fold (fill_all (fill_entry segs (k, v)) rest).
    rewrite IH. unfold fill_entry. cbn [fst snd].
    induction segs as [|sg segs IHs]; [destruct (truthy v); reflexivity|].
    cbn [flat_map]. rewrite <- IHs. clear IHs.
    destruct (truthy v) eqn:Tv.
    + change (fill k (escape_value v) (sg :: segs))
        with (fill_segment k (escape_value v) sg ++ fill k (escape_value v) segs).
      rewrite flat_map_app. f_equal.
      destruct sg as [c|n]; [reflexivity|].
      cbn [fill_segment substitute_segment first_filled fst snd].
      rewrite (jseqb_sym k n), Tv, andb_true_r.
      destruct (jseqb n k).
      * apply substitute_segment_Lit.
      * cbn. apply app_nil_r.
    + cbn [flat_map]. f_equal.
      destruct sg as [c|n]; [reflexivity|].
      cbn [substitute_segment first_filled fst snd].
      rewrite Tv, andb_false_r. reflexivity.
Qed.

Lemma replaceVariables_simultaneous (values : VariableMap) (segs : list segment) :
  plain_entries values = true -> Forall segment_ok segs ->
  replaceVariables (render segs) values
  = Ok (render (flat_map (substitute_segment values) segs)).
Proof.
  intros Hv Hok. rewrite replaceVariables_segments by assumption.
  rewrite fill_all_simultaneous. reflexivity.
Qed.

(** A brace without its partner is ordinary text. *)
Example unbalanced_braces_pass_through :
  extractVariables (js "a } b { c") = []
  /\ extractVariables (js "{}") = []
  /\ replaceVariables (js "a } b { c") [(js "c", js "x")] = Ok (js "a } b { c")
  /\ normalizeContent (js "{ a") = js "{ a".
Proof. repeat split; vm_compute; reflexivity. Qed.

(** Outside these conditions the replacements interfere: a value with a
    brace or a dollar sign, or a key with a syntax character, leaves or
    forms a placeholder, and a second substitution changes the text. *)
Example replaceVariables_outside_conditions :
  replaceVariables (js "{a}") [(js "a", js "{a}")] = Ok (js "{a}")
  /\ replaceVariables (js "{a}") [(js "a", js "$&x")] = Ok (js "{a}amp;x")
  /\ replaceVariables (js "{a}amp;x") [(js "a", js "$&x")] = Ok (js "{a}amp;xamp;x")
  /\ replaceVariables (js "{a+b}") [(js "a+b", js "x")] = Ok (js "{a+b}")
  /\ replaceVariables (js "{|x}}") [(js "|x", js "x")] = Ok (js "x|x}")
  /\ replaceVariables (js "x|x}") [(js "|x", js "x")] = Ok (js "x|x").
Proof. repeat split; vm_compute; reflexivity. Qed.

(** ** The rounds of a quantifier

    The result of a quantified pattern does not depend on the number of
    rounds allowed, as long as it exceeds the length of the input. *)

Lemma repeat_loop_ext (m : mcont -> jsstring -> captures -> mresult)
    (rst : captures -> captures) (g : bool) :
  (forall k1 k2 s c,
      (forall s' c', length s' <= length s -> k1 s' c' = k2 s' c') ->
      m k1 s c = m k2 s c) ->
  forall fuel k1 k2 s c,
    (forall s' c', length s' <= length s -> k1 s' c' = k2 s' c') ->
    repeat_loop m rst g k1 fuel s c = repeat_loop m rst g k2 fuel s c.
Proof.
  intros Hm. induction fuel as [|fuel IH]; intros k1 k2 s c H; cbn [repeat_loop].
  - apply H. lia.
  - rewrite (H s c) by lia.
    rewrite (Hm (fun s' c' => if length s' =? length s then None
                              else repeat_loop m rst g k1 fuel s' c')
                (fun s' c' => if length s' =? length s then None
                              else repeat_loop m rst g k2 fuel s' c')).
    + reflexivity.
    + intros s' c' Hs'. destruct (length s' =? length s); [reflexivity|].
      apply IH. intros s'' c'' Hs''. apply H. lia.
Qed.

Lemma rmatch_ext (total : nat) (r : regex) :
  forall k1 k2 s c,
    (forall s' c', length s' <= length s -> k1 s' c' = k2 s' c') ->
    rmatch total r k1 s c = rmatch total r k2 s c.
Proof.
  induction r as [| a | | p | | | r1 IH1 r2 IH2 | r1 IH1 r2 IH2
                 | g r IH | g r IH | g r IH | n r IH];
    intros k1 k2 s c H; cbn [rmatch].
  - apply H. lia.
  - destruct s as [|x s']; [reflexivity|]. destruct (Ascii.eqb x a); [|reflexivity].
    apply H. cbn. lia.
  - destruct s as [|x s']; [reflexivity|]. destruct (is_line_terminator x); [reflexivity|].
    apply H. cbn. lia.
  - destruct s as [|x s']; [reflexivity|]. destruct (p x); [|reflexivity].
    apply H. cbn. lia.
  - destruct (length s =? total); [|reflexivity]. apply H. lia.
  - destruct s; [|reflexivity]. apply H. lia.
  - apply IH1. intros s' c' Hs'. apply IH2. intros s'' c'' Hs''. apply H. lia.
  - rewrite (IH1 k1 k2 s c H), (IH2 k1 k2 s c H). reflexivity.
  - apply repeat_loop_ext; assumption.
  - apply IH. intros s' c' Hs'. apply repeat_loop_ext; [exact IH|].
    intros s'' c'' Hs''. apply H. lia.
  - rewrite (H s c) by lia.
    rewrite (IH (fun s' c' => if length s' =? length s then None else k1 s' c')
                (fun s' c' => if length s' =? length s then None else k2 s' c')).
    + reflexivity.
    + intros s' c' Hs'. destruct (length s' =? length s); [reflexivity|]. apply H. lia.
  - apply IH. intros s' c' Hs'. apply H. lia.
Qed.

Lemma repeat_loop_fuel (total : nat) (r : regex) (rst : captures -> captures)
    (g : bool) (k : mcont) :
  forall n s c fuel1 fuel2,
    length s <= n -> length s < fuel1 -> length s < fuel2 ->
    repeat_loop (rmatch total r) rst g k fuel1 s c
    = repeat_loop (rmatch total r) rst g k fuel2 s c.
Proof.
  induction n as [|n IH]; intros s c fuel1 fuel2 Hn H1 H2;
    (destruct fuel1 as [|f1]; [inversion H1|]);
    (destruct fuel2 as [|f2]; [inversion H2|]); cbn [repeat_loop].
  - rewrite (rmatch_ext total r
               (fun s' c' => if length s' =? length s then None
                             else repeat_loop (rmatch total r) rst g k f1 s' c')
               (fun s' c' => if length s' =? length s then None
                             else repeat_loop (rmatch total r) rst g k f2 s' c')).
    + reflexivity.
    + intros s' c' Hs'. destruct (length s' =? length s) eqn:E; [reflexivity|].
      apply Nat.eqb_neq in E. lia.
  - rewrite (rmatch_ext total r
               (fun s' c' => if length s' =? length s then None
                             else repeat_loop (rmatch total r) rst g k f1 s' c')
               (fun s' c' => if length s' =? length s then None
                             else repeat_loop (rmatch total r) rst g k f2 s' c')).
    + reflexivity.
    + intros s' c' Hs'. destruct (length s' =? length s) eqn:E; [reflexivity|].
      apply Nat.eqb_neq in E. apply IH; lia.
Qed.

Lemma rmatch_star_rounds (total : nat) (r : regex) (g : bool) (k : mcont)
    (s : jsstring) (c : captures) (fuel : nat) :
  length s < fuel ->
  repeat_loop (rmatch total r) (reset_captures (groups_of r)) g k fuel s c
  = rmatch total (RStar g r) k s c.
Proof.
  intros H. cbn [rmatch]. apply (repeat_loop_fuel total r _ g k (length s)); lia.
Qed.

(** A content that passes the test of the code contains a markup tag. *)
Lemma has_tag_markup_tag (s : jsstring) : has_tag s = true -> markup_tag s = true.
Proof.
  induction s as [|x t IH]; [discriminate|].
  cbn [has_tag markup_tag]. intros H. apply orb_true_iff in H as [H|H].
  - apply andb_true_iff in H as [Hx H]. destruct t as [|c rest]; [discriminate|].
    apply andb_true_iff in H as [Hc Hr].
    rewrite Hx. cbn [opens_markup existsb]. rewrite Hc, Hr.
    rewrite !orb_true_r. reflexivity.
  - rewrite (IH H). apply orb_true_r.
Qed.

(** * The claims *)

(** C1 (as amended).  When every opening brace of the content starts a
    [{name}] span with a brace-free name, the keys of the map contain no
    syntax character of the pattern language and its values contain neither
    an opening brace nor a dollar sign, [replaceVariables] returns the
    content with every placeholder whose name is a key with a non-empty
    value replaced by that value, escaped, and everything else unchanged.
    The result contains no [{name}] for any key with a non-empty value, and
    still contains [{name}] for every placeholder name of the content that
    the map lacks or maps to the empty string. *)
Theorem replaceVariables_fills_and_keeps (content : jsstring) (values : VariableMap) :
  well_braced content = true ->
  plain_entries values = true ->
  exists result,
    replaceVariables content values = Ok result /\
    (exists segs,
        content = render segs /\
        result = render (flat_map (substitute_segment values) segs)) /\
    (forall name value,
        In (name, value) values -> value <> [] -> ~ contains (braced name) result) /\
    (forall name,
        In name (extractVariables content) ->
        (forall value, In (name, value) values -> value = []) ->
        contains (braced name) result).
Proof.
  intros Hwb Hpl. destruct (well_braced_segments content Hwb) as (segs & -> & Hok).
  exists (render (fill_all segs values)). split; [|split; [|split]].
  - apply replaceVariables_segments; assumption.
  - exists segs. rewrite fill_all_simultaneous. split; reflexivity.
  - intros name value Hin Hv Hc.
    destruct (plain_entries_In values name value Hpl Hin) as [Hk _].
    apply contains_braced_render in Hc;
      [|apply plain_key_no_close; exact Hk|apply fill_all_ok; assumption].
    revert Hc. apply fill_all_filled_absent with (v := value); assumption.
  - intros name Hname Hun.
    destruct (extractVariables_shape _ _ Hname) as (_ & Hnc & Hc).
    apply render_contains_Ph, fill_all_unfilled_kept; [exact Hun|].
    apply contains_braced_render; assumption.
Qed.

Lemma replaceVariables_fills_and_keeps_witness :
  exists result,
    replaceVariables (js "Hello {name}, your due date is {due_date}.")
      [(js "name", js "Anna")] = Ok result /\
    (exists segs,
        js "Hello {name}, your due date is {due_date}." = render segs /\
        result = render (flat_map (substitute_segment [(js "name", js "Anna")]) segs)) /\
    (forall name value,
        In (name, value) [(js "name", js "Anna")] -> value <> [] ->
        ~ contains (braced name) result) /\
    (forall name,
        In name (extractVariables (js "Hello {name}, your due date is {due_date}.")) ->
        (forall value, In (name, value) [(js "name", js "Anna")] -> value = []) ->
        contains (braced name) result).
Proof.
  apply (replaceVariables_fills_and_keeps
           (js "Hello {name}, your due date is {due_date}.") [(js "name", js "Anna")]);
    reflexivity.
Defined.

(** C1 as stated fails: with nested braces in the content the key [a] has a
    non-empty value and the result still contains [{a}]. *)
Lemma replaceVariables_nested_braces_leave_literal :
  replaceVariables (js "{{a}}") [(js "a", js "a")] = Ok (js "{a}")
  /\ In (js "a", js "a") [(js "a", js "a")]
  /\ js "a" <> []
  /\ contains (braced (js "a")) (js "{a}").
Proof.
  split; [vm_compute; reflexivity|]. split; [left; reflexivity|].
  split; [discriminate|]. exists [], []. reflexivity.
Qed.

(** C2.  The code does not keep what the claim says: a value is escaped for
    [&], [<] and [>] but then used as a replacement pattern, so the value
    [$'] inserts the markup that follows the placeholder; and a key is used
    as a pattern, so a later key can cut an inserted [&amp;] back to a bare
    [&]. *)
Theorem replaceVariables_value_breaks_markup :
  replaceVariables (js "<b>{x}</b>") [(js "x", js "$'")] = Ok (js "<b></b></b>")
  /\ replaceVariables (js "{a}}{?amp;}") [(js "a", js "&"); (js "?amp;", js "x")]
     = Ok (js "&x{?x").
Proof. split; vm_compute; reflexivity. Qed.

(** C3 (as amended).  Under the conditions of C1 on the content, the keys
    and the values, substituting twice with the same map gives the result
    of substituting once. *)
Theorem replaceVariables_idempotent (content : jsstring) (values : VariableMap) :
  well_braced content = true ->
  plain_entries values = true ->
  exists result,
    replaceVariables content values = Ok result /\
    replaceVariables result values = Ok result.
Proof.
  intros Hwb Hpl. destruct (well_braced_segments content Hwb) as (segs & -> & Hok).
  exists (render (fill_all segs values)). split.
  - apply replaceVariables_segments; assumption.
  - rewrite replaceVariables_segments; auto using fill_all_ok.
    rewrite fill_all_idempotent. reflexivity.
Qed.

Lemma replaceVariables_idempotent_witness :
  exists result,
    replaceVariables (js "<b>{x}</b> & {y}") [(js "x", js "<script>"); (js "y", [])]
    = Ok result /\
    replaceVariables result [(js "x", js "<script>"); (js "y", [])] = Ok result.
Proof.
  apply (replaceVariables_idempotent (js "<b>{x}</b> & {y}")
           [(js "x", js "<script>"); (js "y", [])]); reflexivity.
Defined.

(** C3 as stated fails: the value has no brace, and the second substitution
    changes the result of the first. *)
Lemma replaceVariables_twice_differs :
  forallb (fun c => negb (Ascii.eqb c "{" || Ascii.eqb c "}")) (js "a") = true
  /\ replaceVariables (js "{{a}}") [(js "a", js "a")] = Ok (js "{a}")
  /\ replaceVariables (js "{a}") [(js "a", js "a")] = Ok (js "a")
  /\ js "{a}" <> js "a".
Proof. repeat split; try (vm_compute; reflexivity). discriminate. Qed.



(** C5 (as amended).  Every name returned by [extractVariables] is the
    inner text of a [{...}] span of the text; it is not empty and contains
    no closing brace.  (It may contain an opening brace.) *)
Theorem extractVariables_name_shape (text name : jsstring) :
  In name (extractVariables text) ->
  name <> [] /\ ~ In "}" name /\ contains (braced name) text.
Proof. apply extractVariables_shape. Qed.

Lemma extractVariables_name_shape_witness :
  js "name" <> [] /\ ~ In "}" (js "name")
  /\ contains (braced (js "name")) (js "Hello {name}").
Proof.
  apply (extractVariables_name_shape (js "Hello {name}") (js "name")).
  left. reflexivity.
Defined.

(** C5 as stated fails: a returned name can contain an opening brace. *)
Lemma extractVariables_name_with_open_brace :
  extractVariables (js "{{a}") = [js "{a"]
  /\ In (js "{a") (extractVariables (js "{{a}"))
  /\ In "{" (js "{a").
Proof.
  split; [vm_compute; reflexivity|]. split; left; reflexivity.
Qed.

(** C6.  The code does not keep what the claim says: a key is used as a
    pattern, and [new RegExp] throws on the key [(], a name that
    [extractVariables] returns for the content [{(}]. *)
Theorem replaceVariables_throws_on_paren_key :
  extractVariables (js "{(}") = [js "("]
  /\ replaceVariables (js "{(}") [(js "(", [])]
     = Throw (SyntaxError "Unterminated group").
Proof. split; vm_compute; reflexivity. Qed.

(** C7 (as amended).  A content that does not pass the test of the code
    (no [<] directly followed by a letter with a [>] after it) and has a
    line feed gets every line feed replaced by [<br>]; this is the case of
    every content with a line feed and no markup tag at all.  A content
    that passes the test is returned as it is, line feeds included. *)
Theorem normalizeContent_converts_newlines :
  (forall content,
      has_tag content = false -> In newline content ->
      normalizeContent content = flat_map br_of_newline content)
  /\ (forall content,
        markup_tag content = false -> In newline content ->
        normalizeContent content = flat_map br_of_newline content)
  /\ (forall content, has_tag content = true -> normalizeContent content = content)
  /\ normalizeContent (js "Line one
Line two") = js "Line one<br>Line two".
Proof.
  assert (H1 : forall content,
             has_tag content = false -> In newline content ->
             normalizeContent content = flat_map br_of_newline content).
  { intros content Ht Hn. rewrite normalizeContent_cases, Ht.
    apply includes_char_In in Hn. rewrite Hn. reflexivity. }
  split; [exact H1|]. split; [|split].
  - intros content Hm Hn. apply H1; [|exact Hn].
    destruct (has_tag content) eqn:Ht; [|reflexivity].
    apply has_tag_markup_tag in Ht. congruence.
  - intros content Ht. rewrite normalizeContent_cases, Ht. reflexivity.
  - vm_compute. reflexivity.
Qed.

Lemma normalizeContent_converts_newlines_witness :
  normalizeContent (js "a
b
c") = js "a<br>b<br>c"
  /\ normalizeContent (js "1 < 2
2 > 1") = js "1 < 2<br>2 > 1"
  /\ normalizeContent (js "<b>a</b>
b") = js "<b>a</b>
b".
Proof.
  destruct normalizeContent_converts_newlines as (H1 & H2 & H3 & _).
  split; [|split].
  - apply (H1 (js "a
b
c")); [reflexivity|]. right. left. reflexivity.
  - apply (H2 (js "1 < 2
2 > 1")); [reflexivity|]. do 5 right. left. reflexivity.
  - apply (H3 (js "<b>a</b>
b")). reflexivity.
Defined.

(** The claim as first stated fails: a content whose only markup is an
    end tag, or a comment, contains a markup tag and is changed all the
    same. *)
Lemma normalizeContent_end_tag_converted :
  markup_tag (js "a</b>
b") = true
  /\ normalizeContent (js "a</b>
b") = js "a</b><br>b"
  /\ normalizeContent (js "a</b>
b") <> js "a</b>
b"
  /\ markup_tag (js "<!-- note -->
b") = true
  /\ normalizeContent (js "<!-- note -->
b") = js "<!-- note --><br>b".
Proof. repeat split; try (vm_compute; reflexivity). vm_compute. discriminate. Qed.

(** C8.  On the tree the browser builds from the markup, the loops of
    [htmlToPlainText] do not throw, and the function returns the text of
    the tree in document order, with one line feed for each line break and
    one line feed after each paragraph, division, list item and row; every
    character of the result is a line feed or a character of a text node.
    For the markup [<p>Hi</p><p>There</p>], whose tree is two paragraphs
    with one text each, the result is [Hi], line feed, [There], line
    feed. *)
Theorem htmlToPlainText_block_newlines (parseFragment : jsstring -> list node) :
  (forall html,
      htmlToPlainText parseFragment html
      = Ok (flat_map plain_projection (parseFragment html)))
  /\ (forall html x,
         In x (flat_map plain_projection (parseFragment html)) ->
         x = newline \/ In x (flat_map textContent (parseFragment html)))
  /\ (parseFragment (js "<p>Hi</p><p>There</p>")
      = [Element (js "p") [Text (js "Hi")]; Element (js "p") [Text (js "There")]] ->
      htmlToPlainText parseFragment (js "<p>Hi</p><p>There</p>") = Ok (js "Hi
There
")).
Proof.
  split; [apply htmlToPlainText_projection|]. split.
  - intros html x. rewrite !in_flat_map.
    intros (n & Hn & Hx). destruct (plain_projection_chars n x Hx) as [->|H].
    + left. reflexivity.
    + right. exists n. split; assumption.
  - intros H. rewrite htmlToPlainText_projection, H. reflexivity.
Qed.

Lemma htmlToPlainText_block_newlines_witness :
  htmlToPlainText
    (fun _ => [Element (js "p") [Text (js "Hi")]; Element (js "p") [Text (js "There")]])
    (js "<p>Hi</p><p>There</p>")
  = Ok (js "Hi
There
")
  /\ ("b" = newline
      \/ In "b"
           (flat_map textContent
              [Element (js "div") [Text (js "a"); Element (js "br") []; Text (js "b")]])).
Proof.
  split.
  - destruct (htmlToPlainText_block_newlines
                (fun _ => [Element (js "p") [Text (js "Hi")];
                           Element (js "p") [Text (js "There")]])) as (_ & _ & H).
    apply H. reflexivity.
  - destruct (htmlToPlainText_block_newlines
                (fun _ => [Element (js "div")
                             [Text (js "a"); Element (js "br") []; Text (js "b")]]))
      as (_ & H & _).
    apply (H [] "b"). vm_compute. right. right. left. reflexivity.
Defined.

(** C9.  Without an API key [suggestContent] is rejected with an error and
    the world is unchanged: no request is sent to the provider. *)
Theorem suggestContent_no_key_no_request (env : option jsstring)
    (provider : request -> option jsstring + js_error)
    (currentContent instruction : jsstring) (w : world) :
  apiKey env = [] ->
  suggestContent env provider currentContent instruction w
  = (inr (Error "API Key chưa được cấu hình."), w).
Proof. intros H. unfold suggestContent. rewrite H. reflexivity. Qed.

Lemma suggestContent_no_key_no_request_witness :
  suggestContent None (fun _ => inl (Some (js "rewritten")))
    (js "Hello {name}") (js "shorter")
    {| net_requests := []; console_errors := [] |}
  = (inr (Error "API Key chưa được cấu hình."),
     {| net_requests := []; console_errors := [] |}).
Proof.
  apply (suggestContent_no_key_no_request None). reflexivity.
Defined.

(** C10.  [normalizeContent] is idempotent. *)
Theorem normalizeContent_idempotent (content : jsstring) :
  normalizeContent (normalizeContent content) = normalizeContent content.
Proof.
  rewrite (normalizeContent_cases content).
  destruct (has_tag content) eqn:Ht.
  - rewrite normalizeContent_cases, Ht. reflexivity.
  - destruct (includes_char newline content) eqn:Hn.
    + rewrite normalizeContent_cases, has_tag_after_conversion; [reflexivity|].
      apply includes_char_In. exact Hn.
    + rewrite normalizeContent_cases, Ht, Hn. reflexivity.
Qed.

(** * Further properties

    Properties of the engine beyond the claims, and of the services and
    handlers around it. *)

(** ** A key put back as it was *)

Lemma replace_from_self (p : jsstring) :
  p <> [] -> dollar_free p = true ->
  forall n s total rb, length s <= n ->
    replace_from (literal_regexp (literal_pattern p)) p total rb s = s.
Proof.
  intros Hp Hd. induction n as [|n IH]; intros s total rb Hlen.
  - destruct s; [|cbn in Hlen; lia]. apply literal_scan_end; assumption.
  - destruct s as [|x t]; [apply literal_scan_end; assumption|].
    destruct (strip_prefix p (x :: t)) as [r|] eqn:E.
    + apply strip_prefix_Some in E. rewrite E.
      rewrite literal_scan_hit by assumption. f_equal. apply IH.
      assert (L : length (x :: t) = length p + length r) by (rewrite E; apply length_app).
      destruct p; [congruence|]. cbn [length] in *. lia.
    + rewrite literal_scan_miss by assumption. f_equal. apply IH.
      cbn [length] in Hlen. lia.
Qed.

Lemma replace_entry_empty_value (text k : jsstring) :
  plain_key k = true -> replace_entry text (k, []) = Ok text.
Proof.
  intros Hk. unfold replace_entry. rewrite RegExp_new_plain by assumption.
  cbn [bind truthy]. f_equal.
  apply (replace_from_self (braced k)) with (n := length text);
    [discriminate|apply plain_key_braced_dollar_free; assumption|lia].
Qed.

Lemma forEach_entries_empty_values (values : VariableMap) :
  (forall k v, In (k, v) values -> plain_key k = true /\ v = []) ->
  forall text, forEach_entries text values = Ok text.
Proof.
  induction values as [|[k v] rest IH]; intros H text.
  - reflexivity.
  - destruct (H k v (or_introl eq_refl)) as [Hk ->].
    cbn [forEach_entries]. rewrite replace_entry_empty_value by assumption.
    cbn [bind]. apply IH. intros k' v' Hin. apply H. right. exact Hin.
Qed.

(** X1.  A values map whose keys have no pattern syntax character and whose
    values are all empty, as the map the application starts from, leaves
    every text as it is. *)
Theorem replaceVariables_unfilled_is_identity (content : jsstring) (values : VariableMap) :
  (forall k v, In (k, v) values -> plain_key k = true /\ v = []) ->
  replaceVariables content values = Ok content.
Proof. intros H. apply forEach_entries_empty_values. exact H. Qed.

Lemma replaceVariables_unfilled_is_identity_witness :
  replaceVariables (js "Hi {ten}, <b>{{x}</b> }") [(js "ten", []); (js "x", [])]
  = Ok (js "Hi {ten}, <b>{{x}</b> }").
Proof.
  apply replaceVariables_unfilled_is_identity.
  intros k v [E|[E|[]]]; injection E as <- <-; split; reflexivity.
Defined.

(** ** The placeholders of a well-braced text *)

Lemma take_name_run (n rest : jsstring) :
  ~ In "}" n -> take_name (n ++ "}" :: rest) = n.
Proof.
  induction n as [|a n IH]; intros H; [reflexivity|].
  cbn [app take_name]. unfold not_close_brace.
  destruct (Ascii.eqb a "}") eqn:E.
  - apply Ascii.eqb_eq in E. subst a. exfalso. apply H. left. reflexivity.
  - cbn [negb]. f_equal. apply IH. intros Hn. apply H. right. exact Hn.
Qed.

Lemma drop_name_run (n rest : jsstring) :
  ~ In "}" n -> drop_name (n ++ "}" :: rest) = "}" :: rest.
Proof.
  induction n as [|a n IH]; intros H; [reflexivity|].
  cbn [app drop_name]. unfold not_close_brace.
  destruct (Ascii.eqb a "}") eqn:E.
  - apply Ascii.eqb_eq in E. subst a. exfalso. apply H. left. reflexivity.
  - cbn [negb]. apply IH. intros Hn. apply H. right. exact Hn.
Qed.

Lemma matched_texts_render (total : nat) (segs : list segment) :
  Forall segment_ok segs ->
  forall rb,
    matched_texts (scan variable_regex total 0 rb (render segs))
    = map braced (placeholder_names segs).
Proof.
  induction 1 as [|sg segs Hsg Hok IH]; intros rb.
  - cbn [render flat_map]. rewrite scan_end_miss; [reflexivity|].
    apply match_here_variable.
  - destruct sg as [c|n]; cbn [segment_ok] in Hsg.
    + change (render (Lit c :: segs)) with (c :: render segs).
      rewrite scan_miss.
      * cbn [matched_texts flat_map app]. apply IH.
      * rewrite match_here_variable.
        destruct (Ascii.eqb c "{") eqn:E; [|reflexivity].
        apply Ascii.eqb_eq in E. contradiction.
    + destruct Hsg as [_ Hn].
      change (render (Ph n :: segs)) with (braced n ++ render segs).
      destruct n as [|a n].
      * change (braced [] ++ render segs) with ("{" :: "}" :: render segs).
        rewrite scan_miss by (rewrite match_here_variable; reflexivity).
        rewrite scan_miss by (rewrite match_here_variable; reflexivity).
        cbn [matched_texts flat_map app]. apply IH.
      * rewrite scan_hit with (caps := [(1, a :: n)]); [|discriminate|].
        -- cbn [matched_texts flat_map app placeholder_names map].
           f_equal. apply IH.
        -- rewrite match_here_variable. unfold braced.
           cbn [app]. rewrite <- app_assoc. cbn [app Ascii.eqb Bool.eqb].
           change (a :: n ++ "}" :: render segs) with ((a :: n) ++ "}" :: render segs).
           rewrite take_name_run, drop_name_run by assumption. reflexivity.
Qed.

Lemma occurrence_names_render (segs : list segment) :
  Forall segment_ok segs ->
  occurrence_names (render segs) = placeholder_names segs.
Proof.
  intros Hok. unfold occurrence_names, scan_all.
  rewrite matched_texts_render by assumption.
  rewrite map_map. erewrite map_ext; [apply map_id|].
  intros n. apply slice_braced.
Qed.

Lemma placeholder_names_app (a b : list segment) :
  placeholder_names (a ++ b) = placeholder_names a ++ placeholder_names b.
Proof. apply flat_map_app. Qed.

Lemma placeholder_names_Lit (w : jsstring) : placeholder_names (map Lit w) = [].
Proof. induction w as [|c w IH]; [reflexivity|exact IH]. Qed.

Lemma placeholder_names_substitute (values : VariableMap) (segs : list segment) :
  placeholder_names (flat_map (substitute_segment values) segs)
  = filter (unfilled values) (placeholder_names segs).
Proof.
  induction segs as [|sg segs IH]; [reflexivity|].
  cbn [flat_map]. rewrite placeholder_names_app, IH.
  change (placeholder_names (sg :: segs)) with (placeholder_names ([sg] ++ segs)).
  rewrite (placeholder_names_app [sg] segs), filter_app. f_equal.
  destruct sg as [c|n]; [reflexivity|].
  cbn [substitute_segment]. unfold unfilled.
  destruct n as [|a n].
  - destruct (first_filled values []); [apply placeholder_names_Lit|reflexivity].
  - cbn [placeholder_names flat_map app filter].
    destruct (first_filled values (a :: n));
      [rewrite placeholder_names_Lit|]; reflexivity.
Qed.

Lemma substitute_segment_ok (values : VariableMap) (segs : list segment) :
  plain_entries values = true -> Forall segment_ok segs ->
  Forall segment_ok (flat_map (substitute_segment values) segs).
Proof.
  intros Hv Hok. rewrite <- fill_all_simultaneous. apply fill_all_ok; assumption.
Qed.

Lemma dedup_seen_filter (f : jsstring -> bool) (l : list jsstring) :
  forall seen seen',
    (forall y, f y = true -> existsb (jseqb y) seen = existsb (jseqb y) seen') ->
    dedup_seen seen (filter f l) = filter f (dedup_seen seen' l).
Proof.
  induction l as [|x l IH]; intros seen seen' H; [reflexivity|].
  cbn [filter dedup_seen]. destruct (f x) eqn:Fx.
  - cbn [dedup_seen]. rewrite (H x Fx).
    destruct (existsb (jseqb x) seen'); [apply IH; exact H|].
    cbn [filter]. rewrite Fx. f_equal. apply IH.
    intros y Fy. cbn [existsb]. rewrite (H y Fy). reflexivity.
  - destruct (existsb (jseqb x) seen'); [apply IH; exact H|].
    cbn [filter]. rewrite Fx. apply IH.
    intros y Fy. cbn [existsb]. rewrite (H y Fy).
    destruct (jseqb y x) eqn:E; [|reflexivity].
    apply jseqb_eq in E. subst y. congruence.
Qed.

(** X2.  On a well-braced text, with keys and values without special
    characters, the placeholders of the filled text are the placeholders
    of the text that no entry fills, in the same order. *)
Theorem extractVariables_after_replaceVariables (content : jsstring)
    (values : VariableMap) :
  well_braced content = true -> plain_entries values = true ->
  exists result,
    replaceVariables content values = Ok result
    /\ extractVariables result
       = filter (unfilled values) (extractVariables content).
Proof.
  intros Hwb Hv. destruct (well_braced_segments _ Hwb) as (segs & -> & Hok).
  exists (render (flat_map (substitute_segment values) segs)).
  split; [apply replaceVariables_simultaneous; assumption|].
  rewrite !extractVariables_dedup.
  rewrite !occurrence_names_render by auto using substitute_segment_ok.
  rewrite placeholder_names_substitute. unfold dedup_first.
  apply dedup_seen_filter. reflexivity.
Qed.

Lemma extractVariables_after_replaceVariables_witness :
  exists result,
    replaceVariables (js "{a} and {b}, {a} or {c}") [(js "a", js "x<y"); (js "c", [])]
    = Ok result
    /\ extractVariables result
       = filter (unfilled [(js "a", js "x<y"); (js "c", [])])
           (extractVariables (js "{a} and {b}, {a} or {c}")).
Proof.
  apply extractVariables_after_replaceVariables; reflexivity.
Defined.

(** ** The escaping of a value *)

Lemma escape_char_cases (c : ascii) :
  (c = "&" /\ escape_char c = js "&amp;")
  \/ (c = "<" /\ escape_char c = js "&lt;")
  \/ (c = ">" /\ escape_char c = js "&gt;")
  \/ (c <> "&" /\ c <> "<" /\ c <> ">" /\ escape_char c = [c]).
Proof.
  unfold escape_char.
  destruct (Ascii.eqb c "&") eqn:E1; [apply Ascii.eqb_eq in E1; auto|].
  destruct (Ascii.eqb c "<") eqn:E2; [apply Ascii.eqb_eq in E2; auto|].
  destruct (Ascii.eqb c ">") eqn:E3; [apply Ascii.eqb_eq in E3; auto 6|].
  apply Ascii.eqb_neq in E1, E2, E3. auto 7.
Qed.

Lemma char_run_split (a : ascii) (l : jsstring) :
  (forall x, In x l -> x <> a) ->
  forall pre rest tail,
    l ++ rest = pre ++ a :: tail ->
    exists pre', pre = l ++ pre' /\ rest = pre' ++ a :: tail.
Proof.
  induction l as [|b l IH]; intros Hl pre rest tail H.
  - exists pre. split; [reflexivity|exact H].
  - destruct pre as [|d pre]; cbn [app] in H.
    + injection H as Hb _. exfalso. apply (Hl b); [left; reflexivity|exact Hb].
    + injection H as -> H.
      destruct (IH (fun x Hx => Hl x (or_intror Hx)) pre rest tail H) as (pre' & -> & ->).
      exists pre'. split; reflexivity.
Qed.

Lemma escape_ampersand_entity (v : jsstring) :
  forall pre post,
    flat_map escape_char v = pre ++ "&" :: post ->
    exists rest,
      post = js "amp;" ++ rest \/ post = js "lt;" ++ rest \/ post = js "gt;" ++ rest.
Proof.
  induction v as [|c v IH]; intros pre post H.
  - destruct pre; discriminate.
  - cbn [flat_map] in H.
    destruct (escape_char_cases c) as [[_ E]|[[_ E]|[[_ E]|(N & _ & _ & E)]]];
      rewrite E in H.
    4:{ destruct pre as [|d pre]; cbn [app] in H.
        - injection H as Hc _. contradiction.
        - injection H as _ H. exact (IH _ _ H). }
    all: destruct pre as [|d pre]; cbn [js list_ascii_of_string app] in H;
      [injection H as <-; eexists; cbn [js list_ascii_of_string app]; eauto|].
    all: injection H as _ H.
    + apply (char_run_split "&" (js "amp;")) in H as (pre' & _ & H);
        [exact (IH _ _ H)|].
      cbn. intros x [<-|[<-|[<-|[<-|[]]]]]; discriminate.
    + apply (char_run_split "&" (js "lt;")) in H as (pre' & _ & H);
        [exact (IH _ _ H)|].
      cbn. intros x [<-|[<-|[<-|[]]]]; discriminate.
    + apply (char_run_split "&" (js "gt;")) in H as (pre' & _ & H);
        [exact (IH _ _ H)|].
      cbn. intros x [<-|[<-|[<-|[]]]]; discriminate.
Qed.

(** X3.  An escaped value has no [<] and no [>], and each of its [&] starts
    one of the entities [&amp;], [&lt;], [&gt;]. *)
Theorem escape_value_well_escaped (v : jsstring) :
  (forall x, In x (escape_value v) -> x <> "<" /\ x <> ">")
  /\ (forall pre post,
        escape_value v = pre ++ "&" :: post ->
        exists rest,
          post = js "amp;" ++ rest \/ post = js "lt;" ++ rest
          \/ post = js "gt;" ++ rest).
Proof.
  split; [apply escape_value_no_angle|].
  rewrite escape_value_chars. apply escape_ampersand_entity.
Qed.

Lemma escape_char_injective_app (c1 c2 : ascii) (r1 r2 : jsstring) :
  escape_char c1 ++ r1 = escape_char c2 ++ r2 -> c1 = c2 /\ r1 = r2.
Proof.
  intros H.
  destruct (escape_char_cases c1) as [[-> E1]|[[-> E1]|[[-> E1]|(A1 & B1 & C1 & E1)]]];
    destruct (escape_char_cases c2) as [[-> E2]|[[-> E2]|[[-> E2]|(A2 & B2 & C2 & E2)]]];
    rewrite ?E1, ?E2 in H; cbn [js list_ascii_of_string app] in H;
    try discriminate H;
    try (injection H as <-; split; reflexivity);
    try (injection H; intros; subst; congruence).
  injection H as -> ->. split; reflexivity.
Qed.

(** X4.  Escaping loses nothing: two values with the same escaped text are
    the same value. *)
Theorem escape_value_injective (v1 v2 : jsstring) :
  escape_value v1 = escape_value v2 -> v1 = v2.
Proof.
  rewrite !escape_value_chars. revert v2.
  induction v1 as [|c1 v1 IH]; intros [|c2 v2] H.
  - reflexivity.
  - cbn [flat_map] in H.
    destruct (escape_char_cases c2) as [[_ E]|[[_ E]|[[_ E]|(_ & _ & _ & E)]]];
      rewrite E in H; discriminate H.
  - cbn [flat_map] in H.
    destruct (escape_char_cases c1) as [[_ E]|[[_ E]|[[_ E]|(_ & _ & _ & E)]]];
      rewrite E in H; discriminate H.
  - cbn [flat_map] in H. apply escape_char_injective_app in H as [-> H].
    f_equal. apply IH. exact H.
Qed.

Lemma escape_value_injective_witness :
  escape_value (js "a<b") = escape_value (js "a<b") /\ js "a<b" = js "a<b".
Proof. split; [reflexivity|apply escape_value_injective; reflexivity]. Defined.

(** ** The order of the entries *)

Lemma first_filled_Some (values : VariableMap) (n v : jsstring) :
  first_filled values n = Some v -> In (n, v) values /\ v <> [].
Proof.
  induction values as [|[k w] rest IH]; [discriminate|].
  cbn [first_filled fst snd].
  destruct (jseqb k n && truthy w) eqn:E.
  - apply andb_true_iff in E as [E T]. apply jseqb_eq in E. subst k.
    intros H. injection H as <-. split; [left; reflexivity|].
    apply truthy_nonempty. exact T.
  - intros H. destruct (IH H) as [Hin Hv]. split; [right; exact Hin|exact Hv].
Qed.

Lemma first_filled_NoDup (values : VariableMap) (n v : jsstring) :
  NoDup (map fst values) -> In (n, v) values -> v <> [] ->
  first_filled values n = Some v.
Proof.
  induction values as [|[k w] rest IH]; intros Hnd Hin Hv; [destruct Hin|].
  cbn [map fst] in Hnd. inversion Hnd as [|? ? Hk Hnd']; subst.
  cbn [first_filled fst snd]. destruct Hin as [E|Hin].
  - injection E as -> ->. rewrite jseqb_refl.
    apply truthy_nonempty in Hv. rewrite Hv. reflexivity.
  - assert (Hne : jseqb k n = false).
    { apply jseqb_neq. intros ->. apply Hk.
      apply in_map_iff. exists (n, v). split; [reflexivity|exact Hin]. }
    rewrite Hne. cbn [andb]. apply IH; assumption.
Qed.

Lemma first_filled_Permutation (values values' : VariableMap) (n : jsstring) :
  NoDup (map fst values) -> Permutation values values' ->
  first_filled values' n = first_filled values n.
Proof.
  intros Hnd Hp.
  assert (Hnd' : NoDup (map fst values')).
  { eapply Permutation_NoDup; [apply Permutation_map; exact Hp|exact Hnd]. }
  destruct (first_filled values n) as [v|] eqn:E.
  - apply first_filled_Some in E as [Hin Hv].
    apply first_filled_NoDup; [exact Hnd'| |exact Hv].
    eapply Permutation_in; eassumption.
  - destruct (first_filled values' n) as [v'|] eqn:E'; [|reflexivity].
    apply first_filled_Some in E' as [Hin Hv].
    rewrite (first_filled_NoDup values n v') in E; [discriminate|exact Hnd| |exact Hv].
    eapply Permutation_in; [apply Permutation_sym; exact Hp|exact Hin].
Qed.

(** X5.  On a well-braced text, with keys and values without special
    characters, the result does not depend on the order in which the map
    lists its entries. *)
Theorem replaceVariables_entry_order (content : jsstring)
    (values values' : VariableMap) :
  well_braced content = true -> plain_entries values = true ->
  NoDup (map fst values) -> Permutation values values' ->
  replaceVariables content values' = replaceVariables content values.
Proof.
  intros Hwb Hv Hnd Hp.
  destruct (well_braced_segments _ Hwb) as (segs & -> & Hok).
  assert (Hv' : plain_entries values' = true).
  { unfold plain_entries in *. rewrite forallb_forall in *.
    intros e He. apply Hv. eapply Permutation_in; [apply Permutation_sym; exact Hp|exact He]. }
  rewrite !replaceVariables_simultaneous by assumption. do 2 f_equal.
  apply flat_map_ext. intros [c|n]; [reflexivity|].
  cbn [substitute_segment]. rewrite (first_filled_Permutation values values') by assumption.
  reflexivity.
Qed.

Lemma replaceVariables_entry_order_witness :
  replaceVariables (js "{a}, {b} and {a}") [(js "b", js "y"); (js "a", js "x")]
  = replaceVariables (js "{a}, {b} and {a}") [(js "a", js "x"); (js "b", js "y")].
Proof.
  apply replaceVariables_entry_order; [reflexivity|reflexivity| |apply perm_swap].
  repeat constructor; cbn; intuition discriminate.
Defined.

(** ** Line feeds and placeholders *)

Lemma render_br_segment (segs : list segment) :
  (forall n, In (Ph n) segs -> ~ In newline n) ->
  flat_map br_of_newline (render segs) = render (flat_map br_segment segs).
Proof.
  induction segs as [|sg segs IH]; intros H; [reflexivity|].
  change (render (sg :: segs)) with (render_segment sg ++ render segs).
  cbn [flat_map]. rewrite flat_map_app, render_app, IH
    by (intros n Hn; apply H; right; exact Hn).
  f_equal. destruct sg as [c|n]; cbn [render_segment br_segment].
  - cbn [flat_map]. rewrite app_nil_r. symmetry. apply render_map_Lit.
  - assert (Hn : ~ In newline n) by (apply H; left; reflexivity).
    cbn [render flat_map render_segment]. rewrite app_nil_r.
    unfold braced. cbn [flat_map]. rewrite flat_map_app.
    change (br_of_newline "{") with ["{"]. cbn [flat_map].
    change (br_of_newline "}") with ["}"]. cbn [app]. do 2 f_equal.
    clear H. induction n as [|a n IHn]; [reflexivity|].
    cbn [flat_map]. unfold br_of_newline at 1.
    destruct (Ascii.eqb a newline) eqn:E.
    + apply Ascii.eqb_eq in E. subst a. exfalso. apply Hn. left. reflexivity.
    + cbn [app]. f_equal. apply IHn. intros Hin. apply Hn. right. exact Hin.
Qed.

Lemma br_segment_ok (segs : list segment) :
  Forall segment_ok segs -> Forall segment_ok (flat_map br_segment segs).
Proof.
  induction 1 as [|sg segs Hsg Hok IH]; [constructor|].
  cbn [flat_map]. apply Forall_app. split; [|exact IH].
  destruct sg as [c|n]; cbn [br_segment].
  - cbn [segment_ok] in Hsg. unfold br_of_newline.
    destruct (Ascii.eqb c newline).
    + repeat constructor; discriminate.
    + repeat constructor. exact Hsg.
  - repeat constructor; apply Hsg.
Qed.

Lemma placeholder_names_br (segs : list segment) :
  placeholder_names (flat_map br_segment segs) = placeholder_names segs.
Proof.
  induction segs as [|sg segs IH]; [reflexivity|].
  cbn [flat_map]. rewrite placeholder_names_app, IH.
  change (placeholder_names (sg :: segs)) with (placeholder_names ([sg] ++ segs)).
  rewrite (placeholder_names_app [sg] segs). f_equal.
  destruct sg as [c|n]; cbn [br_segment]; [|reflexivity].
  apply placeholder_names_Lit.
Qed.

Lemma In_placeholder_names (segs : list segment) (a : ascii) (n : jsstring) :
  In (Ph (a :: n)) segs -> In (a :: n) (placeholder_names segs).
Proof.
  intros H. unfold placeholder_names. apply in_flat_map.
  exists (Ph (a :: n)). split; [exact H|left; reflexivity].
Qed.

(** X6.  On a well-braced text whose placeholder names have no line feed,
    the conversion of line feeds keeps the placeholders: the same names
    in the same order. *)
Theorem extractVariables_normalizeContent (content : jsstring) :
  well_braced content = true ->
  (forall n, In n (extractVariables content) -> ~ In newline n) ->
  extractVariables (normalizeContent content) = extractVariables content.
Proof.
  intros Hwb Hn. rewrite normalizeContent_cases.
  destruct (has_tag content); [reflexivity|].
  destruct (includes_char newline content); [|reflexivity].
  destruct (well_braced_segments _ Hwb) as (segs & -> & Hok).
  rewrite render_br_segment.
  - rewrite !extractVariables_dedup, !occurrence_names_render
      by auto using br_segment_ok.
    rewrite placeholder_names_br. reflexivity.
  - intros [|a n] Hin; [intros []|]. apply Hn.
    rewrite extractVariables_dedup, occurrence_names_render by assumption.
    unfold dedup_first. apply dedup_seen_In. split; [|intros []].
    apply In_placeholder_names. exact Hin.
Qed.

Lemma extractVariables_normalizeContent_witness :
  extractVariables (normalizeContent (js "Dear {ten},
see {so_hd}.")) = extractVariables (js "Dear {ten},
see {so_hd}.").
Proof.
  apply extractVariables_normalizeContent; [reflexivity|].
  intros n Hin. vm_compute in Hin.
  destruct Hin as [<-|[<-|[]]]; intros H; vm_compute in H; intuition discriminate.
Defined.

(** ** suggestContent with a key *)

Lemma contains_app_l (m a b : jsstring) : contains m a -> contains m (a ++ b).
Proof.
  intros (pre & post & ->). exists pre, (post ++ b).
  rewrite <- !app_assoc. reflexivity.
Qed.

Lemma contains_app_r (m a b : jsstring) : contains m b -> contains m (a ++ b).
Proof.
  intros (pre & post & ->). exists (a ++ pre), post.
  rewrite <- !app_assoc. reflexivity.
Qed.

Lemma contains_self (m : jsstring) : contains m m.
Proof. exists [], []. cbn [app]. rewrite app_nil_r. reflexivity. Qed.

Lemma contains_quoted (m rest : jsstring) :
  contains ([dquote] ++ m ++ [dquote]) ([dquote] ++ m ++ [dquote] ++ rest).
Proof. exists [], rest. cbn [app]. rewrite <- app_assoc. reflexivity. Qed.

Lemma or_string_nonempty (a b : jsstring) : or_string a b = [] -> b = [].
Proof. unfold or_string. destruct a; cbn [truthy]; [auto|discriminate]. Qed.

(** X7.  With a key, when the provider answers, the promise is fulfilled
    with the text of the answer, or with the current content when the
    answer has no text or an empty one; so the result is empty only when
    the current content is.  One request has been sent, whose prompt
    quotes the instruction and the current content as they are, and
    nothing has been logged. *)
Theorem suggestContent_fulfilled (env : option jsstring)
    (provider : request -> option jsstring + js_error)
    (currentContent instruction : jsstring) (w : world) (answer : option jsstring) :
  apiKey env <> [] ->
  provider {| req_model := js "gemini-2.5-flash";
              req_contents := prompt_of currentContent instruction |} = inl answer ->
  let result := match answer with
                | Some (c :: t) => c :: t
                | _ => currentContent
                end in
  suggestContent env provider currentContent instruction w
  = (inl result,
     {| net_requests :=
          net_requests w
            ++ [{| req_model := js "gemini-2.5-flash";
                   req_contents := prompt_of currentContent instruction |}];
        console_errors := console_errors w |})
  /\ (result = [] -> currentContent = [])
  /\ contains ([dquote] ++ instruction ++ [dquote])
       (prompt_of currentContent instruction)
  /\ contains ([dquote] ++ currentContent ++ [dquote])
       (prompt_of currentContent instruction).
Proof.
  intros Hk Hp result. apply truthy_nonempty in Hk.
  unfold suggestContent. rewrite Hk. cbn [negb].
  unfold try_catch, io_bind, generateContent. rewrite Hp.
  repeat split.
  - destruct answer as [[|c t]|]; reflexivity.
  - subst result. destruct answer as [[|c t]|]; auto; discriminate.
  - unfold prompt_of. apply contains_app_r. apply contains_quoted.
  - unfold prompt_of. do 5 apply contains_app_r. apply contains_quoted.
Qed.

Lemma suggestContent_fulfilled_witness :
  let result := js "<b>Hi</b>" in
  suggestContent (Some (js "k")) (fun _ => inl (Some (js "<b>Hi</b>")))
    (js "Hi") (js "bold") {| net_requests := []; console_errors := [] |}
  = (inl result,
     {| net_requests :=
          [{| req_model := js "gemini-2.5-flash";
              req_contents := prompt_of (js "Hi") (js "bold") |}];
        console_errors := [] |})
  /\ (result = [] -> js "Hi" = [])
  /\ contains ([dquote] ++ js "bold" ++ [dquote]) (prompt_of (js "Hi") (js "bold"))
  /\ contains ([dquote] ++ js "Hi" ++ [dquote]) (prompt_of (js "Hi") (js "bold")).
Proof.
  apply (suggestContent_fulfilled (Some (js "k")) (fun _ => inl (Some (js "<b>Hi</b>")))
           (js "Hi") (js "bold") {| net_requests := []; console_errors := [] |}
           (Some (js "<b>Hi</b>"))).
  - discriminate.
  - reflexivity.
Defined.

(** X8.  Whatever the key and the provider, the function sends at most
    one request and keeps what was sent and logged before.  It writes on
    the console only when the provider has failed, one line with the
    error of the provider, and the promise is then rejected with this
    same error. *)
Theorem suggestContent_effects (env : option jsstring)
    (provider : request -> option jsstring + js_error)
    (currentContent instruction : jsstring) (w : world) :
  let r := fst (suggestContent env provider currentContent instruction w) in
  let w' := snd (suggestContent env provider currentContent instruction w) in
  let rq := {| req_model := js "gemini-2.5-flash";
               req_contents := prompt_of currentContent instruction |} in
  (net_requests w' = net_requests w \/ net_requests w' = net_requests w ++ [rq])
  /\ (console_errors w' = console_errors w
      \/ exists e,
           r = inr e /\ provider rq = inr e
           /\ net_requests w' = net_requests w ++ [rq]
           /\ console_errors w' = console_errors w ++ [(js "Gemini API Error:", e)])
  /\ (forall e,
        apiKey env <> [] -> provider rq = inr e ->
        r = inr e
        /\ console_errors w' = console_errors w ++ [(js "Gemini API Error:", e)]).
Proof.
  intros r w' rq. subst r w'. unfold suggestContent.
  destruct (truthy (apiKey env)) eqn:K; cbn [negb].
  - unfold try_catch, io_bind, generateContent. fold rq.
    destruct (provider rq) as [[text|]|e];
      cbn [fst snd ret throw console_error net_requests console_errors].
    + split; [right; reflexivity|]. split; [left; reflexivity|].
      intros e _ E. discriminate E.
    + split; [right; reflexivity|]. split; [left; reflexivity|].
      intros e _ E. discriminate E.
    + split; [right; reflexivity|]. split; [right; exists e; auto|].
      intros e' _ E. injection E as <-. auto.
  - cbn [fst snd throw]. split; [left; reflexivity|]. split; [left; reflexivity|].
    intros e Hk. apply truthy_nonempty in Hk. congruence.
Qed.

(** ** storageService.ts *)

Section StorageProperties.

Variable storage_denied : option js_error.
Variable setItem_refused : jsstring -> jsstring -> option js_error.
Variable JSON_parse : jsstring -> parsed + js_error.
Variable JSON_stringify : list Template -> jsstring.
Variable now1 now2 now3 : Z.

Lemma getTemplates_cases (b : browser) :
  exists v b',
    getTemplates storage_denied JSON_parse now1 now2 now3 b = (inl v, b')
    /\ b_storage b' = b_storage b
    /\ b_clipboard b' = b_clipboard b
    /\ b_alerts b' = b_alerts b
    /\ net_requests (b_world b') = net_requests (b_world b)
    /\ (v = ParsedTemplates (INITIAL_TEMPLATES now1 now2 now3)
        \/ exists data,
             data <> [] /\ storage_denied = None
             /\ b_storage b STORAGE_KEY = Some data
             /\ JSON_parse data = inl v /\ b' = b).
Proof.
  unfold getTemplates, act_try, act_bind, localStorage_getItem.
  destruct storage_denied as [e|].
  - eexists. eexists. split; [reflexivity|]. browser_simpl. auto 10.
  - destruct (b_storage b STORAGE_KEY) as [[|c d]|] eqn:S.
    + eexists. eexists. split; [reflexivity|]. auto 10.
    + destruct (JSON_parse (c :: d)) as [v|e] eqn:P.
      * exists v, b. split; [reflexivity|]. repeat split.
        right. exists (c :: d). repeat split; auto. discriminate.
      * eexists. eexists. split; [reflexivity|]. browser_simpl. auto 10.
    + eexists. eexists. split; [reflexivity|]. auto 10.
Qed.

Lemma saveTemplates_cases (ts : list Template) (b : browser) :
  exists b',
    saveTemplates storage_denied setItem_refused JSON_stringify ts b = (inl tt, b')
    /\ (forall k, k <> STORAGE_KEY -> b_storage b' k = b_storage b k)
    /\ b_clipboard b' = b_clipboard b
    /\ b_alerts b' = b_alerts b
    /\ net_requests (b_world b') = net_requests (b_world b)
    /\ ((storage_denied = None
         /\ setItem_refused STORAGE_KEY (JSON_stringify ts) = None
         /\ b_storage b' STORAGE_KEY = Some (JSON_stringify ts)
         /\ b_world b' = b_world b)
        \/ (exists e,
              (storage_denied = Some e
               \/ setItem_refused STORAGE_KEY (JSON_stringify ts) = Some e)
              /\ b_storage b' = b_storage b
              /\ console_errors (b_world b')
                 = console_errors (b_world b)
                     ++ [(js "Failed to save templates", e)])).
Proof.
  unfold saveTemplates, act_try, localStorage_setItem.
  destruct storage_denied as [e|].
  - eexists. split; [reflexivity|]. browser_simpl. repeat split.
    right. exists e. auto.
  - destruct (setItem_refused STORAGE_KEY (JSON_stringify ts)) as [e|] eqn:R.
    + eexists. split; [reflexivity|]. browser_simpl. repeat split.
      right. exists e. auto.
    + eexists. split; [reflexivity|]. browser_simpl. repeat split.
      * intros k Hk. apply jseqb_neq in Hk. rewrite Hk. reflexivity.
      * left. rewrite jseqb_refl. auto.
Qed.

End StorageProperties.

(** X9.  [getTemplates] never throws and writes nothing to the storage.
    When the storage can be read, holds a text that is not empty under
    the key, and [JSON.parse] accepts this text, the result is what
    [JSON.parse] makes of it; in every other case (storage out of reach,
    nothing stored, an empty text stored, a text that does not parse) it
    is the built-in templates. *)
Theorem getTemplates_never_throws (storage_denied : option js_error)
    (JSON_parse : jsstring -> parsed + js_error) (now1 now2 now3 : Z) (b : browser) :
  exists b',
    getTemplates storage_denied JSON_parse now1 now2 now3 b
    = (inl match storage_denied, b_storage b STORAGE_KEY with
           | None, Some (c :: d) =>
               match JSON_parse (c :: d) with
               | inl v => v
               | inr _ => ParsedTemplates (INITIAL_TEMPLATES now1 now2 now3)
               end
           | _, _ => ParsedTemplates (INITIAL_TEMPLATES now1 now2 now3)
           end,
       b')
    /\ b_storage b' = b_storage b.
Proof.
  unfold getTemplates, act_try, act_bind, localStorage_getItem.
  destruct storage_denied as [e|].
  - eexists. split; reflexivity.
  - destruct (b_storage b STORAGE_KEY) as [[|c d]|].
    + eexists. split; reflexivity.
    + destruct (JSON_parse (c :: d)) as [v|e]; eexists; split; reflexivity.
    + eexists. split; reflexivity.
Qed.

(** X10.  [saveTemplates] never throws and touches no other key of the
    storage.  When the browser lets the page use the storage and accepts
    the text of the list, this text is stored under the key and nothing
    is logged; when the browser refuses, the storage is as it was and the
    exception of the browser is on the console. *)
Theorem saveTemplates_never_throws (storage_denied : option js_error)
    (setItem_refused : jsstring -> jsstring -> option js_error)
    (JSON_stringify : list Template -> jsstring)
    (ts : list Template) (b : browser) :
  exists b',
    saveTemplates storage_denied setItem_refused JSON_stringify ts b = (inl tt, b')
    /\ (forall k, k <> STORAGE_KEY -> b_storage b' k = b_storage b k)
    /\ match storage_denied, setItem_refused STORAGE_KEY (JSON_stringify ts) with
       | None, None =>
           b_storage b' STORAGE_KEY = Some (JSON_stringify ts)
           /\ console_errors (b_world b') = console_errors (b_world b)
       | Some e, _ | None, Some e =>
           b_storage b' = b_storage b
           /\ console_errors (b_world b')
              = console_errors (b_world b) ++ [(js "Failed to save templates", e)]
       end.
Proof.
  unfold saveTemplates, act_try, localStorage_setItem.
  destruct storage_denied as [e|].
  - eexists. split; [reflexivity|]. browser_simpl. repeat split.
  - destruct (setItem_refused STORAGE_KEY (JSON_stringify ts)) as [e|].
    + eexists. split; [reflexivity|]. browser_simpl. repeat split.
    + eexists. split; [reflexivity|]. browser_simpl. split; [|split].
      * intros k Hk. apply jseqb_neq in Hk. rewrite Hk. reflexivity.
      * rewrite jseqb_refl. reflexivity.
      * reflexivity.
Qed.

Lemma getTemplates_after_save
    (setItem_refused : jsstring -> jsstring -> option js_error)
    (JSON_parse : jsstring -> parsed + js_error)
    (JSON_stringify : list Template -> jsstring) (now1 now2 now3 : Z)
    (ts : list Template) (b : browser) :
  setItem_refused STORAGE_KEY (JSON_stringify ts) = None ->
  JSON_stringify ts <> [] ->
  JSON_parse (JSON_stringify ts) = inl (ParsedTemplates ts) ->
  getTemplates None JSON_parse now1 now2 now3
    (snd (saveTemplates None setItem_refused JSON_stringify ts b))
  = (inl (ParsedTemplates ts),
     snd (saveTemplates None setItem_refused JSON_stringify ts b)).
Proof.
  intros R N P.
  unfold saveTemplates, act_try, localStorage_setItem. rewrite R. cbn [snd].
  unfold getTemplates, act_try, act_bind, localStorage_getItem. cbn [b_storage].
  rewrite jseqb_refl. destruct (JSON_stringify ts) as [|c d]; [congruence|].
  rewrite P. reflexivity.
Qed.

(** X11.  What [saveTemplates] has stored, [getTemplates] gives back, when
    the browser accepts the text and [JSON.parse] undoes
    [JSON.stringify] on this list. *)
Theorem save_then_get (setItem_refused : jsstring -> jsstring -> option js_error)
    (JSON_parse : jsstring -> parsed + js_error)
    (JSON_stringify : list Template -> jsstring) (now1 now2 now3 : Z)
    (ts : list Template) (b : browser) :
  setItem_refused STORAGE_KEY (JSON_stringify ts) = None ->
  JSON_stringify ts <> [] ->
  JSON_parse (JSON_stringify ts) = inl (ParsedTemplates ts) ->
  fst (getTemplates None JSON_parse now1 now2 now3
         (snd (saveTemplates None setItem_refused JSON_stringify ts b)))
  = inl (ParsedTemplates ts).
Proof. intros R N P. rewrite getTemplates_after_save by assumption. reflexivity. Qed.

Lemma save_then_get_witness :
  fst (getTemplates None (fun _ => inl (ParsedTemplates [sample_template])) 1 2 3
         (snd (saveTemplates None (fun _ _ => None) (fun _ => js "[{}]")
                 [sample_template] sample_browser)))
  = inl (ParsedTemplates [sample_template]).
Proof.
  apply (save_then_get (fun _ _ => None)
           (fun _ => inl (ParsedTemplates [sample_template])) (fun _ => js "[{}]")
           1 2 3 [sample_template] sample_browser); [reflexivity|discriminate|reflexivity].
Defined.

(** ** The handlers of the component *)

Lemma activeTemplate_In (st : AppState) (a : Template) :
  activeTemplate st = Some a ->
  In a (templates st) /\ selectedTemplateId st = Some (t_id a).
Proof.
  unfold activeTemplate. destruct (selectedTemplateId st) as [sid|]; [|discriminate].
  intros H. apply find_some in H as [Hin E]. apply jseqb_eq in E. subst sid. auto.
Qed.

Lemma find_map_same_test (p : Template -> bool) (f : Template -> Template)
    (l : list Template) :
  (forall t, p (f t) = p t) -> find p (map f l) = option_map f (find p l).
Proof.
  intros H. induction l as [|t l IH]; [reflexivity|].
  cbn [map find]. rewrite H. destruct (p t); [reflexivity|exact IH].
Qed.

Lemma truthy_field_Some (o : option jsstring) :
  truthy_field o = true -> exists s, o = Some s /\ s <> [].
Proof.
  destruct o as [s|]; [|discriminate]. cbn [truthy_field]. intros H.
  exists s. split; [reflexivity|]. apply truthy_nonempty. exact H.
Qed.

(** X12.  [handleSave] does nothing when the form has no title or no
    content, and it keeps every stored template with a non-empty title
    and a non-empty content. *)
Theorem handleSave_validation (generateId : jsstring) (Date_now : Z)
    (st st' : AppState) :
  handleSave generateId Date_now st = Ok st' ->
  (truthy_field (e_title (editForm st)) && truthy_field (e_content (editForm st))
   = false -> st' = st)
  /\ ((forall t, In t (templates st) -> t_title t <> [] /\ t_content t <> []) ->
      forall t, In t (templates st') -> t_title t <> [] /\ t_content t <> []).
Proof.
  unfold handleSave.
  destruct (truthy_field (e_title (editForm st))) eqn:Tt;
    [destruct (truthy_field (e_content (editForm st))) eqn:Tc|];
    cbn [negb orb andb].
  2,3: intros H; injection H as <-; split; auto.
  destruct (truthy_field_Some _ Tt) as (ttl & Ettl & Nttl).
  destruct (truthy_field_Some _ Tc) as (cnt & Ecnt & Ncnt).
  destruct (match activeTemplate st with
            | Some a => is_form_id (editForm st) (t_id a)
            | None => false
            end).
  - intros H. injection H as <-. split; [discriminate|].
    intros Hinv t Hin. cbn [setIsEditing setTemplates templates] in Hin.
    apply in_map_iff in Hin as (t0 & <- & Hin).
    destruct (is_form_id (editForm st) (t_id t0)); [|auto].
    unfold merge. cbn [t_title t_content]. rewrite Ettl, Ecnt. cbn [field]. auto.
  - unfold as_Template. cbn [e_id e_title e_content e_category e_lastUsed].
    rewrite Ettl, Ecnt. destruct (e_category (editForm st)) as [g|]; [|discriminate].
    intros H. injection H as <-. split; [discriminate|].
    intros Hinv t Hin.
    cbn [setIsEditing setSelectedTemplateId setTemplates templates] in Hin.
    destruct Hin as [<-|Hin]; [cbn [t_title t_content]; auto|auto].
Qed.

Lemma handleSave_validation_witness :
  let blank :=
    setEditForm
      (fun form => {| e_id := e_id form; e_title := Some [];
                      e_content := e_content form; e_category := e_category form;
                      e_lastUsed := e_lastUsed form |}) sample_state in
  (handleSave (js "x") 7 blank = Ok blank
   /\ truthy_field (e_title (editForm blank))
      && truthy_field (e_content (editForm blank)) = false
   /\ blank = blank)
  /\ (handleSave (js "x") 7 (handleCreateNew (js "a1") 3 sample_state)
      = Ok (setIsEditing false
              (setSelectedTemplateId (Some (js "x"))
                 (setTemplates
                    (cons {| t_id := js "x"; t_title := js "Mẫu tin nhắn mới";
                             t_content := js "Chào <b>{danh_xung} {ten}</b>,<br>...";
                             t_category := CONSULTING; t_lastUsed := 7 |})
                    (handleCreateNew (js "a1") 3 sample_state))))
      /\ forall t,
           In t [ {| t_id := js "x"; t_title := js "Mẫu tin nhắn mới";
                     t_content := js "Chào <b>{danh_xung} {ten}</b>,<br>...";
                     t_category := CONSULTING; t_lastUsed := 7 |};
                  sample_template ] ->
           t_title t <> [] /\ t_content t <> []).
Proof.
  intros blank. split.
  - split; [reflexivity|]. split; [reflexivity|].
    apply (handleSave_validation (js "x") 7 blank blank); reflexivity.
  - split; [reflexivity|].
    apply (handleSave_validation (js "x") 7
             (handleCreateNew (js "a1") 3 sample_state)
             (setIsEditing false
                (setSelectedTemplateId (Some (js "x"))
                   (setTemplates
                      (cons {| t_id := js "x"; t_title := js "Mẫu tin nhắn mới";
                               t_content := js "Chào <b>{danh_xung} {ten}</b>,<br>...";
                               t_category := CONSULTING; t_lastUsed := 7 |})
                      (handleCreateNew (js "a1") 3 sample_state))))).
    + reflexivity.
    + intros t [<-|[]]. split; discriminate.
Defined.

(** X13.  Saving the form of the active template keeps the identifiers of
    the list, in their order, and every template with another
    identifier; the templates with the identifier of the form take its
    title and content, the edited template stays the active one, and the
    editor is left. *)
Theorem handleSave_update (generateId : jsstring) (Date_now : Z)
    (st : AppState) (a : Template) (ttl cnt : jsstring) :
  activeTemplate st = Some a ->
  e_id (editForm st) = Some (t_id a) ->
  e_title (editForm st) = Some ttl -> ttl <> [] ->
  e_content (editForm st) = Some cnt -> cnt <> [] ->
  exists st',
    handleSave generateId Date_now st = Ok st'
    /\ map t_id (templates st') = map t_id (templates st)
    /\ (forall t, t_id t <> t_id a -> (In t (templates st') <-> In t (templates st)))
    /\ (forall t, In t (templates st') -> t_id t = t_id a ->
                  t_title t = ttl /\ t_content t = cnt)
    /\ activeTemplate st' = Some (merge a (editForm st))
    /\ isEditing st' = false.
Proof.
  intros Ha Eid Ettl Nttl Ecnt Ncnt.
  assert (Hform : forall x, is_form_id (editForm st) x = jseqb x (t_id a)).
  { intros x. unfold is_form_id. rewrite Eid. reflexivity. }
  assert (Hid : forall t,
             t_id (if is_form_id (editForm st) (t_id t) then merge t (editForm st) else t)
             = t_id t).
  { intros t. rewrite Hform. destruct (jseqb (t_id t) (t_id a)) eqn:E; [|reflexivity].
    apply jseqb_eq in E. unfold merge. cbn [t_id]. rewrite Eid. cbn [field]. auto. }
  unfold handleSave. rewrite Ettl, Ecnt. cbn [truthy_field].
  apply truthy_nonempty in Nttl, Ncnt. rewrite Nttl, Ncnt. cbn [negb orb].
  rewrite Ha, Hform, jseqb_refl.
  eexists. split; [reflexivity|].
  cbn [setIsEditing setTemplates templates isEditing].
  repeat split.
  - rewrite map_map. apply map_ext. exact Hid.
  - intros Hin. apply in_map_iff in Hin as (t0 & E & Hin).
    rewrite Hform in E. destruct (jseqb (t_id t0) (t_id a)) eqn:J.
    + exfalso. apply H. subst t. unfold merge. cbn [t_id]. rewrite Eid. reflexivity.
    + subst t0. exact Hin.
  - intros Hin. apply in_map_iff. exists t. split; [|exact Hin].
    rewrite Hform. apply jseqb_neq in H. rewrite H. reflexivity.
  - apply in_map_iff in H as (t0 & E & Hin).
    rewrite Hform in E. destruct (jseqb (t_id t0) (t_id a)) eqn:J.
    + subst t. unfold merge. cbn [t_title]. rewrite Ettl. reflexivity.
    + subst t0. apply jseqb_neq in J. contradiction.
  - apply in_map_iff in H as (t0 & E & Hin).
    rewrite Hform in E. destruct (jseqb (t_id t0) (t_id a)) eqn:J.
    + subst t. unfold merge. cbn [t_content]. rewrite Ecnt. reflexivity.
    + subst t0. apply jseqb_neq in J. contradiction.
  - unfold activeTemplate in *.
    cbn [setIsEditing setTemplates templates selectedTemplateId].
    destruct (selectedTemplateId st) as [sid|]; [|discriminate].
    rewrite find_map_same_test by (intros t; rewrite Hid; reflexivity).
    rewrite Ha. cbn [option_map]. rewrite Hform, jseqb_refl. reflexivity.
Qed.

Lemma handleSave_update_witness :
  exists st',
    handleSave (js "x") 7 sample_state = Ok st'
    /\ map t_id (templates st') = map t_id (templates sample_state)
    /\ (forall t, t_id t <> t_id sample_template ->
                  (In t (templates st') <-> In t (templates sample_state)))
    /\ (forall t, In t (templates st') -> t_id t = t_id sample_template ->
                  t_title t = js "Greeting" /\ t_content t = js "Dear {ten}, <b>hello</b>")
    /\ activeTemplate st' = Some (merge sample_template (editForm sample_state))
    /\ isEditing st' = false.
Proof.
  apply (handleSave_update (js "x") 7 sample_state sample_template);
    try reflexivity; discriminate.
Defined.

(** X14.  Saving a form that is not the form of the active template puts a
    new template at the head of the list, with the identifier and the
    time the environment gives and the title, content and category of the
    form; the templates there were stay, and the new template is the
    active one, whatever the identifiers of the others. *)
Theorem handleSave_create (generateId : jsstring) (Date_now : Z)
    (st : AppState) (ttl cnt : jsstring) (g : Category) :
  (forall a, activeTemplate st = Some a -> e_id (editForm st) <> Some (t_id a)) ->
  e_title (editForm st) = Some ttl -> ttl <> [] ->
  e_content (editForm st) = Some cnt -> cnt <> [] ->
  e_category (editForm st) = Some g ->
  let newT := {| t_id := generateId; t_title := ttl; t_content := cnt;
                 t_category := g; t_lastUsed := Date_now |} in
  exists st',
    handleSave generateId Date_now st = Ok st'
    /\ templates st' = newT :: templates st
    /\ activeTemplate st' = Some newT
    /\ isEditing st' = false.
Proof.
  intros Hnot Ettl Nttl Ecnt Ncnt Ecat newT.
  unfold handleSave. rewrite Ettl, Ecnt. cbn [truthy_field].
  apply truthy_nonempty in Nttl, Ncnt. rewrite Nttl, Ncnt. cbn [negb orb].
  assert (E : match activeTemplate st with
              | Some a => is_form_id (editForm st) (t_id a)
              | None => false
              end = false).
  { destruct (activeTemplate st) as [a|] eqn:Ha; [|reflexivity].
    specialize (Hnot a eq_refl). unfold is_form_id.
    destruct (e_id (editForm st)) as [i|]; [|reflexivity].
    apply jseqb_neq. intros Hi. subst i. apply Hnot. reflexivity. }
  rewrite E. unfold as_Template. cbn [e_id e_title e_content e_category e_lastUsed].
  rewrite Ecat. eexists. split; [reflexivity|].
  repeat split.
  unfold activeTemplate.
  cbn [setIsEditing setSelectedTemplateId setTemplates templates selectedTemplateId
       t_id find].
  rewrite jseqb_refl. reflexivity.
Qed.

Lemma handleSave_create_witness :
  let st := handleCreateNew (js "a1") 3 sample_state in
  let newT := {| t_id := js "b2"; t_title := js "Mẫu tin nhắn mới";
                 t_content := js "Chào <b>{danh_xung} {ten}</b>,<br>...";
                 t_category := CONSULTING; t_lastUsed := 9 |} in
  exists st',
    handleSave (js "b2") 9 st = Ok st'
    /\ templates st' = newT :: templates st
    /\ activeTemplate st' = Some newT
    /\ isEditing st' = false.
Proof.
  apply (handleSave_create (js "b2") 9 (handleCreateNew (js "a1") 3 sample_state));
    try reflexivity; try discriminate.
Defined.

Lemma merge_spread (t a : Template) : merge t (spread a) = a.
Proof. destruct a. reflexivity. Qed.

Lemma NoDup_ids_same (l : list Template) (t a : Template) :
  NoDup (map t_id l) -> In t l -> In a l -> t_id t = t_id a -> t = a.
Proof.
  induction l as [|x l IH]; intros Hnd Ht Ha E; [destruct Ht|].
  cbn [map] in Hnd. inversion Hnd as [|? ? Hx Hnd']; subst.
  destruct Ht as [->|Ht]; destruct Ha as [->|Ha].
  - reflexivity.
  - exfalso. apply Hx. rewrite E. apply in_map. exact Ha.
  - exfalso. apply Hx. rewrite <- E. apply in_map. exact Ht.
  - apply IH; assumption.
Qed.

(** X15.  Opening the editor on the active template and saving at once
    leaves the list of templates as it is, when the identifiers of the
    list are distinct and the template has a title and a content. *)
Theorem handleEditStart_handleSave (generateId : jsstring) (Date_now : Z)
    (st : AppState) (a : Template) :
  activeTemplate st = Some a ->
  NoDup (map t_id (templates st)) ->
  t_title a <> [] -> t_content a <> [] ->
  exists st',
    handleSave generateId Date_now (handleEditStart st) = Ok st'
    /\ templates st' = templates st
    /\ selectedTemplateId st' = selectedTemplateId st
    /\ isEditing st' = false.
Proof.
  intros Ha Hnd Nt Nc. destruct (activeTemplate_In _ _ Ha) as [Hin _].
  unfold handleEditStart. rewrite Ha. unfold handleSave.
  cbn [editForm setIsEditing setEditForm spread e_title e_content truthy_field].
  apply truthy_nonempty in Nt, Nc. rewrite Nt, Nc. cbn [negb orb].
  change (activeTemplate (setIsEditing true (setEditForm (fun _ => spread a) st)))
    with (activeTemplate st).
  rewrite Ha. unfold is_form_id at 1. cbn [e_id spread].
  rewrite jseqb_refl. eexists. split; [reflexivity|].
  cbn [setIsEditing setTemplates setEditForm templates selectedTemplateId isEditing].
  repeat split.
  rewrite <- (map_id (templates st)) at 2. apply map_ext_in.
  intros t Ht. unfold is_form_id. cbn [e_id spread].
  destruct (jseqb (t_id t) (t_id a)) eqn:J; [|reflexivity].
  apply jseqb_eq in J. rewrite merge_spread. symmetry.
  apply (NoDup_ids_same (templates st)); assumption.
Qed.

Lemma handleEditStart_handleSave_witness :
  exists st',
    handleSave (js "x") 7 (handleEditStart sample_state) = Ok st'
    /\ templates st' = templates sample_state
    /\ selectedTemplateId st' = selectedTemplateId sample_state
    /\ isEditing st' = false.
Proof.
  apply (handleEditStart_handleSave (js "x") 7 sample_state sample_template);
    try reflexivity; try discriminate.
  repeat constructor. intros [].
Defined.

Lemma filter_length_lt {A : Type} (f : A -> bool) (l : list A) (a : A) :
  In a l -> f a = false -> length (filter f l) < length l.
Proof.
  induction l as [|x l IH]; intros Hin Hf; [destruct Hin|].
  cbn [filter]. pose proof (filter_length_le f l) as Hle.
  destruct Hin as [->|Hin].
  - rewrite Hf. cbn [length]. lia.
  - specialize (IH Hin Hf). destruct (f x); cbn [length]; lia.
Qed.

(** X16.  A confirmed deletion removes the templates with the identifier
    of the active template and no other, the list gets shorter and no
    template is active any more; a deletion that is not confirmed changes
    nothing. *)
Theorem handleDelete_removes_active (st : AppState) (a : Template) :
  activeTemplate st = Some a ->
  (forall t, In t (templates (handleDelete true st))
             <-> In t (templates st) /\ t_id t <> t_id a)
  /\ length (templates (handleDelete true st)) < length (templates st)
  /\ activeTemplate (handleDelete true st) = None
  /\ handleDelete false st = st.
Proof.
  intros Ha. destruct (activeTemplate_In _ _ Ha) as [Hin _].
  unfold handleDelete.
  cbn [setSidebarOpen setSelectedTemplateId setTemplates templates].
  assert (F : forall t, negb (is_active_id st t) = negb (jseqb (t_id t) (t_id a))).
  { intros t. unfold is_active_id. rewrite Ha. reflexivity. }
  repeat split.
  - apply filter_In in H. apply H.
  - apply filter_In in H as [_ H]. rewrite F in H.
    apply negb_true_iff, jseqb_neq in H. exact H.
  - intros [H1 H2]. apply filter_In. split; [exact H1|].
    rewrite F. apply negb_true_iff. apply jseqb_neq. exact H2.
  - apply (filter_length_lt _ _ a Hin). rewrite F, jseqb_refl. reflexivity.
Qed.

Lemma handleDelete_removes_active_witness :
  (forall t, In t (templates (handleDelete true sample_state))
             <-> In t (templates sample_state) /\ t_id t <> t_id sample_template)
  /\ length (templates (handleDelete true sample_state)) < length (templates sample_state)
  /\ activeTemplate (handleDelete true sample_state) = None
  /\ handleDelete false sample_state = sample_state.
Proof. apply handleDelete_removes_active. reflexivity. Defined.

(** X17.  When the deletion empties the list, the effect that saves the
    list writes nothing: the storage still holds the list as it was
    before the deletion. *)
Theorem delete_last_is_not_saved (storage_denied : option js_error)
    (setItem_refused : jsstring -> jsstring -> option js_error)
    (JSON_stringify : list Template -> jsstring)
    (st : AppState) (a : Template) (b : browser) :
  activeTemplate st = Some a ->
  (forall t, In t (templates st) -> t_id t = t_id a) ->
  templates (handleDelete true st) = []
  /\ save_effect storage_denied setItem_refused JSON_stringify
       (handleDelete true st) b = (inl tt, b).
Proof.
  intros Ha Hall.
  assert (E : templates (handleDelete true st) = []).
  { unfold handleDelete.
    cbn [setSidebarOpen setSelectedTemplateId setTemplates templates].
    induction (templates st) as [|t l IH]; [reflexivity|].
    cbn [filter]. unfold is_active_id at 1. rewrite Ha.
    rewrite (Hall t (or_introl eq_refl)), jseqb_refl. cbn [negb].
    apply IH. intros t' Ht'. apply Hall. right. exact Ht'. }
  split; [exact E|]. unfold save_effect. rewrite E. reflexivity.
Qed.

Lemma delete_last_is_not_saved_witness :
  templates (handleDelete true sample_state) = []
  /\ save_effect None (fun _ _ => None) (fun _ => js "[]")
       (handleDelete true sample_state) sample_browser = (inl tt, sample_browser).
Proof.
  apply (delete_last_is_not_saved None (fun _ _ => None) (fun _ => js "[]")
           sample_state sample_template sample_browser).
  - reflexivity.
  - intros t [<-|[]]. reflexivity.
Defined.

(** ** The list shown *)

Lemma includes_nil (s : jsstring) : includes [] s = true.
Proof. destruct s; reflexivity. Qed.

Lemma Array_filter_pure (f : Template -> result bool) (g : Template -> bool)
    (l : list Template) :
  (forall t, f t = Ok (g t)) -> Array_filter f l = Ok (filter g l).
Proof.
  intros H. induction l as [|t l IH]; [reflexivity|].
  cbn [Array_filter filter]. rewrite H, IH. cbn [bind]. reflexivity.
Qed.

(** X18.  With an empty search text the list shown is the list of the
    templates of the selected category, in their order, and the whole
    list for the category that stands for all; building it never
    throws, whatever the contents. *)
Theorem filteredTemplates_empty_query (parseFragment : jsstring -> list node)
    (toLowerCase : jsstring -> jsstring) (st : AppState) :
  toLowerCase [] = [] ->
  searchQuery st = [] ->
  filteredTemplates parseFragment toLowerCase st
  = Ok (filter (fun t => Category_eqb (selectedCategory st) ALL
                         || Category_eqb (t_category t) (selectedCategory st))
          (templates st))
  /\ (selectedCategory st = ALL ->
      filteredTemplates parseFragment toLowerCase st = Ok (templates st)).
Proof.
  intros Hl Hq.
  assert (E : filteredTemplates parseFragment toLowerCase st
              = Ok (filter (fun t => Category_eqb (selectedCategory st) ALL
                                     || Category_eqb (t_category t) (selectedCategory st))
                      (templates st))).
  { unfold filteredTemplates. apply Array_filter_pure. intros t.
    unfold matches. rewrite htmlToPlainText_projection. cbn [bind].
    rewrite Hq, Hl, includes_nil. reflexivity. }
  split; [exact E|]. intros Hc. rewrite E, Hc. f_equal. clear E.
  induction (templates st) as [|t l IH]; [reflexivity|].
  cbn [filter Category_eqb orb]. f_equal. exact IH.
Qed.

Lemma filteredTemplates_empty_query_witness :
  filteredTemplates (fun _ => []) (fun s => s) sample_state
  = Ok (filter (fun t => Category_eqb (selectedCategory sample_state) ALL
                         || Category_eqb (t_category t) (selectedCategory sample_state))
          (templates sample_state))
  /\ (selectedCategory sample_state = ALL ->
      filteredTemplates (fun _ => []) (fun s => s) sample_state
      = Ok (templates sample_state)).
Proof. apply filteredTemplates_empty_query; reflexivity. Defined.

(** ** The values map as an object *)

Lemma has_key_In (o : VariableMap) (k : jsstring) :
  has_key o k = true <-> In k (map fst o).
Proof.
  unfold has_key. rewrite existsb_exists, in_map_iff. split.
  - intros (e & He & E). apply jseqb_eq in E. exists e. auto.
  - intros (e & E & He). exists e. split; [exact He|]. apply jseqb_eq. exact E.
Qed.

Lemma insert_index_Permutation (i : N) (k v : jsstring) (o : VariableMap) :
  Permutation (insert_index i k v o) ((k, v) :: o).
Proof.
  induction o as [|e o IH]; [apply Permutation_refl|].
  cbn [insert_index]. destruct (array_index (fst e)) as [j|]; [|apply Permutation_refl].
  destruct (i <? j)%N; [apply Permutation_refl|].
  eapply Permutation_trans; [apply perm_skip; exact IH|apply perm_swap].
Qed.

Lemma define_property_new (o : VariableMap) (k v : jsstring) :
  has_key o k = false -> Permutation (define_property o k v) ((k, v) :: o).
Proof.
  intros H. unfold define_property. rewrite H.
  destruct (array_index k) as [i|]; [apply insert_index_Permutation|].
  apply Permutation_sym. apply Permutation_cons_append.
Qed.

Lemma define_property_keys_old (o : VariableMap) (k v : jsstring) :
  has_key o k = true -> map fst (define_property o k v) = map fst o.
Proof.
  intros H. unfold define_property. rewrite H. rewrite map_map.
  apply map_ext. intros e. destruct (jseqb (fst e) k) eqn:E; [|reflexivity].
  apply jseqb_eq in E. symmetry. exact E.
Qed.

Lemma define_property_In (o : VariableMap) (k v k' v' : jsstring) :
  In (k', v') (define_property o k v)
  <-> (k' = k /\ v' = v) \/ (k' <> k /\ In (k', v') o).
Proof.
  destruct (has_key o k) eqn:H.
  - unfold define_property. rewrite H, in_map_iff. split.
    + intros ([k0 v0] & E & Hin). cbn [fst] in E.
      destruct (jseqb k0 k) eqn:J.
      * injection E as <- <-. left. auto.
      * injection E as <- <-. right. apply jseqb_neq in J. auto.
    + intros [[-> ->]|[Hne Hin]].
      * apply has_key_In, in_map_iff in H as ([k0 v0] & E & Hin).
        cbn [fst] in E. subst k0. exists (k, v0). cbn [fst].
        rewrite jseqb_refl. auto.
      * exists (k', v'). cbn [fst]. apply jseqb_neq in Hne. rewrite Hne. auto.
  - pose proof (define_property_new o k v H) as P. split.
    + intros Hin. apply (Permutation_in _ P) in Hin.
      destruct Hin as [E|Hin]; [injection E as <- <-; left; auto|].
      right. split; [|exact Hin]. intros ->.
      assert (Hk : has_key o k = true).
      { apply has_key_In, in_map_iff. exists (k, v'). auto. }
      congruence.
    + intros [[-> ->]|[_ Hin]];
        apply (Permutation_in _ (Permutation_sym P)); [left; reflexivity|right; exact Hin].
Qed.

Lemma define_property_NoDup (o : VariableMap) (k v : jsstring) :
  NoDup (map fst o) -> NoDup (map fst (define_property o k v)).
Proof.
  intros Hnd. destruct (has_key o k) eqn:H.
  - rewrite define_property_keys_old by assumption. exact Hnd.
  - eapply Permutation_NoDup.
    + apply Permutation_sym, Permutation_map, define_property_new. exact H.
    + cbn [map fst]. constructor; [|exact Hnd].
      intros Hin. apply has_key_In in Hin. congruence.
Qed.

Lemma initial_map_from (vars : list jsstring) :
  forall o,
    (forall k v, In (k, v) o -> v = [] /\ k <> js "__proto__") ->
    NoDup (map fst o) ->
    let m := fold_left (fun initialMap v => assign_property initialMap v []) vars o in
    (forall k v, In (k, v) m ->
                 v = [] /\ k <> js "__proto__" /\ (In k vars \/ In k (map fst o)))
    /\ (forall k, (In k vars \/ In k (map fst o)) -> k <> js "__proto__" -> In (k, []) m)
    /\ NoDup (map fst m).
Proof.
  induction vars as [|x vars IH]; intros o Ho Hnd; cbn [fold_left].
  - split; [|split].
    + intros k v Hin. destruct (Ho _ _ Hin) as [-> Hk].
      repeat split; [exact Hk|]. right. apply in_map_iff. exists (k, []). auto.
    + intros k [[]|Hin] _. apply in_map_iff in Hin as ([k0 v0] & <- & Hin).
      destruct (Ho _ _ Hin) as [-> _]. exact Hin.
    + exact Hnd.
  - destruct (jseqb x (js "__proto__")) eqn:J.
    + assert (Ea : assign_property o x [] = o)
        by (unfold assign_property; rewrite J; reflexivity).
      rewrite Ea. apply jseqb_eq in J. subst x.
      destruct (IH o Ho Hnd) as (A & B & C). split; [|split].
      * intros k v Hin. apply A in Hin as (Hv & Hk & Hin).
        repeat split; [exact Hv|exact Hk|]. cbn [In]. tauto.
      * intros k Hin Hk. apply B; [|exact Hk]. cbn [In] in Hin.
        destruct Hin as [[<-|Hin]|Hin]; [contradiction|tauto|tauto].
      * exact C.
    + assert (Ea : assign_property o x [] = define_property o x [])
        by (unfold assign_property; rewrite J; reflexivity).
      rewrite Ea. apply jseqb_neq in J.
      assert (K : forall k, In k (map fst (define_property o x []))
                            <-> k = x \/ In k (map fst o)).
      { intros k. rewrite !in_map_iff. split.
        - intros ([k0 v0] & <- & Hin). cbn [fst].
          apply define_property_In in Hin as [[-> _]|[_ Hin]]; [auto|].
          right. exists (k0, v0). auto.
        - intros [->|([k0 v0] & <- & Hin)].
          + exists (x, []). split; [reflexivity|]. apply define_property_In. auto.
          + cbn [fst]. destruct (jsstring_eq_dec k0 x) as [->|Hne].
            * exists (x, []). split; [reflexivity|]. apply define_property_In. auto.
            * exists (k0, v0). split; [reflexivity|]. apply define_property_In. auto. }
      destruct (IH (define_property o x [])) as (A & B & C).
      * intros k v Hin. apply define_property_In in Hin as [[-> ->]|[_ Hin]];
          [auto|apply Ho; exact Hin].
      * apply define_property_NoDup. exact Hnd.
      * split; [|split].
        -- intros k v Hin. apply A in Hin as (Hv & Hk & Hin).
           repeat split; [exact Hv|exact Hk|]. cbn [In].
           destruct Hin as [Hin|Hin]; [tauto|]. apply K in Hin.
           destruct Hin as [->|Hin]; auto.
        -- intros k Hin Hk. apply B; [|exact Hk]. rewrite K. cbn [In] in Hin.
           destruct Hin as [[<-|Hin]|Hin]; auto.
        -- exact C.
Qed.

(** X20.  The map the application starts from has one entry for each
    placeholder name it is given, [__proto__] apart, and no other entry,
    and every value is empty. *)
Theorem initial_map_entries (vars : list jsstring) :
  (forall k v, In (k, v) (initial_map vars) ->
               v = [] /\ In k vars /\ k <> js "__proto__")
  /\ (forall k, In k vars -> k <> js "__proto__" -> In (k, []) (initial_map vars))
  /\ NoDup (map fst (initial_map vars)).
Proof.
  destruct (initial_map_from vars []) as (A & B & C);
    [intros k v []|constructor|].
  split; [|split].
  - intros k v Hin. apply A in Hin as (Hv & Hk & [Hin|[]]). auto.
  - intros k Hin Hk. apply B; auto.
  - exact C.
Qed.

Lemma initial_map_values (vars : list jsstring) (k v : jsstring) :
  In (k, v) (initial_map vars) -> v = [] /\ In k vars.
Proof.
  intros H. destruct (initial_map_from vars []) as (A & _);
    [intros ? ? []|constructor|].
  apply A in H as (? & _ & [H|[]]). auto.
Qed.

(** X19.  When a template becomes the active one and its placeholder
    names have no pattern syntax character, the preview of the template
    with the map the effect builds is the content of the template. *)
Theorem reset_variables_preview (innerWidth : Z) (st : AppState) (a : Template) :
  activeTemplate st = Some a ->
  (forall n, In n (extractVariables (t_content a)) -> plain_key n = true) ->
  replaceVariables (t_content a) (variableValues (reset_variables innerWidth st))
  = Ok (t_content a).
Proof.
  intros Ha Hp. unfold reset_variables. rewrite Ha.
  assert (E : variableValues
                (if (innerWidth <? 768)%Z
                 then setSidebarOpen false
                        (setIsCopied false
                           (setVariableValues
                              (fun _ => initial_map (extractVariables (t_content a))) st))
                 else setIsCopied false
                        (setVariableValues
                           (fun _ => initial_map (extractVariables (t_content a))) st))
              = initial_map (extractVariables (t_content a))).
  { destruct (innerWidth <? 768)%Z; reflexivity. }
  rewrite E. apply forEach_entries_empty_values.
  intros k v Hin. apply initial_map_values in Hin as [-> Hin]. auto.
Qed.

Lemma reset_variables_preview_witness :
  replaceVariables (t_content sample_template)
    (variableValues (reset_variables 1024 sample_state))
  = Ok (t_content sample_template).
Proof.
  apply (reset_variables_preview 1024 sample_state sample_template); [reflexivity|].
  intros n Hn. vm_compute in Hn. destruct Hn as [<-|[]]. reflexivity.
Defined.

(** X21.  Typing a value into the field of a name gives the name this
    value and no other, leaves the entries of the other names as they
    are, and keeps every key once. *)
Theorem set_variable_entries (prev : VariableMap) (v value : jsstring) :
  NoDup (map fst prev) ->
  (forall k x, In (k, x) (set_variable prev v value)
               <-> (k = v /\ x = value) \/ (k <> v /\ In (k, x) prev))
  /\ NoDup (map fst (set_variable prev v value)).
Proof.
  intros Hnd. split.
  - intros k x. apply define_property_In.
  - apply define_property_NoDup. exact Hnd.
Qed.

Lemma set_variable_entries_witness :
  (forall k x, In (k, x) (set_variable [(js "ten", [])] (js "ten") (js "An"))
               <-> (k = js "ten" /\ x = js "An")
                   \/ (k <> js "ten" /\ In (k, x) [(js "ten", [])]))
  /\ NoDup (map fst (set_variable [(js "ten", [])] (js "ten") (js "An"))).
Proof.
  apply set_variable_entries. repeat constructor. intros [].
Defined.

(** ** Copying *)

Lemma touch_without_lastUsed (clock : nat -> Z) (id : jsstring) (l : list Template) :
  forall n, map without_lastUsed (touch clock n id l) = map without_lastUsed l.
Proof.
  induction l as [|t l IH]; intros n; [reflexivity|].
  cbn [touch]. destruct (jseqb (t_id t) id); cbn [map]; rewrite IH; reflexivity.
Qed.

Lemma touch_other (clock : nat -> Z) (id : jsstring) (l : list Template) (t : Template) :
  t_id t <> id -> forall n, In t (touch clock n id l) <-> In t l.
Proof.
  intros Hne. induction l as [|x l IH]; intros n; [reflexivity|].
  cbn [touch]. destruct (jseqb (t_id x) id) eqn:J; cbn [In]; rewrite IH.
  - apply jseqb_eq in J. split.
    + intros [E|H]; [|auto]. exfalso. apply Hne. rewrite <- E. exact J.
    + intros [E|H]; [|auto]. exfalso. apply Hne. rewrite <- E. exact J.
  - reflexivity.
Qed.

(** X22.  When the write of both forms succeeds, the clipboard holds the
    filled markup and its plain text, and in the list nothing has changed
    but the time of last use of the templates with the identifier of the
    active one. *)
Theorem handleCopy_rich (parseFragment : jsstring -> list node)
    (clipboard_write_fails : jsstring -> jsstring -> option js_error)
    (clipboard_writeText_fails : jsstring -> option js_error)
    (clock : nat -> Z) (st : AppState) (b : browser) (a : Template)
    (finalHtml : jsstring) :
  activeTemplate st = Some a ->
  replaceVariables (t_content a) (variableValues st) = Ok finalHtml ->
  clipboard_write_fails finalHtml (flat_map plain_projection (parseFragment finalHtml))
  = None ->
  exists st' b',
    handleCopy parseFragment clipboard_write_fails clipboard_writeText_fails
      clock st b = Ok (st', b')
    /\ b_clipboard b'
       = [(js "text/html", finalHtml);
          (js "text/plain", flat_map plain_projection (parseFragment finalHtml))]
    /\ map without_lastUsed (templates st') = map without_lastUsed (templates st)
    /\ (forall t, t_id t <> t_id a -> (In t (templates st') <-> In t (templates st)))
    /\ isCopied st' = true
    /\ b_world b' = b_world b /\ b_alerts b' = b_alerts b.
Proof.
  intros Ha Hr Hw. unfold handleCopy. rewrite Ha, Hr. cbn [bind].
  rewrite htmlToPlainText_projection. cbn [bind]. rewrite Hw.
  eexists. eexists. split; [reflexivity|].
  cbn [setTemplates setIsCopied templates isCopied with_clipboard b_clipboard
       b_world b_alerts].
  repeat split.
  - apply touch_without_lastUsed.
  - apply touch_other. assumption.
  - apply touch_other. assumption.
Qed.

Lemma handleCopy_rich_witness :
  exists st' b',
    handleCopy (fun _ => [Text (js "Dear {ten}, "); Element (js "b") [Text (js "hello")]])
      (fun _ _ => None) (fun _ => None) (fun n => Z.of_nat n) sample_state sample_browser
    = Ok (st', b')
    /\ b_clipboard b'
       = [(js "text/html", js "Dear {ten}, <b>hello</b>");
          (js "text/plain",
           flat_map plain_projection
             [Text (js "Dear {ten}, "); Element (js "b") [Text (js "hello")]])]
    /\ map without_lastUsed (templates st') = map without_lastUsed (templates sample_state)
    /\ (forall t, t_id t <> t_id sample_template ->
                  (In t (templates st') <-> In t (templates sample_state)))
    /\ isCopied st' = true
    /\ b_world b' = b_world sample_browser /\ b_alerts b' = b_alerts sample_browser.
Proof.
  apply (handleCopy_rich
           (fun _ => [Text (js "Dear {ten}, "); Element (js "b") [Text (js "hello")]])
           (fun _ _ => None) (fun _ => None) (fun n => Z.of_nat n)
           sample_state sample_browser sample_template (js "Dear {ten}, <b>hello</b>"));
    reflexivity.
Defined.

(** X23.  When the write of both forms fails, the exception is logged and
    the plain text alone is written: if that succeeds the copy is
    reported as done, and no time of last use has changed; if that fails
    too, an alert is shown and neither the state nor the clipboard has
    changed. *)
Theorem handleCopy_fallback (parseFragment : jsstring -> list node)
    (clipboard_write_fails : jsstring -> jsstring -> option js_error)
    (clipboard_writeText_fails : jsstring -> option js_error)
    (clock : nat -> Z) (st : AppState) (b : browser) (a : Template)
    (finalHtml : jsstring) (err : js_error) :
  activeTemplate st = Some a ->
  replaceVariables (t_content a) (variableValues st) = Ok finalHtml ->
  clipboard_write_fails finalHtml (flat_map plain_projection (parseFragment finalHtml))
  = Some err ->
  exists st' b',
    handleCopy parseFragment clipboard_write_fails clipboard_writeText_fails
      clock st b = Ok (st', b')
    /\ templates st' = templates st
    /\ console_errors (b_world b')
       = console_errors (b_world b) ++ [(js "Failed to copy", err)]
    /\ match clipboard_writeText_fails
               (flat_map plain_projection (parseFragment finalHtml)) with
       | None =>
           st' = setIsCopied true st
           /\ b_clipboard b'
              = [(js "text/plain", flat_map plain_projection (parseFragment finalHtml))]
           /\ b_alerts b' = b_alerts b
       | Some _ =>
           st' = st
           /\ b_clipboard b' = b_clipboard b
           /\ b_alerts b' = b_alerts b ++ [js "Không thể copy. Vui lòng thử lại."]
       end.
Proof.
  intros Ha Hr Hw. unfold handleCopy. rewrite Ha, Hr. cbn [bind].
  rewrite htmlToPlainText_projection. cbn [bind]. rewrite Hw.
  destruct (clipboard_writeText_fails _);
    eexists; eexists; (split; [reflexivity|]); repeat split.
Qed.

Lemma handleCopy_fallback_witness :
  exists st' b',
    handleCopy (fun _ => [Text (js "Dear {ten}, "); Element (js "b") [Text (js "hello")]])
      (fun _ _ => Some (TypeError "ClipboardItem is not defined")) (fun _ => None)
      (fun n => Z.of_nat n) sample_state sample_browser
    = Ok (st', b')
    /\ templates st' = templates sample_state
    /\ console_errors (b_world b')
       = console_errors (b_world sample_browser)
           ++ [(js "Failed to copy", TypeError "ClipboardItem is not defined")]
    /\ (st' = setIsCopied true sample_state
        /\ b_clipboard b'
           = [(js "text/plain",
               flat_map plain_projection
                 [Text (js "Dear {ten}, "); Element (js "b") [Text (js "hello")]])]
        /\ b_alerts b' = b_alerts sample_browser).
Proof.
  apply (handleCopy_fallback
           (fun _ => [Text (js "Dear {ten}, "); Element (js "b") [Text (js "hello")]])
           (fun _ _ => Some (TypeError "ClipboardItem is not defined")) (fun _ => None)
           (fun n => Z.of_nat n)
           sample_state sample_browser sample_template (js "Dear {ten}, <b>hello</b>")
           (TypeError "ClipboardItem is not defined"));
    reflexivity.
Defined.

(** ** The suggestion of the assistant *)

Lemma trim_start_skips (w s : jsstring) :
  In w white_space -> trim_start (w ++ s) = trim_start s.
Proof.
  intros H. unfold white_space in H. cbn [map In ascii_of_nat] in H.
  repeat (destruct H as [<-|H]; [reflexivity|]). destruct H.
Qed.

Lemma trim_start_white (ws : list jsstring) :
  Forall (fun w => In w white_space) ws -> trim_start (concat ws) = [].
Proof.
  induction 1 as [|w ws Hw _ IH]; [reflexivity|].
  cbn [concat]. rewrite trim_start_skips by exact Hw. exact IH.
Qed.

Lemma String_trim_white (ws : list jsstring) :
  Forall (fun w => In w white_space) ws -> String_trim (concat ws) = [].
Proof. intros H. unfold String_trim. rewrite trim_start_white by exact H. reflexivity. Qed.

Lemma suggestContent_value_nonempty (env : option jsstring)
    (provider : request -> option jsstring + js_error)
    (currentContent instruction : jsstring) (w w' : world) (v : jsstring) :
  suggestContent env provider currentContent instruction w = (inl v, w') ->
  currentContent <> [] -> v <> [].
Proof.
  unfold suggestContent. destruct (negb (truthy (apiKey env))); [discriminate|].
  unfold try_catch, io_bind, generateContent.
  destruct (provider _) as [[text|]|e]; cbn [ret]; try discriminate.
  - intros H Hc. injection H as <- _. intros Hv. apply or_string_nonempty in Hv. auto.
  - intros H Hc. injection H as <- _. exact Hc.
Qed.

(** X24.  The handler of the suggestion never touches the list of
    templates, the storage or the clipboard, changes nothing in the form
    but its content, and never leaves a form that had a content without
    one. *)
Theorem handleAiSuggestion_keeps (env : option jsstring)
    (provider : request -> option jsstring + js_error)
    (st : AppState) (b : browser) :
  let st' := fst (handleAiSuggestion env provider st b) in
  let b' := snd (handleAiSuggestion env provider st b) in
  templates st' = templates st
  /\ selectedTemplateId st' = selectedTemplateId st
  /\ e_id (editForm st') = e_id (editForm st)
  /\ e_title (editForm st') = e_title (editForm st)
  /\ e_category (editForm st') = e_category (editForm st)
  /\ e_lastUsed (editForm st') = e_lastUsed (editForm st)
  /\ (truthy_field (e_content (editForm st)) = true ->
      truthy_field (e_content (editForm st')) = true)
  /\ b_storage b' = b_storage b
  /\ b_clipboard b' = b_clipboard b.
Proof.
  unfold handleAiSuggestion.
  destruct (negb (truthy (String_trim (aiPrompt st)))); cbn [orb];
    [cbn [fst snd]; repeat split; auto|].
  destruct (truthy_field (e_content (editForm st))) eqn:Tc; cbn [negb];
    [|cbn [fst snd]; repeat split; try discriminate; auto].
  destruct (truthy_field_Some _ Tc) as (c & Ec & Nc). rewrite Ec. cbn [field].
  destruct (suggestContent env provider c (aiPrompt st) (b_world b)) as [[v|e] w] eqn:S;
    cbn [fst snd]; repeat split.
  - intros _.
    cbn [editForm setIsGeneratingAI setAiPrompt setShowAiModal setEditForm e_content
         truthy_field].
    apply truthy_nonempty. eapply suggestContent_value_nonempty; eassumption.
  - intros _. cbn [editForm setIsGeneratingAI]. rewrite Ec in *. exact Tc.
Qed.

(** X25.  When the call is rejected, the form, the prompt and the dialog
    stay as they are, the flag of a running call is off again, and one
    alert shows the message of the error. *)
Theorem handleAiSuggestion_rejected (env : option jsstring)
    (provider : request -> option jsstring + js_error)
    (st : AppState) (b : browser) (c : jsstring) (e : js_error) (w : world) :
  truthy (String_trim (aiPrompt st)) = true ->
  e_content (editForm st) = Some c -> c <> [] ->
  suggestContent env provider c (aiPrompt st) (b_world b) = (inr e, w) ->
  handleAiSuggestion env provider st b
  = (setIsGeneratingAI false st,
     {| b_world := w; b_storage := b_storage b; b_clipboard := b_clipboard b;
        b_alerts := b_alerts b ++ [js "Lỗi khi gọi AI: " ++ message e] |}).
Proof.
  intros Hp Ec Nc S. unfold handleAiSuggestion. rewrite Hp, Ec.
  apply truthy_nonempty in Nc. cbn [truthy_field field]. rewrite Nc. cbn [negb orb].
  rewrite S. destruct st. reflexivity.
Qed.

Lemma handleAiSuggestion_rejected_witness :
  handleAiSuggestion None (fun _ => inl None) sample_state sample_browser
  = (setIsGeneratingAI false sample_state,
     {| b_world := b_world sample_browser; b_storage := b_storage sample_browser;
        b_clipboard := b_clipboard sample_browser;
        b_alerts := b_alerts sample_browser
                    ++ [js "Lỗi khi gọi AI: "
                        ++ message (Error "API Key chưa được cấu hình.")] |}).
Proof.
  apply (handleAiSuggestion_rejected None (fun _ => inl None) sample_state sample_browser
           (js "Dear {ten}, <b>hello</b>")); try reflexivity; discriminate.
Defined.

(** X26.  With a prompt made of white space and line terminators only
    (the empty prompt included), or a form without content, the handler
    does nothing: no request, no alert, no change of the state. *)
Theorem handleAiSuggestion_blank (env : option jsstring)
    (provider : request -> option jsstring + js_error)
    (st : AppState) (b : browser) :
  (exists ws, Forall (fun w => In w white_space) ws /\ aiPrompt st = concat ws)
  \/ e_content (editForm st) = None \/ e_content (editForm st) = Some [] ->
  handleAiSuggestion env provider st b = (st, b).
Proof.
  intros H. unfold handleAiSuggestion.
  destruct H as [(ws & Hws & E)|[H|H]].
  - rewrite E, String_trim_white by exact Hws. reflexivity.
  - rewrite H. cbn [truthy_field negb]. rewrite orb_true_r. reflexivity.
  - rewrite H. cbn [truthy_field truthy negb]. rewrite orb_true_r. reflexivity.
Qed.

Lemma handleAiSuggestion_blank_witness :
  handleAiSuggestion (Some (js "k")) (fun _ => inl None)
    (setAiPrompt (js " 　 	") sample_state) sample_browser
  = (setAiPrompt (js " 　 	") sample_state, sample_browser).
Proof.
  apply handleAiSuggestion_blank. left.
  exists [js " "; js "　"; js " "; [ascii_of_nat 9]].
  split; [|reflexivity].
  repeat constructor; vm_compute; tauto.
Defined.

(** ** Loading *)

Lemma normalizeContent_fixed (content : jsstring) :
  normalizeContent (normalizeContent content) = normalizeContent content.
Proof.
  rewrite (normalizeContent_cases content).
  destruct (has_tag content) eqn:T.
  - rewrite normalizeContent_cases, T. reflexivity.
  - destruct (includes_char newline content) eqn:I.
    + rewrite normalizeContent_cases.
      rewrite has_tag_after_conversion by (apply includes_char_In; exact I).
      reflexivity.
    + rewrite normalizeContent_cases, T, I. reflexivity.
Qed.

(** X27.  When [getTemplates] gives a list of templates, the effect that
    loads them succeeds and writes nothing to the storage; the list it
    puts in the state has these templates, in their order, with nothing
    changed but the content, and every content is one that
    [normalizeContent] leaves as it is. *)
Theorem load_effect_normalizes (storage_denied : option js_error)
    (JSON_parse : jsstring -> parsed + js_error) (now1 now2 now3 : Z)
    (st : AppState) (b : browser) (loaded : list Template) :
  fst (getTemplates storage_denied JSON_parse now1 now2 now3 b)
  = inl (ParsedTemplates loaded) ->
  exists st' b',
    load_effect storage_denied JSON_parse now1 now2 now3 st b = Ok (st', b')
    /\ map t_id (templates st') = map t_id loaded
    /\ map t_title (templates st') = map t_title loaded
    /\ map t_category (templates st') = map t_category loaded
    /\ map t_lastUsed (templates st') = map t_lastUsed loaded
    /\ map t_content (templates st') = map normalizeContent (map t_content loaded)
    /\ (forall t, In t (templates st') ->
                  normalizeContent (t_content t) = t_content t)
    /\ b_storage b' = b_storage b.
Proof.
  unfold load_effect.
  destruct (getTemplates_cases storage_denied JSON_parse now1 now2 now3 b)
    as (v & b1 & E & S & _). rewrite E. cbn [fst].
  intros H. injection H as ->. eexists. eexists. split; [reflexivity|].
  cbn [setTemplates templates]. rewrite !map_map.
  cbn [t_id t_title t_category t_lastUsed t_content].
  repeat split; try exact S.
  intros t Hin. apply in_map_iff in Hin as (t0 & <- & _). cbn [t_content].
  apply normalizeContent_fixed.
Qed.

Lemma load_effect_normalizes_witness :
  exists st' b',
    load_effect None (fun _ => inr (SyntaxError "Unexpected token")) 1 2 3
      sample_state sample_browser = Ok (st', b')
    /\ map t_id (templates st') = map t_id (INITIAL_TEMPLATES 1 2 3)
    /\ map t_title (templates st') = map t_title (INITIAL_TEMPLATES 1 2 3)
    /\ map t_category (templates st') = map t_category (INITIAL_TEMPLATES 1 2 3)
    /\ map t_lastUsed (templates st') = map t_lastUsed (INITIAL_TEMPLATES 1 2 3)
    /\ map t_content (templates st')
       = map normalizeContent (map t_content (INITIAL_TEMPLATES 1 2 3))
    /\ (forall t, In t (templates st') ->
                  normalizeContent (t_content t) = t_content t)
    /\ b_storage b' = b_storage sample_browser.
Proof.
  apply (load_effect_normalizes None (fun _ => inr (SyntaxError "Unexpected token"))
           1 2 3 sample_state sample_browser (INITIAL_TEMPLATES 1 2 3)).
  reflexivity.
Defined.

Lemma map_normalized (l : list Template) :
  (forall t, In t l -> normalizeContent (t_content t) = t_content t) ->
  map (fun t => {| t_id := t_id t; t_title := t_title t;
                   t_content := normalizeContent (t_content t);
                   t_category := t_category t; t_lastUsed := t_lastUsed t |}) l
  = l.
Proof.
  intros H. rewrite <- (map_id l) at 2. apply map_ext_in.
  intros t Ht. rewrite (H t Ht). destruct t. reflexivity.
Qed.

(** X28.  A list that is not empty and whose contents [normalizeContent]
    leaves as they are comes back as it is when the component is mounted
    again after the effect that saves it, provided the browser accepts
    the text and [JSON.parse] undoes [JSON.stringify] on this list. *)
Theorem save_then_load (setItem_refused : jsstring -> jsstring -> option js_error)
    (JSON_parse : jsstring -> parsed + js_error)
    (JSON_stringify : list Template -> jsstring) (now1 now2 now3 : Z)
    (st st0 : AppState) (b : browser) :
  templates st <> [] ->
  (forall t, In t (templates st) -> normalizeContent (t_content t) = t_content t) ->
  setItem_refused STORAGE_KEY (JSON_stringify (templates st)) = None ->
  JSON_stringify (templates st) <> [] ->
  JSON_parse (JSON_stringify (templates st)) = inl (ParsedTemplates (templates st)) ->
  exists st' b',
    load_effect None JSON_parse now1 now2 now3 st0
      (snd (save_effect None setItem_refused JSON_stringify st b))
    = Ok (st', b')
    /\ templates st' = templates st.
Proof.
  intros Hne Hn R N P. unfold save_effect.
  destruct (templates st) as [|t l] eqn:E; [congruence|].
  cbn [length Nat.ltb Nat.leb]. unfold load_effect.
  rewrite getTemplates_after_save by assumption.
  eexists. eexists. split; [reflexivity|].
  cbn [setTemplates templates]. apply map_normalized. exact Hn.
Qed.

Lemma save_then_load_witness :
  exists st' b',
    load_effect None (fun _ => inl (ParsedTemplates [sample_template])) 1 2 3
      (handleBackToList sample_state)
      (snd (save_effect None (fun _ _ => None) (fun _ => js "[{}]")
              sample_state sample_browser))
    = Ok (st', b')
    /\ templates st' = templates sample_state.
Proof.
  apply (save_then_load (fun _ _ => None)
           (fun _ => inl (ParsedTemplates [sample_template])) (fun _ => js "[{}]")
           1 2 3 sample_state (handleBackToList sample_state) sample_browser);
    try reflexivity; try discriminate.
  intros t [<-|[]]. reflexivity.
Defined.
